(** * SuperSelector: tokenizer, parser, command registry, built-in commands,
      execution engine and cache, embedded from the TypeScript sources.

    JavaScript strings are modelled by [string]: every character is a code
    unit below 256.  Tokens, commands and error messages carry [string]s; the
    scanners walk the input as a [list ascii], indexed by position exactly as
    [this.input[this.position]] is. *)

From Stdlib Require Import ZArith List String Ascii Bool Lia DecimalString.
From Stdlib Require DecimalPos.
From stdpp Require Import gmap strings list.
Import ListNotations.

Local Open Scope Z_scope.
Local Open Scope nat_scope.

(** ** Characters and text *)

Module Chars.

Definition code (c : ascii) : nat := nat_of_ascii c.

Definition between (lo hi : nat) (c : ascii) : bool :=
  (lo <=? code c) && (code c <=? hi).

(** [/\s/] restricted to code units below 256: TAB, LF, VT, FF, CR, space and
    the no-break space.  [String.prototype.trim] strips the same set. *)
Definition isWhitespace (c : ascii) : bool :=
  between 9 13 c || (code c =? 32) || (code c =? 160).

(** [/\d/] *)
Definition isDigit (c : ascii) : bool := between 48 57 c.

(** [/[a-zA-Z]/] *)
Definition isAlpha (c : ascii) : bool := between 65 90 c || between 97 122 c.

(** [/[a-zA-Z0-9]/] *)
Definition isAlphaNumeric (c : ascii) : bool := isAlpha c || isDigit c.

(** The double quote character. *)
Definition doubleQuote : ascii := "034".

(** [/\w/] *)
Definition isWordChar (c : ascii) : bool := isAlphaNumeric c || Ascii.eqb c "_".

Definition chars (s : string) : list ascii := list_ascii_of_string s.
Definition text (l : list ascii) : string := string_of_list_ascii l.

(** Length of the longest prefix whose characters satisfy [p]: what a loop
    [while (pos < len && p(input[pos])) pos++] advances by. *)
Fixpoint spanLength (p : ascii -> bool) (l : list ascii) : nat :=
  match l with
  | c :: r => if p c then S (spanLength p r) else 0
  | [] => 0
  end.

Definition trimStart (l : list ascii) : list ascii :=
  drop (spanLength isWhitespace l) l.

Definition trimEnd (l : list ascii) : list ascii :=
  rev (trimStart (rev l)).

(** [String.prototype.trim] *)
Definition trim (l : list ascii) : list ascii := trimEnd (trimStart l).

(** Decimal rendering of an integer, as template literals print numbers. *)
Definition showZ (z : Z) : string := NilEmpty.string_of_int (Z.to_int z).
Definition showNat (n : nat) : string := showZ (Z.of_nat n).

End Chars.

(** ** Tokens *)

Module Tok.

Inductive TokenType :=
| CSS_SELECTOR | PIPE | FUNCTION_NAME | OPEN_PAREN | CLOSE_PAREN
| OPEN_BRACKET | CLOSE_BRACKET | STRING | NUMBER | COMMA | PROPERTY
| EOF | WHITESPACE.

Definition typeName (t : TokenType) : string :=
  match t with
  | CSS_SELECTOR => "CSS_SELECTOR" | PIPE => "PIPE"
  | FUNCTION_NAME => "FUNCTION_NAME" | OPEN_PAREN => "OPEN_PAREN"
  | CLOSE_PAREN => "CLOSE_PAREN" | OPEN_BRACKET => "OPEN_BRACKET"
  | CLOSE_BRACKET => "CLOSE_BRACKET" | STRING => "STRING"
  | NUMBER => "NUMBER" | COMMA => "COMMA" | PROPERTY => "PROPERTY"
  | EOF => "EOF" | WHITESPACE => "WHITESPACE"
  end.

Definition type_eqb (a b : TokenType) : bool :=
  match a, b with
  | CSS_SELECTOR, CSS_SELECTOR | PIPE, PIPE | FUNCTION_NAME, FUNCTION_NAME
  | OPEN_PAREN, OPEN_PAREN | CLOSE_PAREN, CLOSE_PAREN
  | OPEN_BRACKET, OPEN_BRACKET | CLOSE_BRACKET, CLOSE_BRACKET
  | STRING, STRING | NUMBER, NUMBER | COMMA, COMMA | PROPERTY, PROPERTY
  | EOF, EOF | WHITESPACE, WHITESPACE => true
  | _, _ => false
  end.

(** [position] is [start ?? this.position - value.length], which is [-1] for
    a one-character token found at offset 0; hence an integer. *)
Record Token := mkToken {
  type : TokenType;
  value : string;
  position : Z;
  length : nat
}.

End Tok.

(** ** Tokenizer (src/parser/tokenizer.ts) *)

Module Tokenizer.
Import Chars.

(** The mutable fields of a [Tokenizer]; [this.input] (already trimmed by the
    constructor) is passed alongside. *)
Record state := mkState {
  position : nat;
  tokens : list Tok.Token
}.

Definition initial : state := {| position := 0; tokens := [] |}.

Inductive outcome :=
| Continue (st : state)
| Finished (toks : list Tok.Token)
| Throw (message : string).

Definition addToken (st : state) (type : Tok.TokenType) (value : string)
    (start : option nat) : state :=
  {| position := position st;
     tokens := tokens st ++
       [ {| Tok.type := type;
            Tok.value := value;
            Tok.position :=
              match start with
              | Some s => Z.of_nat s
              | None => (Z.of_nat (position st) - Z.of_nat (String.length value))%Z
              end;
            Tok.length := String.length value |} ] |}.

Definition setPosition (st : state) (p : nat) : state :=
  {| position := p; tokens := tokens st |}.

Definition advance (st : state) : state := setPosition st (S (position st)).

Definition skipWhitespace (input : list ascii) (st : state) : state :=
  setPosition st (position st + spanLength isWhitespace (drop (position st) input)).

(** The escape table of [tokenizeString]. *)
Definition unescape (escaped : ascii) : ascii :=
  if Ascii.eqb escaped "n" then "010"
  else if Ascii.eqb escaped "t" then "009"
  else if Ascii.eqb escaped "r" then "013"
  else escaped.

(** The [while] loop of [tokenizeString] run on the text after the opening
    quote; [rest] is [input] from [pos] on.  Returns the position and the
    value at loop exit. *)
Fixpoint scanString (quote : ascii) (rest : list ascii) (pos : nat)
    (value : list ascii) {struct rest} : nat * list ascii :=
  match rest with
  | [] => (pos, value)
  | c :: r =>
      if Ascii.eqb c quote then (pos, value)
      else if Ascii.eqb c "\" then
        match r with
        | escaped :: r' => scanString quote r' (S (S pos)) (value ++ [unescape escaped])
        | [] => (S pos, value ++ [c])
        end
      else scanString quote r (S pos) (value ++ [c])
  end.

Definition tokenizeString (input : list ascii) (st : state) (quote : ascii) : outcome :=
  let start := position st in
  let '(pos, value) := scanString quote (drop (S start) input) (S start) [] in
  if List.length input <=? pos then
    Throw ("Unterminated string starting at position " +:+ showNat start)
  else
    Continue (addToken (setPosition st (S pos)) Tok.STRING (text value) (Some start)).

Definition tokenizeNumber (input : list ascii) (st : state) : outcome :=
  let start := position st in
  let rest := drop start input in
  let sign := match rest with c :: _ => if Ascii.eqb c "-" then 1 else 0 | [] => 0 end in
  let digits := spanLength (fun c => isDigit c || Ascii.eqb c ".") (drop sign rest) in
  let value := take (sign + digits) rest in
  Continue (addToken (setPosition st (start + sign + digits)) Tok.NUMBER
              (text value) (Some start)).

(** The segment read by [looksLikeCssSelector] and by the CSS branch of
    [tokenizeIdentifier]: from [start] up to the next pipe or the end. *)
Definition segmentLength (rest : list ascii) : nat :=
  spanLength (fun c => negb (Ascii.eqb c "|")) rest.

(** Rule 1: [/[.#\s>+~[\]:]/] *)
Definition isCssChar (c : ascii) : bool :=
  Ascii.eqb c "." || Ascii.eqb c "#" || isWhitespace c || Ascii.eqb c ">"
  || Ascii.eqb c "+" || Ascii.eqb c "~" || Ascii.eqb c "[" || Ascii.eqb c "]"
  || Ascii.eqb c ":".

(** Rule 2: [/^[a-zA-Z_][\w-]*$/] *)
Definition isSimpleWord (segment : list ascii) : bool :=
  match segment with
  | c :: r =>
      (isAlpha c || Ascii.eqb c "_")
      && forallb (fun c => isWordChar c || Ascii.eqb c "-") r
  | [] => false
  end.

Definition looksLikeCssSelector (input : list ascii) (st : state)
    (scanStartPos : nat) : bool :=
  let rest := drop scanStartPos input in
  let segment := trim (take (segmentLength rest) rest) in
  match segment with
  | [] => false
  | _ =>
      if existsb isCssChar segment then true
      else if isSimpleWord segment then
        match tokens st with
        | [] => true
        | _ => false
        end
      else false
  end.

(** The first "word": alphanumerics, [_] and [-], with [.] or [#] allowed at
    the first position only. *)
Definition wordLength (rest : list ascii) : nat :=
  let body := fun c => isAlphaNumeric c || Ascii.eqb c "_" || Ascii.eqb c "-" in
  match rest with
  | c :: r =>
      if body c || Ascii.eqb c "." || Ascii.eqb c "#"
      then S (spanLength body r) else 0
  | [] => 0
  end.

Definition tokenizeIdentifier (input : list ascii) (st : state) : outcome :=
  let start := position st in
  let rest := drop start input in
  let n := wordLength rest in
  let value := take n rest in
  let st := setPosition st (start + n) in
  let peekPos := position st + spanLength isWhitespace (drop (position st) input) in
  let isCall :=
    match input !! peekPos with
    | Some c => Ascii.eqb c "("
    | None => false
    end in
  if isCall then
    Continue (addToken st Tok.FUNCTION_NAME (text value) (Some start))
  else if looksLikeCssSelector input st start then
    let len := segmentLength rest in
    let cssSegmentValue := trim (take len rest) in
    Continue (setPosition
                (addToken st Tok.CSS_SELECTOR (text cssSegmentValue) (Some start))
                (start + len))
  else
    Continue (addToken st Tok.PROPERTY (text value) (Some start)).

Definition finish (st : state) : outcome :=
  Finished (tokens (addToken st Tok.EOF "" None)).

Definition single (st : state) (type : Tok.TokenType) (char : ascii) : outcome :=
  Continue (advance (addToken st type (String char EmptyString) None)).

(** One turn of the [while] loop of [tokenize], the loop test included. *)
Definition step (input : list ascii) (st : state) : outcome :=
  if position st <? List.length input then
    let st := skipWhitespace input st in
    match input !! position st with
    | None => finish st
    | Some char =>
        if Ascii.eqb char "|" then single st Tok.PIPE char
        else if Ascii.eqb char "(" then single st Tok.OPEN_PAREN char
        else if Ascii.eqb char ")" then single st Tok.CLOSE_PAREN char
        else if Ascii.eqb char "[" then single st Tok.OPEN_BRACKET char
        else if Ascii.eqb char "]" then single st Tok.CLOSE_BRACKET char
        else if Ascii.eqb char "," then single st Tok.COMMA char
        else if Ascii.eqb char doubleQuote || Ascii.eqb char "'" then tokenizeString input st char
        else if isDigit char
                || (Ascii.eqb char "-"
                    && match input !! S (position st) with
                       | Some next => isDigit next
                       | None => false
                       end)
        then tokenizeNumber input st
        else if isAlpha char || Ascii.eqb char "_" || Ascii.eqb char "-"
                || Ascii.eqb char "." || Ascii.eqb char "#"
        then tokenizeIdentifier input st
        else Throw ("Unexpected character '" +:+ String char EmptyString
                    +:+ "' at position " +:+ showNat (position st))
    end
  else finish st.

(** The loop, bounded by [fuel] turns; [None] is "fuel ran out". *)
Fixpoint run (fuel : nat) (input : list ascii) (st : state)
    : option (string + list Tok.Token) :=
  match fuel with
  | 0 => None
  | S fuel' =>
      match step input st with
      | Continue st' => run fuel' input st'
      | Finished toks => Some (inr toks)
      | Throw message => Some (inl message)
      end
  end.

(** [new Tokenizer(input).tokenize()]: every continuing turn consumes at
    least one character, so [S (length input)] turns are enough
    (see [Tokenizer_terminates]). *)
Definition tokenize (input : string) : option (string + list Tok.Token) :=
  let input := trim (chars input) in
  run (S (List.length input)) input initial.

End Tokenizer.

(** ** JavaScript numbers and [parseInt] *)

Module Js.
Import Chars.

(** A number is NaN or an integer.  Every number the pipeline computes with
    (indices, counts, lengths, time-to-live) is one; fractional doubles and
    the infinities are not represented. *)
Inductive number :=
| NaN
| Finite (z : Z).

Definition isNaN (n : number) : bool :=
  match n with NaN => true | Finite _ => false end.

Definition isFinite (n : number) : bool :=
  match n with Finite _ => true | NaN => false end.

(** [a < b] and [a <= b] on numbers; any comparison with NaN is false. *)
Definition ltb (a b : number) : bool :=
  match a, b with
  | Finite x, Finite y => (x <? y)%Z
  | _, _ => false
  end.

Definition leb (a b : number) : bool :=
  match a, b with
  | Finite x, Finite y => (x <=? y)%Z
  | _, _ => false
  end.

(** [k + n] for an integer [k]. *)
Definition addZ (k : Z) (n : number) : number :=
  match n with
  | Finite z => Finite (k + z)
  | NaN => NaN
  end.

(** ToBoolean on numbers: [0] and NaN are falsy. *)
Definition truthyNumber (n : number) : bool :=
  match n with
  | NaN => false
  | Finite z => negb (z =? 0)%Z
  end.

Definition showNumber (n : number) : string :=
  match n with
  | NaN => "NaN"
  | Finite z => showZ z
  end.

Definition digitValue (c : ascii) : Z := Z.of_nat (code c - 48).

Definition digitsValue (ds : list ascii) : Z :=
  fold_left (fun acc c => (10 * acc + digitValue c)%Z) ds 0%Z.

(** The double nearest to an integer, ties going to the even significand:
    an integer of more than 53 bits keeps its 53 leading bits, rounded.
    Up to [2^53] in magnitude every integer is its own double.  (Past the
    largest double JavaScript has [Infinity], which numbers here do not
    have.) *)
Definition toDouble (z : Z) : Z :=
  let magnitude := Z.abs z in
  let dropped := (Z.log2 magnitude - 52)%Z in
  if (dropped <=? 0)%Z then z
  else
    let significand := Z.shiftr magnitude dropped in
    let remainder := (magnitude - Z.shiftl significand dropped)%Z in
    let half := Z.shiftl 1 (dropped - 1) in
    let roundUp := (half <? remainder)%Z || ((half =? remainder)%Z && Z.odd significand) in
    (Z.sgn z * Z.shiftl (if roundUp then significand + 1 else significand) dropped)%Z.

(** [Number.parseInt(s, 10)]: leading white space is skipped, one sign is
    read, then the longest run of decimal digits, whose value is rounded to
    a double; no digit gives NaN.  (Of a run of more than 20 significant
    digits the standard lets an implementation read those past the
    twentieth as zeros; here they are read as they stand.) *)
Definition parseInt (s : string) : number :=
  let body := trimStart (chars s) in
  let '(negative, body) :=
    match body with
    | c :: r =>
        if Ascii.eqb c "-" then (true, r)
        else if Ascii.eqb c "+" then (false, r)
        else (false, body)
    | [] => (false, body)
    end in
  let ds := take (spanLength isDigit body) body in
  match ds with
  | [] => NaN
  | _ => Finite (toDouble (if negative then - digitsValue ds else digitsValue ds))
  end.

(** ** JavaScript values *)

Inductive objectKind := PlainObject | ElementNode | DocumentNode.

(** Values are finite trees.  An object lists its own members in order; a
    function is known by its name.  [Obj ElementNode _] is an instance of
    [Element], [Obj DocumentNode _] of [Document]. *)
#[warnings="-register-all"]
Inductive value :=
| Undefined
| Null
| Bool (b : bool)
| Num (n : number)
| Str (s : string)
| Arr (items : list value)
| Obj (kind : objectKind) (members : list (string * value))
| Fun (name : string).

Inductive typeTag := TUndefined | TObject | TBoolean | TNumber | TString | TFunction.

Definition typeof (v : value) : typeTag :=
  match v with
  | Undefined => TUndefined
  | Null | Arr _ | Obj _ _ => TObject
  | Bool _ => TBoolean
  | Num _ => TNumber
  | Str _ => TString
  | Fun _ => TFunction
  end.

Definition typeofName (t : typeTag) : string :=
  match t with
  | TUndefined => "undefined" | TObject => "object" | TBoolean => "boolean"
  | TNumber => "number" | TString => "string" | TFunction => "function"
  end.

Definition isObjectType (v : value) : bool :=
  match typeof v with TObject => true | _ => false end.

Definition isFunctionType (v : value) : bool :=
  match typeof v with TFunction => true | _ => false end.

Definition isStringType (v : value) : bool :=
  match typeof v with TString => true | _ => false end.

(** ToBoolean *)
Definition truthy (v : value) : bool :=
  match v with
  | Undefined | Null => false
  | Bool b => b
  | Num n => truthyNumber n
  | Str s => negb (String.eqb s "")
  | Arr _ | Obj _ _ | Fun _ => true
  end.

(** [v === null] *)
Definition isNull (v : value) : bool :=
  match v with Null => true | _ => false end.

(** [v === undefined] *)
Definition isUndefined (v : value) : bool :=
  match v with Undefined => true | _ => false end.

(** [v === null || v === undefined] *)
Definition isNullish (v : value) : bool := isNull v || isUndefined v.

Definition isArray (v : value) : bool :=
  match v with Arr _ => true | _ => false end.

Definition isElement (v : value) : bool :=
  match v with Obj ElementNode _ => true | _ => false end.

Definition isDocument (v : value) : bool :=
  match v with Obj DocumentNode _ => true | _ => false end.

Fixpoint assoc (name : string) (members : list (string * value)) : option value :=
  match members with
  | (k, v) :: rest => if String.eqb k name then Some v else assoc name rest
  | [] => None
  end.

(** A canonical array index: decimal digits without a leading zero. *)
Definition arrayIndex (name : string) : option nat :=
  let ds := chars name in
  match ds with
  | [] => None
  | _ =>
      if forallb isDigit ds then
        let n := Z.to_nat (digitsValue ds) in
        if String.eqb (showNat n) name then Some n else None
      else None
  end.

(** The members a value has of its own. *)
Definition ownMember (v : value) (name : string) : option value :=
  match v with
  | Obj _ members => assoc name members
  | Arr items =>
      if String.eqb name "length" then Some (Num (Finite (Z.of_nat (List.length items))))
      else match arrayIndex name with
           | Some i => items !! i
           | None => None
           end
  | Str s =>
      if String.eqb name "length" then Some (Num (Finite (Z.of_nat (String.length s))))
      else match arrayIndex name with
           | Some i => (fun c => Str (String c EmptyString)) <$> (chars s !! i)
           | None => None
           end
  | _ => None
  end.

(** [String.prototype.includes] *)
Fixpoint includes (s sub : string) : bool :=
  String.prefix sub s ||
  match s with
  | String _ rest => includes rest sub
  | EmptyString => false
  end.

End Js.

(** ** Commands (src/types) *)

Module Ast.

#[warnings="-register-all"]
Inductive Command :=
| CssSelector (selector : string)
| FunctionCall (name : string) (args : list string)
| Property (name : string)
| ArrayAccess (index : Z)
| Pipe (name : string) (commands : list Command).

(** The [name] field every command carries; the parser fixes it for the
    CSS and index variants. *)
Definition commandName (c : Command) : string :=
  match c with
  | CssSelector _ => "css-selector"
  | FunctionCall name _ => name
  | Property name => name
  | ArrayAccess _ => "array-access"
  | Pipe name _ => name
  end.

Record ParseResult := mkParseResult {
  commands : list Command;
  isValid : bool;
  errors : list string
}.

End Ast.

(** ** Parser (src/parser/parser.ts) *)

Module Parser.
Import Ast.

(** A parser action reads [this.tokens] and threads [this.position]; it
    returns, throws, or runs out of loop fuel. *)
Inductive result (A : Type) :=
| Ok (a : A) (position : nat)
| Err (message : string)
| OutOfFuel.
Arguments Ok {A} a position.
Arguments Err {A} message.
Arguments OutOfFuel {A}.

Definition action (A : Type) := list Tok.Token -> nat -> result A.

Definition ret {A} (a : A) : action A := fun _ pos => Ok a pos.
Definition throw {A} (message : string) : action A := fun _ _ => Err message.
Definition bind {A B} (m : action A) (k : A -> action B) : action B :=
  fun toks pos =>
    match m toks pos with
    | Ok a pos' => k a toks pos'
    | Err message => Err message
    | OutOfFuel => OutOfFuel
    end.

Notation "x <- m ;; k" := (bind m (fun x => k))
  (at level 100, m at next level, right associativity).
Notation "m ;;; k" := (bind m (fun _ => k))
  (at level 100, right associativity).

(** Reading a field of [undefined] raises a TypeError; the text is V8's. *)
Definition undefinedToken {A} (field : string) : action A :=
  throw ("Cannot read properties of undefined (reading '" +:+ field +:+ "')").

(** [this.peek()] followed by a field read. *)
Definition peek : action Tok.Token :=
  fun toks pos =>
    match toks !! pos with
    | Some t => Ok t pos
    | None => undefinedToken "type" toks pos
    end.

Definition isAtEnd : action bool :=
  fun toks pos =>
    if List.length toks <=? pos then Ok true pos
    else match toks !! pos with
         | Some t => Ok (Tok.type_eqb (Tok.type t) Tok.EOF) pos
         | None => undefinedToken "type" toks pos
         end.

Definition matches (type : Tok.TokenType) : action bool :=
  t <- peek ;; ret (Tok.type_eqb (Tok.type t) type).

(** [this.advance()] used for the token it returns: [previous()] is
    [tokens[position - 1]]. *)
Definition advance : action Tok.Token :=
  atEnd <- isAtEnd ;;
  fun toks pos =>
    let pos' := if atEnd then pos else S pos in
    match pos' with
    | S p =>
        match toks !! p with
        | Some t => Ok t pos'
        | None => undefinedToken "value" toks pos'
        end
    | O => undefinedToken "value" toks pos'
    end.

(** [this.advance()] used as a statement: the result is dropped. *)
Definition skip : action unit :=
  atEnd <- isAtEnd ;;
  fun _ pos => Ok tt (if atEnd then pos else S pos).

Definition parseCssSelector : action Command :=
  token <- advance ;; ret (CssSelector (Tok.value token)).

Definition parseProperty : action Command :=
  token <- advance ;; ret (Property (Tok.value token)).

Definition parseArgument : action string :=
  token <- peek ;;
  match Tok.type token with
  | Tok.STRING | Tok.NUMBER | Tok.PROPERTY =>
      t <- advance ;; ret (Tok.value t)
  | other =>
      throw ("Expected string, number, or identifier as argument, got "
             +:+ Tok.typeName other)
  end.

(** The argument loop of [parseFunction]. *)
Fixpoint parseArguments (fuel : nat) (args : list string) : action (list string) :=
  match fuel with
  | 0 => fun _ _ => OutOfFuel
  | S fuel' =>
      closing <- matches Tok.CLOSE_PAREN ;;
      atEnd <- isAtEnd ;;
      if negb closing && negb atEnd then
        arg <- parseArgument ;;
        comma <- matches Tok.COMMA ;;
        if comma then skip ;;; parseArguments fuel' (args ++ [arg])
        else
          closing' <- matches Tok.CLOSE_PAREN ;;
          if negb closing' then throw "Expected ',' or ')' in function arguments"
          else parseArguments fuel' (args ++ [arg])
      else ret args
  end.

Definition parseFunction (fuel : nat) : action Command :=
  nameToken <- advance ;;
  opening <- matches Tok.OPEN_PAREN ;;
  if negb opening then
    throw ("Expected '(' after function name '" +:+ Tok.value nameToken +:+ "'")
  else
    skip ;;;
    args <- parseArguments fuel [] ;;
    closing <- matches Tok.CLOSE_PAREN ;;
    if negb closing then throw "Expected ')' to close function call"
    else skip ;;; ret (FunctionCall (Tok.value nameToken) args).

Definition parseArrayAccess : action Command :=
  skip ;;;
  isNumber <- matches Tok.NUMBER ;;
  if negb isNumber then throw "Expected number in array access"
  else
    indexToken <- advance ;;
    match Js.parseInt (Tok.value indexToken) with
    | Js.Finite index =>
        closing <- matches Tok.CLOSE_BRACKET ;;
        if negb closing then throw "Expected ']' to close array access"
        else skip ;;; ret (ArrayAccess index)
    | _ =>
        throw ("Invalid number in array access: " +:+ Tok.value indexToken)
    end.

Definition parseCommand (fuel : nat) : action Command :=
  token <- peek ;;
  match Tok.type token with
  | Tok.CSS_SELECTOR => parseCssSelector
  | Tok.FUNCTION_NAME => parseFunction fuel
  | Tok.PROPERTY => parseProperty
  | Tok.OPEN_BRACKET => parseArrayAccess
  | other =>
      throw ("Unexpected token: " +:+ Tok.typeName other +:+ " at position "
             +:+ Chars.showZ (Tok.position token))
  end.

Fixpoint parseCommands (fuel : nat) (commands : list Command)
    : action (list Command) :=
  match fuel with
  | 0 => fun _ _ => OutOfFuel
  | S fuel' =>
      atEnd <- isAtEnd ;;
      if atEnd then ret commands
      else
        command <- parseCommand fuel' ;;
        pipe <- matches Tok.PIPE ;;
        (if pipe then skip else ret tt) ;;;
        parseCommands fuel' (commands ++ [command])
  end.

(** [Parser.parse]: the [try]/[catch] turns every throw of the tokenizer or
    of the parser into an invalid result.  [None] stands for a loop that
    ran out of fuel; [Parser_parse_total] shows it never happens. *)
Definition parse (input : string) : option ParseResult :=
  match Tokenizer.tokenize input with
  | None => None
  | Some (inl message) =>
      Some {| commands := []; isValid := false; errors := [message] |}
  | Some (inr toks) =>
      match parseCommands (S (List.length toks)) [] toks 0 with
      | Ok commands _ =>
          Some {| commands := commands; isValid := true; errors := [] |}
      | Err message =>
          Some {| commands := []; isValid := false; errors := [message] |}
      | OutOfFuel => None
      end
  end.

End Parser.

(** ** Errors (src/core/errors.ts) *)

Module Errors.

Inductive ErrorCode :=
| PARSE_ERROR | EXECUTION_ERROR | VALIDATION_ERROR | TIMEOUT_ERROR | PLUGIN_ERROR.

(** A [SuperSelectorErrorImpl].  The [context] field, a reference back to
    the live execution context, is left out; the subclass and the [name]
    field are determined by [code]. *)
Record SuperSelectorError := mkError {
  code : ErrorCode;
  message : string;
  command : option Ast.Command
}.

Module ErrorFactory.

Definition parse (message : string) : SuperSelectorError :=
  {| code := PARSE_ERROR; message := message; command := None |}.

Definition execution (message : string) (command : option Ast.Command)
    : SuperSelectorError :=
  {| code := EXECUTION_ERROR; message := message; command := command |}.

Definition validation (message : string) : SuperSelectorError :=
  {| code := VALIDATION_ERROR; message := message; command := None |}.

Definition timeout (ms : Z) : SuperSelectorError :=
  {| code := TIMEOUT_ERROR;
     message := "Operation timed out after " +:+ Chars.showZ ms +:+ "ms";
     command := None |}.

Definition plugin (message pluginName : string) : SuperSelectorError :=
  {| code := PLUGIN_ERROR;
     message := "Plugin '" +:+ pluginName +:+ "': " +:+ message;
     command := None |}.

End ErrorFactory.

(** What a [throw] carries: one of the errors above, or anything else,
    kept as the text [error instanceof Error ? error.message : String(error)]
    reads from it. *)
Inductive thrown :=
| Raised (e : SuperSelectorError)
| RaisedOther (text : string).

Definition thrownMessage (t : thrown) : string :=
  match t with
  | Raised e => message e
  | RaisedOther text => text
  end.

(** [error instanceof TimeoutError] *)
Definition isTimeout (t : thrown) : bool :=
  match t with
  | Raised e => match code e with TIMEOUT_ERROR => true | _ => false end
  | RaisedOther _ => false
  end.

End Errors.

(** ** Configuration, execution context, handlers (src/types) *)

Module Types.
Import Js Errors.

Inductive ErrorHandling := ThrowMode | ReturnNull | ReturnDefault.

(** [plugins] and [customCommands] are read at start-up only and are left
    out. *)
Record SuperSelectorConfig := mkConfig {
  debug : bool;
  timeout : Z;
  maxDepth : Z;
  cacheEnabled : bool;
  cacheTTL : number;
  errorHandling : ErrorHandling;
  defaultValue : value
}.

(** The context object handlers mutate; a handler returns the context it
    leaves behind.  The free-form [metadata] bag is left out. *)
Record ExecutionContext := mkContext {
  element : value;
  currentValue : value;
  config : SuperSelectorConfig;
  hadSoftError : bool;
  softError : option SuperSelectorError
}.

Inductive completion :=
| Return (v : value)
| Throw (t : thrown).

(** [validate] is handler code like [execute]: it answers, or it throws. *)
Record CommandHandler := mkHandler {
  execute : ExecutionContext -> list value -> ExecutionContext * completion;
  validate : option (list value -> thrown + bool)
}.

Record ExecutionMetadata := mkMetadata {
  commandsExecuted : nat;
  cacheHit : bool
}.

(** [executionTime], a difference of two clock readings, is left out of the
    metadata. *)
Record ExecutionResult := mkResult {
  success : bool;
  value : Js.value;
  error : option SuperSelectorError;
  metadata : ExecutionMetadata
}.

Definition setCurrentValue (ctx : ExecutionContext) (v : Js.value) : ExecutionContext :=
  {| element := element ctx; currentValue := v; config := config ctx;
     hadSoftError := hadSoftError ctx; softError := softError ctx |}.

(** [context.hadSoftError = true; context.softError = err] *)
Definition setSoftError (ctx : ExecutionContext) (err : SuperSelectorError)
    : ExecutionContext :=
  {| element := element ctx; currentValue := currentValue ctx;
     config := config ctx; hadSoftError := true; softError := Some err |}.

(** [if (!context.hadSoftError) { context.hadSoftError = true; context.softError = err }] *)
Definition recordFirst (ctx : ExecutionContext) (err : SuperSelectorError)
    : ExecutionContext :=
  if hadSoftError ctx then ctx else setSoftError ctx err.

(** [errorHandling === "return-default" ? defaultValue : null] *)
Definition fallbackValue (ctx : ExecutionContext) : Js.value :=
  match errorHandling (config ctx) with
  | ReturnDefault => defaultValue (config ctx)
  | _ => Null
  end.

(** [throw err || context.softError], where [err] was assigned only if no
    soft error had been recorded before. *)
Definition thrownFault (before : ExecutionContext) (err : SuperSelectorError) : thrown :=
  if hadSoftError before then
    match softError before with
    | Some first => Raised first
    | None => RaisedOther "undefined"
    end
  else Raised err.

(** The fault idiom of the built-ins and of the engine:
[[
    if (!context.hadSoftError) { hadSoftError = true; err = ...; softError = err }
    if (errorHandling === "throw") throw err || context.softError
    return errorHandling === "return-default" ? defaultValue : null
]] *)
Definition fault (ctx : ExecutionContext) (err : SuperSelectorError)
    : ExecutionContext * completion :=
  let ctx' := recordFirst ctx err in
  match errorHandling (config ctx) with
  | ThrowMode => (ctx', Throw (thrownFault ctx err))
  | _ => (ctx', Return (fallbackValue ctx))
  end.

End Types.

(** ** The host runtime

    What the engine takes from the JavaScript runtime and the DOM rather
    than computing itself. *)

Class Runtime := {
  (** [Number(text)]; NaN also stands for an infinite result, which the one
      caller treats alike *)
  toNumber : string -> Js.number;
  (** the member of that name found along the prototype chain of a value:
      [Array.prototype.join], [String.prototype.trim], ... *)
  inherited : Js.value -> string -> option Js.value;
  (** a call of the function named [f] on a receiver with arguments: the
      value returned, or the text of what it threw *)
  call : string -> Js.value -> list Js.value -> string + Js.value;
  (** [node.querySelectorAll(selector)]: the matches, or the text of the
      exception an invalid selector raises *)
  querySelectorAll : Js.value -> string -> string + list Js.value;
  (** [new RegExp(pattern)]: the [test] of the compiled pattern, or [None]
      where the constructor throws *)
  regExp : string -> option (string -> bool);
  (** [String.prototype.toLowerCase] *)
  toLowerCase : string -> string;
  (** the global [document] *)
  document : Js.value;
  (** [JSON.stringify] of a command list, which is plain data *)
  stringifyCommands : list Ast.Command -> string;
  (** [JSON.stringify] of an argument list: the text, or the text of what
      it threw (a [toJSON] member that throws, say) *)
  stringifyArgs : list Js.value -> string + string
}.

(** ** Cache (src/core/cache.ts) *)

Module Cache.
Import Js.

Record CacheEntry := mkEntry {
  value : Js.value;
  timestamp : Z;
  ttl : number;
  hits : nat
}.

Record t := mkCache {
  store : gmap string CacheEntry;
  defaultTTL : number
}.

Definition builtinTTL : number := Finite 60000.

(** [new Cache(defaultTTL?)] *)
Definition create (defaultTTL : option number) : t :=
  {| store := ∅;
     defaultTTL :=
       match defaultTTL with
       | Some ttl => if truthyNumber ttl then ttl else builtinTTL
       | None => builtinTTL
       end |}.

(** [set(key, value, ttl?)] at clock reading [now] *)
Definition set (c : t) (key : string) (value : Js.value) (ttl : option number)
    (now : Z) : t :=
  let entry :=
    {| value := value;
       timestamp := now;
       ttl := match ttl with
              | Some ttl => if truthyNumber ttl then ttl else defaultTTL c
              | None => defaultTTL c
              end;
       hits := 0 |} in
  {| store := <[key := entry]> (store c); defaultTTL := defaultTTL c |}.

(** [Date.now() - entry.timestamp > entry.ttl] *)
Definition expired (entry : CacheEntry) (now : Z) : bool :=
  ltb (ttl entry) (Finite (now - timestamp entry)).

(** [get(key)] at clock reading [now]; [Null] for "absent" and for
    "expired". *)
Definition get (c : t) (key : string) (now : Z) : t * Js.value :=
  match store c !! key with
  | None => (c, Null)
  | Some entry =>
      if expired entry now then
        ({| store := delete key (store c); defaultTTL := defaultTTL c |}, Null)
      else
        let entry' := {| value := value entry; timestamp := timestamp entry;
                         ttl := ttl entry; hits := S (hits entry) |} in
        ({| store := <[key := entry']> (store c); defaultTTL := defaultTTL c |},
         value entry)
  end.

Definition has (c : t) (key : string) (now : Z) : t * bool :=
  match store c !! key with
  | None => (c, false)
  | Some entry =>
      if expired entry now then
        ({| store := delete key (store c); defaultTTL := defaultTTL c |}, false)
      else (c, true)
  end.

Definition clear (c : t) : t := {| store := ∅; defaultTTL := defaultTTL c |}.

Definition size (c : t) : nat := base.size (store c).

Definition cleanup (c : t) (now : Z) : t :=
  {| store := filter (fun kv => expired (snd kv) now = false) (store c);
     defaultTTL := defaultTTL c |}.

(** [delete(key)]: whether an entry was stored under [key], expired or
    not. *)
Definition delete (c : t) (key : string) : t * bool :=
  ({| store := base.delete key (store c); defaultTTL := defaultTTL c |},
   bool_decide (is_Some (store c !! key))).

End Cache.

(** ** Command registry (src/commands/registry.ts) *)

Module Registry.
Import Js Errors Types.

Definition register (reg : gmap string CommandHandler) (name : string)
    (handler : CommandHandler) : gmap string CommandHandler :=
  <[name := handler]> reg.


Definition has (reg : gmap string CommandHandler) (name : string) : bool :=
  bool_decide (is_Some (reg !! name)).

Definition clear : gmap string CommandHandler := ∅.

Section WithRuntime.
Context `{Runtime}.

(** [handler.validate && !handler.validate(args)], which stands outside the
    [try]: what the validator throws is [inl]. *)
Definition rejects (handler : CommandHandler) (args : list Js.value) : thrown + bool :=
  match Types.validate handler with
  | Some validate =>
      match validate args with
      | inl t => inl t
      | inr accepted => inr (negb accepted)
      end
  | None => inr false
  end.

(** [CommandRegistry.execute]: look up, validate, run, and wrap whatever the
    handler's [execute] throws in an execution error.  What its [validate]
    throws leaves as it is. *)
Definition execute (reg : gmap string CommandHandler) (name : string)
    (ctx : ExecutionContext) (args : list Js.value) : ExecutionContext * completion :=
  match reg !! name with
  | None =>
      (ctx, Throw (Raised (ErrorFactory.execution ("Unknown command: " +:+ name) None)))
  | Some handler =>
      match rejects handler args with
      | inl t => (ctx, Throw t)
      | inr true =>
          match stringifyArgs args with
          | inl text => (ctx, Throw (RaisedOther text))
          | inr json =>
              (ctx, Throw (Raised (ErrorFactory.validation
                 ("Invalid arguments for command '" +:+ name +:+ "': " +:+ json))))
          end
      | inr false =>
          match Types.execute handler ctx args with
          | (ctx', Return v) => (ctx', Return v)
          | (ctx', Throw t) =>
              (ctx', Throw (Raised (ErrorFactory.execution
                 ("Error executing command '" +:+ name +:+ "': " +:+ thrownMessage t) None)))
          end
      end
  end.

End WithRuntime.
End Registry.

(** ** Built-in commands (src/commands/built-in.ts) *)

Module BuiltIn.
Import Js Errors Types.

Section WithRuntime.
Context `{Runtime}.

(** A member of [v], its own or inherited. *)
Definition member (v : Js.value) (name : string) : option Js.value :=
  match ownMember v name with
  | Some x => Some x
  | None => inherited v name
  end.

(** [name in v] *)
Definition hasMember (v : Js.value) (name : string) : bool :=
  match member v name with Some _ => true | None => false end.

(** [v[name]] *)
Definition getMember (v : Js.value) (name : string) : Js.value :=
  match member v name with Some x => x | None => Undefined end.

(** [item && typeof item === "object" && propertyName in item] *)
Definition bears (item : Js.value) (propertyName : string) : bool :=
  truthy item && isObjectType item && hasMember item propertyName.

(** The loop of the array branch of [cssSelectorCommand]. *)
Fixpoint queryEach (items : list Js.value) (selector : string)
    (results : list Js.value) : string + list Js.value :=
  match items with
  | [] => inr results
  | item :: rest =>
      if isElement item then
        match querySelectorAll item selector with
        | inl text => inl text
        | inr elements => queryEach rest selector (results ++ elements)
        end
      else queryEach rest selector results
  end.

Definition cssSelectorExecute (ctx : ExecutionContext) (selector : string)
    : ExecutionContext * completion :=
  let currentValue := currentValue ctx in
  if isElement currentValue || isDocument currentValue then
    match querySelectorAll currentValue selector with
    | inl text => (ctx, Throw (RaisedOther text))
    | inr [] => (ctx, Return Null)
    | inr [only] => (ctx, Return only)
    | inr elements => (ctx, Return (Arr elements))
    end
  else
    match currentValue with
    | Arr items =>
        match queryEach items selector [] with
        | inl text => (ctx, Throw (RaisedOther text))
        | inr [] => (ctx, Return Null)
        | inr results => (ctx, Return (Arr results))
        end
    | _ => (ctx, Return Null)
    end.

(** What the array branch of [propertyCommand] pushes for one item. *)
Definition mapItem (propertyName : string) (item : Js.value) : Js.value :=
  if bears item propertyName then getMember item propertyName else Null.

(** Whether the item sets [itemHadError]. *)
Definition itemFails (propertyName : string) (item : Js.value) : bool :=
  negb (bears item propertyName) && negb (isNullish item).

Definition propertyExecute (ctx : ExecutionContext) (propertyName : string)
    : ExecutionContext * completion :=
  match currentValue ctx with
  | Null | Undefined =>
      fault ctx (ErrorFactory.execution
        ("Cannot access property '" +:+ propertyName +:+ "' on null or undefined value") None)
  | Arr items =>
      let results := map (mapItem propertyName) items in
      let itemHadError := existsb (itemFails propertyName) items in
      let ctx' :=
        if itemHadError then
          recordFirst ctx (ErrorFactory.execution
            ("Property '" +:+ propertyName +:+ "' not found on one or more items in array") None)
        else ctx in
      if forallb isNull results && (0 <? List.length items) then (ctx', Return Null)
      else if 0 <? List.length results then (ctx', Return (Arr results))
      else (ctx', Return Null)
  | currentValue =>
      if bears currentValue propertyName then
        (ctx, Return (getMember currentValue propertyName))
      else if truthy currentValue && (isObjectType currentValue || isFunctionType currentValue) then
        fault ctx (ErrorFactory.execution
          ("Property '" +:+ propertyName +:+ "' not found on target object.") None)
      else
        (recordFirst ctx (ErrorFactory.execution
           ("Property '" +:+ propertyName +:+ "' could not be accessed.") None),
         Return (fallbackValue ctx))
  end.

Definition arrayAccessExecute (ctx : ExecutionContext) (index : number)
    : ExecutionContext * completion :=
  match currentValue ctx with
  | Arr items =>
      let len := Z.of_nat (List.length items) in
      let actualIndex := if ltb index (Finite 0) then addZ len index else index in
      if leb (Finite 0) actualIndex && ltb actualIndex (Finite len) then
        match actualIndex with
        | Finite i => (ctx, Return (default Undefined (items !! Z.to_nat i)))
        | NaN => (ctx, Return Undefined)
        end
      else
        fault ctx (ErrorFactory.execution
          ("Index " +:+ showNumber index +:+ " out of bounds for array of length "
           +:+ Chars.showZ len) None)
  | other =>
      fault ctx (ErrorFactory.execution
        ("Cannot apply array access to non-array type: " +:+ typeofName (typeof other)) None)
  end.

(** The [for] loop of [recursivePropCommand]: [steps] turns are left and
    [i] have been made.  [inl] is the value reached, [inr] the 1-based depth
    at which the path broke. *)
Fixpoint descend (steps : nat) (i : Z) (propertyName : string) (current : Js.value)
    : Js.value + Z :=
  match steps with
  | 0 => inl current
  | S steps' =>
      if bears current propertyName
      then descend steps' (i + 1) propertyName (getMember current propertyName)
      else inr (i + 1)%Z
  end.

(** [times] is a string, a number, or left out (then [1]). *)
Definition recursivePropExecute (ctx : ExecutionContext) (propertyName : string)
    (times : string + number) : ExecutionContext * completion :=
  let numTimes := match times with inl text => parseInt text | inr n => n end in
  if isNaN numTimes || leb numTimes (Finite 0) then (ctx, Return (currentValue ctx))
  else
    let steps := match numTimes with Finite z => Z.to_nat z | NaN => 0 end in
    match descend steps 0 propertyName (currentValue ctx) with
    | inl current => (ctx, Return current)
    | inr depth =>
        fault ctx (ErrorFactory.execution
          ("Recursive property '" +:+ propertyName +:+ "' access failed at depth "
           +:+ Chars.showZ depth) None)
    end.

(** [checkItem] of the three filter commands, for a predicate on the
    property's string value. *)
Definition checkItem (test : string -> bool) (propertyName : string) (item : Js.value)
    : Js.value :=
  if bears item propertyName then
    match getMember item propertyName with
    | Str propValue => if test propValue then item else Null
    | _ => Null
    end
  else Null.

Definition hasStringProperty (propertyName : string) (item : Js.value) : bool :=
  bears item propertyName && isStringType (getMember item propertyName).

(** The body shared, word for word but for the command's name in the two
    messages, by [propIncludes], [propIncludesLowercase] and [matchProp]. *)
Definition filterExecute (commandLabel : string) (test : string -> bool)
    (ctx : ExecutionContext) (propertyName : string) : ExecutionContext * completion :=
  match currentValue ctx with
  | Arr items =>
      let results :=
        List.filter (fun r => negb (isNull r)) (map (checkItem test propertyName) items) in
      let ctx' :=
        if (List.length results =? 0) && (0 <? List.length items)
           && negb (existsb (hasStringProperty propertyName) items)
        then recordFirst ctx (ErrorFactory.execution
               ("Property '" +:+ propertyName +:+ "' for '" +:+ commandLabel
                +:+ "' was not a string or not found on items.") None)
        else ctx in
      (ctx', Return (if 0 <? List.length results then Arr results else Null))
  | currentValue =>
      let result := checkItem test propertyName currentValue in
      if negb (truthy result) && truthy currentValue && isObjectType currentValue
         && (negb (hasMember currentValue propertyName)
             || negb (isStringType (getMember currentValue propertyName)))
      then fault ctx (ErrorFactory.execution
             ("Property '" +:+ propertyName +:+ "' for '" +:+ commandLabel
              +:+ "' was not a string or not found.") None)
      else (ctx, Return result)
  end.

Definition propIncludesExecute (ctx : ExecutionContext)
    (propertyName searchString : string) : ExecutionContext * completion :=
  filterExecute "propIncludes" (fun propValue => includes propValue searchString)
    ctx propertyName.

Definition propIncludesLowercaseExecute (ctx : ExecutionContext)
    (propertyName searchString : string) : ExecutionContext * completion :=
  let lowerSearchString := toLowerCase searchString in
  filterExecute "propIncludesLowercase"
    (fun propValue => includes (toLowerCase propValue) lowerSearchString)
    ctx propertyName.

Definition matchPropExecute (ctx : ExecutionContext)
    (propertyName regexPattern : string) : ExecutionContext * completion :=
  match regExp regexPattern with
  | None =>
      let errRegex := ErrorFactory.validation ("Invalid regex pattern: " +:+ regexPattern) in
      match errorHandling (config ctx) with
      | ThrowMode => (ctx, Throw (Raised errRegex))
      | _ => (recordFirst ctx errRegex, Return (fallbackValue ctx))
      end
  | Some test => filterExecute "matchProp" test ctx propertyName
  end.

(** Handlers receive [...args] untyped.  Each [validate] admits exactly the
    argument shapes its [execute] decodes, and [CommandRegistry.execute]
    runs [validate] first, so the last arm of a decoder is never reached
    through the registry. *)
Definition illTyped (ctx : ExecutionContext) : ExecutionContext * completion :=
  (ctx, Throw (RaisedOther "TypeError")).

Definition oneString (args : list Js.value) : bool :=
  match args with [Str _] => true | _ => false end.

Definition twoStrings (args : list Js.value) : bool :=
  match args with [Str _; Str _] => true | _ => false end.

(** A validator that only inspects its arguments: it answers always. *)
Definition answers (check : list Js.value -> bool) : list Js.value -> thrown + bool :=
  fun args => inr (check args).

Definition cssSelectorCommand : CommandHandler :=
  {| execute := fun ctx args =>
       match args with
       | [Str selector] => cssSelectorExecute ctx selector
       | _ => illTyped ctx
       end;
     validate := Some (answers oneString) |}.

Definition propertyCommand : CommandHandler :=
  {| execute := fun ctx args =>
       match args with
       | [Str propertyName] => propertyExecute ctx propertyName
       | _ => illTyped ctx
       end;
     validate := Some (answers oneString) |}.

Definition arrayAccessCommand : CommandHandler :=
  {| execute := fun ctx args =>
       match args with
       | [Num index] => arrayAccessExecute ctx index
       | _ => illTyped ctx
       end;
     validate :=
       Some (answers (fun args => match args with [Num _] => true | _ => false end)) |}.

(** [getProp] calls [propertyCommand.execute] directly. *)
Definition getPropCommand : CommandHandler :=
  {| execute := fun ctx args =>
       match args with
       | [Str propertyName] => execute propertyCommand ctx [Str propertyName]
       | _ => illTyped ctx
       end;
     validate := Some (answers oneString) |}.

Definition recursivePropCommand : CommandHandler :=
  {| execute := fun ctx args =>
       match args with
       | [Str propertyName] => recursivePropExecute ctx propertyName (inr (Finite 1))
       | [Str propertyName; Str times] => recursivePropExecute ctx propertyName (inl times)
       | [Str propertyName; Num times] => recursivePropExecute ctx propertyName (inr times)
       | _ => illTyped ctx
       end;
     validate := Some (answers (fun args =>
       match args with
       | [Str _] | [Str _; Str _] | [Str _; Num _] => true
       | _ => false
       end)) |}.

Definition propIncludesCommand : CommandHandler :=
  {| execute := fun ctx args =>
       match args with
       | [Str propertyName; Str searchString] =>
           propIncludesExecute ctx propertyName searchString
       | _ => illTyped ctx
       end;
     validate := Some (answers twoStrings) |}.

Definition propIncludesLowercaseCommand : CommandHandler :=
  {| execute := fun ctx args =>
       match args with
       | [Str propertyName; Str searchString] =>
           propIncludesLowercaseExecute ctx propertyName searchString
       | _ => illTyped ctx
       end;
     validate := Some (answers twoStrings) |}.

Definition matchPropCommand : CommandHandler :=
  {| execute := fun ctx args =>
       match args with
       | [Str propertyName; Str regexPattern] =>
           matchPropExecute ctx propertyName regexPattern
       | _ => illTyped ctx
       end;
     validate := Some (answers twoStrings) |}.

(** The registry [registerBuiltInCommands] leaves behind. *)
Definition registerBuiltInCommands : gmap string CommandHandler :=
  let reg := Registry.clear in
  let reg := Registry.register reg "css-selector" cssSelectorCommand in
  let reg := Registry.register reg "property" propertyCommand in
  let reg := Registry.register reg "array-access" arrayAccessCommand in
  let reg := Registry.register reg "getProp" getPropCommand in
  let reg := Registry.register reg "p" getPropCommand in
  let reg := Registry.register reg "recursiveProp" recursivePropCommand in
  let reg := Registry.register reg "propIncludes" propIncludesCommand in
  let reg := Registry.register reg "propIncludesLowercase" propIncludesLowercaseCommand in
  Registry.register reg "matchProp" matchPropCommand.

End WithRuntime.
End BuiltIn.

(** ** Execution engine (src/core/execution-engine.ts) *)

Module Engine.
Import Js Errors Types.

(** The engine's own fields.  The event emitter only notifies listeners,
    whose exceptions it swallows, and the logger only prints: neither is
    modelled. *)
Record t := mkEngine {
  cache : Cache.t;
  executionDepth : Z
}.

Section WithRuntime.
Context `{Runtime}.

Definition isNativeMethod (value : Js.value) (methodName : string) : bool :=
  if isNullish value || (negb (isObjectType value) && negb (isFunctionType value))
  then false
  else match BuiltIn.getMember value methodName with
       | Fun _ => true
       | _ => false
       end.

(** The argument conversion of [executeNativeMethod]. *)
Definition convertArg (arg : string) : Js.value :=
  if String.eqb arg "true" then Bool true
  else if String.eqb arg "false" then Bool false
  else
    let num := toNumber arg in
    if negb (isNaN num) && isFinite num
       && negb (String.eqb (Chars.text (Chars.trim (Chars.chars arg))) "")
    then Num num
    else Str arg.

Definition executeNativeMethod (value : Js.value) (methodName : string)
    (args : list string) : completion :=
  let convertedArgs := map convertArg args in
  let outcome :=
    match BuiltIn.getMember value methodName with
    | Fun f => call f value convertedArgs
    | _ => inl "value[methodName] is not a function"
    end in
  match outcome with
  | inr result => Return result
  | inl text =>
      Throw (Raised (ErrorFactory.execution
        ("Error calling native method '" +:+ methodName +:+ "': " +:+ text) None))
  end.

Definition executeCommand (reg : gmap string CommandHandler) (command : Ast.Command)
    (ctx : ExecutionContext) : ExecutionContext * completion :=
  match command with
  | Ast.CssSelector selector =>
      Registry.execute reg "css-selector" ctx [Str selector]
  | Ast.FunctionCall name args =>
      if isNullish (currentValue ctx) then
        fault ctx (ErrorFactory.execution
          ("Cannot call method '" +:+ name +:+ "' on null or undefined value")
          (Some command))
      else if isNativeMethod (currentValue ctx) name then
        (ctx, executeNativeMethod (currentValue ctx) name args)
      else if Registry.has reg name then
        Registry.execute reg name ctx (map Str args)
      else
        fault ctx (ErrorFactory.execution
          ("Unknown method or command: " +:+ name) (Some command))
  | Ast.Property name =>
      Registry.execute reg "property" ctx [Str name]
  | Ast.ArrayAccess index =>
      Registry.execute reg "array-access" ctx [Num (Finite index)]
  | Ast.Pipe _ _ =>
      (ctx, Throw (Raised (ErrorFactory.execution "Unknown command type: pipe" None)))
  end.

(** The [for] loop of [executeCommands].  [commands] are the stages still
    to run; [i < commands.length - 1] says that the stage at hand is not the
    last, that is, that others follow it. *)
Fixpoint runCommands (reg : gmap string CommandHandler) (commands : list Ast.Command)
    (ctx : ExecutionContext) (currentValue : Js.value) : ExecutionContext * completion :=
  match commands with
  | [] => (ctx, Return currentValue)
  | command :: rest =>
      let ctx := setCurrentValue ctx currentValue in
      match executeCommand reg command ctx with
      | (ctx, Throw t) => (ctx, Throw t)
      | (ctx, Return currentValue) =>
          let notLast := match rest with [] => false | _ => true end in
          if isUndefined currentValue && negb (hadSoftError ctx) && notLast then
            let err := ErrorFactory.execution
              ("Command '" +:+ Ast.commandName command
               +:+ "' resulted in undefined, breaking execution chain.")
              (Some command) in
            match errorHandling (config ctx) with
            | ThrowMode => (ctx, Throw (Raised err))
            | _ => runCommands reg rest (setSoftError ctx err) (fallbackValue ctx)
            end
          else runCommands reg rest ctx currentValue
      end
  end.

(** [executeCommands]: the depth guard, then the loop between
    [executionDepth++] and the [finally] that undoes it. *)
Definition executeCommands (reg : gmap string CommandHandler) (engine : t)
    (commands : list Ast.Command) (ctx : ExecutionContext)
    : t * (ExecutionContext * completion) :=
  if (maxDepth (config ctx) <? executionDepth engine)%Z then
    (engine, (ctx, Throw (Raised (ErrorFactory.execution
       ("Maximum execution depth exceeded: " +:+ Chars.showZ (maxDepth (config ctx)))
       None))))
  else
    (engine, runCommands reg commands ctx (currentValue ctx)).

(** A DOM string attribute of an element. *)
Definition domString (node : Js.value) (name : string) : string :=
  match BuiltIn.getMember node name with
  | Str s => s
  | _ => ""
  end.

Definition generateCacheKey (commands : list Ast.Command) (element : Js.value) : string :=
  let commandsStr := stringifyCommands commands in
  let elementId :=
    if isElement element then
      let id := domString element "id" in
      if String.eqb id "" then domString element "tagName" +:+ domString element "className"
      else id
    else "document" in
  commandsStr +:+ ":" +:+ elementId.

Definition initialContext (element : Js.value) (config : SuperSelectorConfig)
    : ExecutionContext :=
  {| element := element; currentValue := element; config := config;
     hadSoftError := false; softError := None |}.

Definition resetDepth (engine : t) : t :=
  {| cache := cache engine; executionDepth := 0 |}.

Definition withCache (engine : t) (c : Cache.t) : t :=
  {| cache := c; executionDepth := executionDepth engine |}.

(** The [catch] branch of [execute]. *)
Definition hardFailure (config : SuperSelectorConfig) (t : thrown) : ExecutionResult :=
  let superSelectorError :=
    match t with
    | Raised e => e
    | RaisedOther text => ErrorFactory.execution text None
    end in
  {| success := false;
     value := match errorHandling config with
              | ReturnDefault => if isTimeout t then Null else defaultValue config
              | _ => Null
              end;
     error := Some superSelectorError;
     metadata := {| commandsExecuted := 0; cacheHit := false |} |}.

(** The [try] body of [execute] past the cache lookup: run the commands,
    store a clean non-null result, report. *)
Definition executeUncached (reg : gmap string CommandHandler) (engine : t)
    (commands : list Ast.Command) (context : ExecutionContext) (cacheKey : string)
    (storeTime : Z) : t * ExecutionResult :=
  let config := config context in
  match executeCommands reg engine commands context with
  | (engine, (_, Throw t)) => (resetDepth engine, hardFailure config t)
  | (engine, (context, Return resultValue)) =>
      let engine :=
        if cacheEnabled config && negb (isNull resultValue)
           && negb (hadSoftError context)
        then withCache engine
               (Cache.set (cache engine) cacheKey resultValue
                  (Some (cacheTTL config)) storeTime)
        else engine in
      (resetDepth engine,
       {| success := negb (hadSoftError context);
          value := resultValue;
          error := if hadSoftError context then softError context else None;
          metadata := {| commandsExecuted := List.length commands;
                         cacheHit := false |} |})
  end.

(** [execute(commands, element, config)].  [lookupTime] and [storeTime] are
    what [Date.now()] reads inside [cache.get] and [cache.set]. *)
Definition execute (reg : gmap string CommandHandler) (engine : t)
    (commands : list Ast.Command) (element : Js.value) (config : SuperSelectorConfig)
    (lookupTime storeTime : Z) : t * ExecutionResult :=
  let context := initialContext element config in
  let cacheKey := generateCacheKey commands element in
  if cacheEnabled config then
    let '(c, cachedResult) := Cache.get (cache engine) cacheKey lookupTime in
    let engine := withCache engine c in
    if negb (isNull cachedResult) then
      (resetDepth engine,
       {| success := true; value := cachedResult; error := None;
          metadata := {| commandsExecuted := 0; cacheHit := true |} |})
    else executeUncached reg engine commands context cacheKey storeTime
  else executeUncached reg engine commands context cacheKey storeTime.

End WithRuntime.
End Engine.

(** ** Logger (src/core/logger.ts)

    The entries the logger keeps; its console output is not modelled. *)

Module Logger.

Inductive LogLevel := ERROR | WARN | INFO | DEBUG.

Definition rank (level : LogLevel) : nat :=
  match level with ERROR => 0 | WARN => 1 | INFO => 2 | DEBUG => 3 end.

Definition level_eqb (a b : LogLevel) : bool := rank a =? rank b.

Record LogEntry := mkEntry {
  entryLevel : LogLevel;
  message : string;
  data : option Js.value;
  timestamp : Z;
  source : string
}.

Record t := mkLogger {
  level : LogLevel;
  entries : list LogEntry
}.

Definition maxEntries : nat := 1000.

(** [new Logger()] *)
Definition create : t := {| level := INFO; entries := [] |}.

Definition setLevel (lg : t) (level : LogLevel) : t :=
  {| level := level; entries := entries lg |}.

(** [entries.slice(-n)] *)
Definition lastN {A} (n : nat) (l : list A) : list A :=
  drop (List.length l - n) l.

(** [log(level, message, data, source)] at clock reading [now] *)
Definition log (lg : t) (lvl : LogLevel) (message : string) (data : option Js.value)
    (source : option string) (now : Z) : t :=
  if rank lvl <=? rank (level lg) then
    let entry :=
      {| entryLevel := lvl; message := message; data := data; timestamp := now;
         source := match source with Some s => s | None => "" end |} in
    let entries := entries lg ++ [entry] in
    let entries :=
      if maxEntries <? List.length entries then lastN maxEntries entries else entries in
    {| level := level lg; entries := entries |}
  else lg.

Definition error (lg : t) message data source now : t := log lg ERROR message data source now.
Definition warn (lg : t) message data source now : t := log lg WARN message data source now.
Definition info (lg : t) message data source now : t := log lg INFO message data source now.
Definition debug (lg : t) message data source now : t := log lg DEBUG message data source now.

Definition getEntries (lg : t) (level : option LogLevel) : list LogEntry :=
  match level with
  | Some level => List.filter (fun entry => level_eqb (entryLevel entry) level) (entries lg)
  | None => entries lg
  end.

Definition clear (lg : t) : t := {| level := level lg; entries := [] |}.

End Logger.

(** ** Event emitter (src/core/event-emitter.ts)

    The listener table.  A listener is known by its identity, here a
    number; [emit] and [once], which run listeners, are not modelled. *)

Module EventEmitter.

Definition create : gmap string (gset nat) := ∅.

Definition on (em : gmap string (gset nat)) (eventType : string) (listener : nat)
    : gmap string (gset nat) :=
  let em := match em !! eventType with
            | None => <[eventType := ∅]> em
            | Some _ => em
            end in
  match em !! eventType with
  | Some listeners => <[eventType := listeners ∪ {[listener]}]> em
  | None => em
  end.

Definition off (em : gmap string (gset nat)) (eventType : string) (listener : nat)
    : gmap string (gset nat) :=
  match em !! eventType with
  | Some listeners =>
      let listeners := listeners ∖ {[listener]} in
      if size listeners =? 0 then delete eventType em
      else <[eventType := listeners]> em
  | None => em
  end.

(** [if (eventType)] takes the empty string for "no argument". *)
Definition removeAllListeners (em : gmap string (gset nat)) (eventType : option string)
    : gmap string (gset nat) :=
  match eventType with
  | Some eventType => if String.eqb eventType "" then ∅ else delete eventType em
  | None => ∅
  end.

Definition listenerCount (em : gmap string (gset nat)) (eventType : string) : nat :=
  match em !! eventType with
  | Some listeners => size listeners
  | None => 0
  end.

End EventEmitter.

(** ** Configuration (src/core/config.ts) *)

Module Config.
Import Js Types.

(** [Partial<SuperSelectorConfig>]: [None] for a key that is not there. *)
Record Partial := mkPartial {
  debug : option bool;
  timeout : option Z;
  maxDepth : option Z;
  cacheEnabled : option bool;
  cacheTTL : option number;
  errorHandling : option ErrorHandling;
  defaultValue : option Js.value
}.

Definition noUpdates : Partial :=
  {| debug := None; timeout := None; maxDepth := None; cacheEnabled := None;
     cacheTTL := None; errorHandling := None; defaultValue := None |}.

Definition DEFAULT_CONFIG : SuperSelectorConfig :=
  {| Types.debug := false;
     Types.timeout := 5000;
     Types.maxDepth := 50;
     Types.cacheEnabled := true;
     Types.cacheTTL := Finite 60000;
     Types.errorHandling := ReturnNull;
     Types.defaultValue := Null |}.

(** [{ ...config, ...updates }] *)
Definition spread (config : SuperSelectorConfig) (updates : Partial) : SuperSelectorConfig :=
  {| Types.debug := default (Types.debug config) (debug updates);
     Types.timeout := default (Types.timeout config) (timeout updates);
     Types.maxDepth := default (Types.maxDepth config) (maxDepth updates);
     Types.cacheEnabled := default (Types.cacheEnabled config) (cacheEnabled updates);
     Types.cacheTTL := default (Types.cacheTTL config) (cacheTTL updates);
     Types.errorHandling := default (Types.errorHandling config) (errorHandling updates);
     Types.defaultValue := default (Types.defaultValue config) (defaultValue updates) |}.

(** [new ConfigManager(initialConfig)]; the manager is its [config]. *)
Definition create (initialConfig : Partial) : SuperSelectorConfig :=
  spread DEFAULT_CONFIG initialConfig.

Definition update (config : SuperSelectorConfig) (updates : Partial) : SuperSelectorConfig :=
  spread config updates.

Definition getAll (config : SuperSelectorConfig) : SuperSelectorConfig := config.

Definition reset (config : SuperSelectorConfig) : SuperSelectorConfig := DEFAULT_CONFIG.

End Config.

(** ** The facade (src/core/super-selector.ts)

    [execute], [configure] and [clearCache] of the [SuperSelector] class.
    The command registry is the module's global one and is passed in; the
    plugins, the event listeners and the clean-up timer are left out. *)

Module SuperSelector.
Import Js Errors Types.

(** [this.cache] and the engine's cache are one object until [configure]
    assigns a new one to [this.cache]: [ownCache] is [None] while they are
    the same object, and the facade's own cache afterwards. *)
Record t := mkSuperSelector {
  configManager : SuperSelectorConfig;
  executionEngine : Engine.t;
  ownCache : option Cache.t;
  loggerLevel : Logger.LogLevel
}.

(** The constructor, with the logger at level [loggerLevel] before it. *)
Definition create (config : Config.Partial) (loggerLevel : Logger.LogLevel) : t :=
  let configManager := Config.create config in
  {| configManager := configManager;
     executionEngine :=
       {| Engine.cache := Cache.create (Some (cacheTTL configManager));
          Engine.executionDepth := 0 |};
     ownCache := None;
     loggerLevel := if debug configManager then Logger.DEBUG else loggerLevel |}.

Definition failure (err : SuperSelectorError) : ExecutionResult :=
  {| success := false; value := Null; error := Some err;
     metadata := {| commandsExecuted := 0; cacheHit := false |} |}.

Section WithRuntime.
Context `{Runtime}.

(** [execute(selector, element = document)]: an [element] that is
    [undefined], given so or left out, is the global document.  [None] only
    if the parser's fuel ran out, which it does not. *)
Definition execute (reg : gmap string CommandHandler) (s : t) (selector : string)
    (element : Js.value) (lookupTime storeTime : Z) : option (t * ExecutionResult) :=
  let element := if isUndefined element then document else element in
  if String.eqb selector "" || negb (truthy element) then
    Some (s, failure (ErrorFactory.validation "Selector and element are required"))
  else
    match Parser.parse selector with
    | None => None
    | Some parseResult =>
        if negb (Ast.isValid parseResult) then
          Some (s, failure (ErrorFactory.parse
                  ("Parse errors: " +:+ String.concat ", " (Ast.errors parseResult))))
        else
          let '(engine, result) :=
            Engine.execute reg (executionEngine s) (Ast.commands parseResult) element
              (Config.getAll (configManager s)) lookupTime storeTime in
          Some ({| configManager := configManager s; executionEngine := engine;
                   ownCache := ownCache s; loggerLevel := loggerLevel s |}, result)
    end.

End WithRuntime.

(** [configure(updates)] *)
Definition configure (s : t) (updates : Config.Partial) : t :=
  {| configManager := Config.update (configManager s) updates;
     executionEngine := executionEngine s;
     ownCache :=
       match Config.cacheTTL updates with
       | Some ttl => if truthyNumber ttl then Some (Cache.create (Some ttl)) else ownCache s
       | None => ownCache s
       end;
     loggerLevel :=
       match Config.debug updates with
       | Some d => if d then Logger.DEBUG else Logger.INFO
       | None => loggerLevel s
       end |}.

Definition getConfig (s : t) : SuperSelectorConfig := Config.getAll (configManager s).

(** [this.cache.clear()] *)
Definition clearCache (s : t) : t :=
  match ownCache s with
  | Some c =>
      {| configManager := configManager s; executionEngine := executionEngine s;
         ownCache := Some (Cache.clear c); loggerLevel := loggerLevel s |}
  | None =>
      {| configManager := configManager s;
         executionEngine := Engine.withCache (executionEngine s)
                              (Cache.clear (Engine.cache (executionEngine s)));
         ownCache := None; loggerLevel := loggerLevel s |}
  end.

End SuperSelector.

(** ** A sample host

    A small runtime to run pipelines on: strings inherit [trim] and
    [toUpperCase], arrays inherit [join]; a node answers
    [querySelectorAll(selector)] with the array it stores under the
    selector's text; a pattern is a literal text to be found, and a pattern
    that opens a character class it never closes does not compile; the
    global document is the page below. *)

Module Sample.
Import Js Errors Types.

Definition upper (c : ascii) : ascii :=
  if Chars.between 97 122 c then ascii_of_nat (Chars.code c - 32) else c.

Definition lower (c : ascii) : ascii :=
  if Chars.between 65 90 c then ascii_of_nat (Chars.code c + 32) else c.

Definition mapText (f : ascii -> ascii) (s : string) : string :=
  Chars.text (map f (Chars.chars s)).

Definition sampleInherited (v : Js.value) (name : string) : option Js.value :=
  match v with
  | Str _ =>
      if String.eqb name "trim" then Some (Fun "String.prototype.trim")
      else if String.eqb name "toUpperCase" then Some (Fun "String.prototype.toUpperCase")
      else None
  | Arr _ =>
      if String.eqb name "join" then Some (Fun "Array.prototype.join") else None
  | _ => None
  end.

Definition sampleCall (f : string) (receiver : Js.value) (args : list Js.value)
    : string + Js.value :=
  match receiver with
  | Str s =>
      if String.eqb f "String.prototype.trim"
      then inr (Str (Chars.text (Chars.trim (Chars.chars s))))
      else if String.eqb f "String.prototype.toUpperCase"
      then inr (Str (mapText upper s))
      else inl (f +:+ " is not a function")
  | Obj _ _ =>
      if String.eqb f "describe" then inr (Arr args)
      else inl (f +:+ " is not a function")
  | _ => inl (f +:+ " is not a function")
  end.

Definition sampleQuery (node : Js.value) (selector : string) : string + list Js.value :=
  match ownMember node selector with
  | Some (Arr found) => inr found
  | _ => inr []
  end.

Definition sampleRegExp (pattern : string) : option (string -> bool) :=
  let cs := Chars.chars pattern in
  if existsb (Ascii.eqb "[") cs && negb (existsb (Ascii.eqb "]") cs) then None
  else Some (fun s => includes s pattern).

Definition sampleNumber (s : string) : number :=
  let cs := Chars.trim (Chars.chars s) in
  match cs with
  | [] => Finite 0
  | _ => if forallb Chars.isDigit cs then Finite (toDouble (digitsValue cs)) else NaN
  end.

Definition sampleStringify (cs : list Ast.Command) : string :=
  String.concat "," (map Ast.commandName cs).

(** A page whose query [h1] finds one heading with padded text. *)
Definition heading : Js.value := Obj ElementNode [("textContent", Str "  Hello ")].
Definition page : Js.value := Obj DocumentNode [("h1", Arr [heading])].

Definition runtime : Runtime :=
  {| toNumber := sampleNumber;
     document := page;
     inherited := sampleInherited;
     call := sampleCall;
     querySelectorAll := sampleQuery;
     regExp := sampleRegExp;
     toLowerCase := mapText lower;
     stringifyCommands := sampleStringify;
     stringifyArgs :=
       fun args => inr ("[" +:+ Chars.showNat (List.length args) +:+ " args]") |}.

Definition builtins : gmap string CommandHandler :=
  @BuiltIn.registerBuiltInCommands runtime.

Definition engine : Engine.t :=
  {| Engine.cache := Cache.create None; Engine.executionDepth := 0 |}.

Definition configWith (mode : ErrorHandling) (fallback : Js.value) : SuperSelectorConfig :=
  {| debug := false; timeout := 5000; maxDepth := 50; cacheEnabled := false;
     cacheTTL := Finite 60000; errorHandling := mode; defaultValue := fallback |}.

Definition contextOf (v : Js.value) (mode : ErrorHandling) : ExecutionContext :=
  {| element := Obj DocumentNode []; currentValue := v;
     config := configWith mode Null; hadSoftError := false; softError := None |}.

Definition plain (members : list (string * Js.value)) : Js.value := Obj PlainObject members.

(** [[{id:1},{id:2},{}]] *)
Definition items : Js.value :=
  Arr [plain [("id", Num (Finite 1))]; plain [("id", Num (Finite 2))]; plain []].

(** A document whose query [items] finds the three objects above. *)
Definition itemsDocument : Js.value := Obj DocumentNode [("items", items)].


(** Parse, then execute on a fresh engine with caching off. *)
Definition runPipeline (input : string) (element : Js.value) (mode : ErrorHandling)
    (fallback : Js.value) : option ExecutionResult :=
  match Parser.parse input with
  | Some parsed =>
      Some (snd (@Engine.execute runtime builtins engine (Ast.commands parsed) element
                   (configWith mode fallback) 0 0))
  | None => None
  end.

End Sample.

(** * Properties *)

(** ** Scanning lemmas *)

Module CharFacts.
Import Chars.

Ltac all_chars c :=
  destruct c as [[] [] [] [] [] [] [] []]; vm_compute; intros;
  try discriminate; repeat split; try reflexivity; auto.

Lemma spanLength_app (p : ascii -> bool) (l1 l2 : list ascii) :
  forallb p l1 = true -> spanLength p (l1 ++ l2) = List.length l1 + spanLength p l2.
Proof.
  induction l1 as [|c l1 IH]; simpl; intros Hall; [reflexivity|].
  apply andb_prop in Hall as [Hc Hl]. rewrite Hc, (IH Hl). reflexivity.
Qed.

Lemma drop_cons_lookup (input : list ascii) (p : nat) (c : ascii) (r : list ascii) :
  drop p input = c :: r -> input !! p = Some c.
Proof.
  intros Hd. rewrite <- (Nat.add_0_r p), <- lookup_drop, Hd. reflexivity.
Qed.

Lemma drop_nil_lookup (input : list ascii) (p : nat) :
  drop p input = [] -> input !! p = None.
Proof.
  intros Hd. rewrite <- (Nat.add_0_r p), <- lookup_drop, Hd. reflexivity.
Qed.

Lemma drop_app_more (input : list ascii) (p : nat) (l1 l2 : list ascii) :
  drop p input = l1 ++ l2 -> drop (p + List.length l1) input = l2.
Proof.
  intros Hd. rewrite <- drop_drop, Hd. apply drop_app_length.
Qed.

Lemma drop_nonempty_lt (input : list ascii) (p : nat) (c : ascii) (r : list ascii) :
  drop p input = c :: r -> p < List.length input.
Proof.
  intros Hd. assert (Hl : List.length (drop p input) = S (List.length r))
    by (rewrite Hd; reflexivity).
  rewrite length_drop in Hl. lia.
Qed.

Lemma chars_text (l : list ascii) : chars (text l) = l.
Proof. apply list_ascii_of_string_of_list_ascii. Qed.

Lemma length_text (l : list ascii) : String.length (text l) = List.length l.
Proof. induction l as [|c l IH]; simpl; [reflexivity|]. f_equal. exact IH. Qed.

Lemma forallb_rev (p : ascii -> bool) (l : list ascii) :
  forallb p (rev l) = forallb p l.
Proof.
  induction l as [|c l IH]; simpl; [reflexivity|].
  rewrite forallb_app, IH. simpl. rewrite andb_true_r. apply andb_comm.
Qed.

(** Trimming leaves a text alone when neither end is white space. *)
Lemma trimStart_id (c : ascii) (l : list ascii) :
  isWhitespace c = false -> trimStart (c :: l) = c :: l.
Proof. intros Hc. unfold trimStart. simpl. rewrite Hc. reflexivity. Qed.

Lemma trimEnd_strip (l trail : list ascii) (c : ascii) :
  isWhitespace c = false -> forallb isWhitespace trail = true ->
  trimEnd ((l ++ [c]) ++ trail) = l ++ [c].
Proof.
  intros Hc Htrail. unfold trimEnd, trimStart.
  rewrite rev_app_distr, spanLength_app by (rewrite forallb_rev; exact Htrail).
  rewrite rev_app_distr. simpl. rewrite Hc, Nat.add_0_r.
  rewrite drop_app_length. simpl. rewrite rev_involutive. reflexivity.
Qed.

End CharFacts.

(** ** Tokenizer *)

Module TokenizerFacts.
Import Chars CharFacts Tokenizer.

Definition wordBody (c : ascii) : bool := isWordChar c || Ascii.eqb c "-".

Lemma wordBody_facts (c : ascii) :
  wordBody c = true ->
  isWhitespace c = false /\ negb (Ascii.eqb c "|") = true /\ isCssChar c = false
  /\ (isAlphaNumeric c || Ascii.eqb c "_" || Ascii.eqb c "-") = true.
Proof. all_chars c. Qed.

Lemma wordStart_facts (c : ascii) :
  (isAlpha c || Ascii.eqb c "_") = true ->
  wordBody c = true
  /\ Ascii.eqb c "|" = false /\ Ascii.eqb c "(" = false /\ Ascii.eqb c ")" = false
  /\ Ascii.eqb c "[" = false /\ Ascii.eqb c "]" = false /\ Ascii.eqb c "," = false
  /\ (Ascii.eqb c doubleQuote || Ascii.eqb c "'") = false
  /\ isDigit c = false /\ Ascii.eqb c "-" = false.
Proof. all_chars c. Qed.

Lemma separator_facts (c : ascii) :
  isWhitespace c = true \/ c = "|"%char ->
  (isAlphaNumeric c || Ascii.eqb c "_" || Ascii.eqb c "-") = false.
Proof.
  intros [Hc | ->]; [|reflexivity]. revert Hc. all_chars c.
Qed.

Lemma whitespace_not_pipe (c : ascii) :
  isWhitespace c = true -> negb (Ascii.eqb c "|") = true /\ Ascii.eqb c "(" = false.
Proof. all_chars c. Qed.

(** A segment's end: nothing, or the pipe that closes the segment. *)
Definition segmentEnd (tail : list ascii) : Prop :=
  tail = [] \/ exists tail', tail = "|"%char :: tail'.

Lemma simpleWord_inv (word : list ascii) :
  isSimpleWord word = true ->
  exists c r, word = c :: r /\ (isAlpha c || Ascii.eqb c "_") = true
              /\ forallb wordBody word = true.
Proof.
  destruct word as [|c r]; simpl; [discriminate|]. intros Hw.
  apply andb_prop in Hw as [Hc Hr]. exists c, r. split; [reflexivity|].
  split; [exact Hc|]. simpl. apply andb_true_intro.
  split; [apply (wordStart_facts c Hc) | exact Hr].
Qed.

Lemma forallb_weaken (p q : ascii -> bool) (l : list ascii) :
  (forall c, p c = true -> q c = true) -> forallb p l = true -> forallb q l = true.
Proof.
  intros Hpq. induction l as [|c l IH]; simpl; [reflexivity|]. intros Hall.
  apply andb_prop in Hall as [Hc Hl]. rewrite (Hpq c Hc), (IH Hl). reflexivity.
Qed.

Lemma existsb_none (p q : ascii -> bool) (l : list ascii) :
  (forall c, p c = true -> q c = false) -> forallb p l = true -> existsb q l = false.
Proof.
  intros Hpq. induction l as [|c l IH]; simpl; [reflexivity|]. intros Hall.
  apply andb_prop in Hall as [Hc Hl]. rewrite (Hpq c Hc), (IH Hl). reflexivity.
Qed.

Lemma trim_word (word trail : list ascii) :
  word <> [] -> forallb wordBody word = true -> forallb isWhitespace trail = true ->
  trim (word ++ trail) = word.
Proof.
  intros Hne Hword Htrail. unfold trim.
  destruct word as [|c r]; [congruence|].
  assert (Hc : isWhitespace c = false).
  { simpl in Hword. apply andb_prop in Hword as [Hc _]. apply (wordBody_facts c Hc). }
  change ((c :: r) ++ trail) with (c :: (r ++ trail)). rewrite (trimStart_id c _ Hc).
  change (c :: (r ++ trail)) with ((c :: r) ++ trail).
  destruct (exists_last Hne) as [l [x Hl]]. rewrite Hl in *.
  apply trimEnd_strip; [|exact Htrail].
  rewrite forallb_app in Hword. apply andb_prop in Hword as [_ Hx].
  simpl in Hx. rewrite andb_true_r in Hx. apply (wordBody_facts x Hx).
Qed.

Lemma spanLength_separator (p : ascii -> bool) (tail : list ascii) :
  p "|"%char = false -> segmentEnd tail -> spanLength p tail = 0.
Proof. intros Hp [-> | [tail' ->]]; simpl; [reflexivity|]. rewrite Hp. reflexivity. Qed.

(** The token a bare word becomes, and where the scanner stands after it. *)
Definition classified (st : state) (start : nat) (word trail : list ascii) : state :=
  match tokens st with
  | [] =>
      {| position := start + List.length word + List.length trail;
         tokens := [Tok.mkToken Tok.CSS_SELECTOR (text word) (Z.of_nat start)
                      (List.length word)] |}
  | _ =>
      {| position := start + List.length word;
         tokens := tokens st ++
                   [Tok.mkToken Tok.PROPERTY (text word) (Z.of_nat start)
                      (List.length word)] |}
  end.

Lemma identifier_bare_word (input : list ascii) (st : state) (start : nat)
    (word trail tail : list ascii) :
  isSimpleWord word = true ->
  forallb isWhitespace trail = true ->
  segmentEnd tail ->
  drop start input = word ++ trail ++ tail ->
  tokenizeIdentifier input (setPosition st start) = Continue (classified st start word trail).
Proof.
  intros Hword Htrail Htail Hdrop.
  destruct (simpleWord_inv word Hword) as (c & r & Hcr & Hc & Hall).
  destruct (wordStart_facts c Hc) as (Hbody & _).
  destruct (wordBody_facts c Hbody) as (_ & _ & _ & Hb).
  assert (Hne : word <> []) by (rewrite Hcr; discriminate).
  assert (Hlen : wordLength (word ++ trail ++ tail) = List.length word).
  { rewrite Hcr. simpl. rewrite Hb. simpl. f_equal.
    rewrite Hcr in Hall. simpl in Hall. apply andb_prop in Hall as [_ Hr].
    rewrite spanLength_app
      by (revert Hr; apply forallb_weaken; intros x Hx; apply (wordBody_facts x Hx)).
    destruct trail as [|w trail'].
    - simpl. rewrite (spanLength_separator _ tail eq_refl Htail). lia.
    - simpl in *. apply andb_prop in Htrail as [Hw _].
      rewrite (separator_facts w (or_introl Hw)). lia. }
  assert (Hpeek : spanLength isWhitespace (trail ++ tail) = List.length trail).
  { rewrite (spanLength_app _ _ _ Htrail), (spanLength_separator _ tail eq_refl Htail). lia. }
  assert (Hseg : segmentLength (word ++ trail ++ tail) = List.length word + List.length trail).
  { unfold segmentLength. rewrite spanLength_app.
    - rewrite spanLength_app.
      + rewrite (spanLength_separator _ tail eq_refl Htail). lia.
      + revert Htrail. apply forallb_weaken. intros x Hx. apply (whitespace_not_pipe x Hx).
    - revert Hall. apply forallb_weaken. intros x Hx. apply (wordBody_facts x Hx). }
  assert (Hcall : match input !! (start + List.length word + List.length trail) with
                  | Some x => Ascii.eqb x "("
                  | None => false
                  end = false).
  { assert (Ht : drop (start + List.length word + List.length trail) input = tail).
    { apply drop_app_more. rewrite <- (drop_app_more _ _ _ _ Hdrop). reflexivity. }
    destruct Htail as [-> | [tail' ->]].
    - rewrite (drop_nil_lookup _ _ Ht). reflexivity.
    - rewrite (drop_cons_lookup _ _ _ _ Ht). reflexivity. }
  unfold tokenizeIdentifier. simpl position. rewrite Hdrop, Hlen.
  rewrite (drop_app_more _ _ _ _ Hdrop), Hpeek, Hcall.
  unfold looksLikeCssSelector. rewrite Hdrop, Hseg. simpl tokens.
  replace (take (List.length word + List.length trail) (word ++ trail ++ tail))
    with (word ++ trail)
    by (rewrite app_assoc, <- length_app, take_app_length; reflexivity).
  rewrite (trim_word word trail Hne Hall Htrail).
  rewrite take_app_length.
  assert (Hcss : existsb isCssChar word = false).
  { revert Hall. apply existsb_none. intros x Hx. apply (wordBody_facts x Hx). }
  rewrite Hcss, Hword. unfold classified. simpl tokens.
  destruct word as [|c' r']; [congruence|].
  destruct (tokens st) as [|t ts] eqn:Ht; unfold addToken, setPosition; simpl;
    rewrite ?Ht, length_text; simpl; [do 2 f_equal; lia | reflexivity].
Qed.

Lemma step_bare_word (input : list ascii) (st : state) (lead word trail tail : list ascii) :
  isSimpleWord word = true ->
  forallb isWhitespace lead = true ->
  forallb isWhitespace trail = true ->
  segmentEnd tail ->
  drop (position st) input = lead ++ word ++ trail ++ tail ->
  step input st = Continue (classified st (position st + List.length lead) word trail).
Proof.
  intros Hword Hlead Htrail Htail Hdrop.
  destruct (simpleWord_inv word Hword) as (c & r & Hcr & Hc & Hall).
  destruct (wordStart_facts c Hc) as (Hbody & Hp1 & Hp2 & Hp3 & Hp4 & Hp5 & Hp6 & Hq & Hd & Hm).
  destruct (wordBody_facts c Hbody) as (Hws & _).
  assert (Hlt : (position st <? List.length input) = true).
  { apply Nat.ltb_lt.
    assert (Hl : List.length (drop (position st) input) > 0).
    { rewrite Hdrop, Hcr, !length_app. simpl. lia. }
    rewrite length_drop in Hl. lia. }
  assert (Hrest : drop (position st + List.length lead) input = word ++ trail ++ tail)
    by (apply drop_app_more; exact Hdrop).
  assert (Hskip : skipWhitespace input st = setPosition st (position st + List.length lead)).
  { unfold skipWhitespace. rewrite Hdrop, (spanLength_app _ _ _ Hlead), Hcr.
    simpl. rewrite Hws. f_equal. lia. }
  unfold step. rewrite Hlt, Hskip. simpl position.
  rewrite Hcr in Hrest. rewrite (drop_cons_lookup _ _ _ _ Hrest). rewrite <- Hcr in Hrest.
  rewrite Hp1, Hp2, Hp3, Hp4, Hp5, Hp6, Hq, Hd, Hm, Hc. simpl.
  apply (identifier_bare_word input st _ word trail tail); assumption.
Qed.

(** *** Every continuing turn consumes input *)

Lemma scanString_cons (quote c : ascii) (r : list ascii) (pos : nat) (value : list ascii) :
  scanString quote (c :: r) pos value =
  if Ascii.eqb c quote then (pos, value)
  else if Ascii.eqb c "\" then
    match r with
    | escaped :: r' => scanString quote r' (S (S pos)) (value ++ [unescape escaped])
    | [] => (S pos, value ++ [c])
    end
  else scanString quote r (S pos) (value ++ [c]).
Proof. reflexivity. Qed.

Lemma scanString_pos (quote : ascii) (rest : list ascii) :
  (forall pos value, pos <= fst (scanString quote rest pos value)
                     /\ fst (scanString quote rest pos value) <= pos + List.length rest)
  /\ (forall c pos value,
        pos <= fst (scanString quote (c :: rest) pos value)
        /\ fst (scanString quote (c :: rest) pos value) <= pos + S (List.length rest)).
Proof.
  induction rest as [|d rest [IH1 IH2]].
  - split; [intros; simpl; lia|]. intros c pos value. simpl.
    destruct (Ascii.eqb c quote); [simpl; lia|].
    destruct (Ascii.eqb c "\"); simpl; lia.
  - split; [apply IH2|]. intros c pos value.
    rewrite scanString_cons. destruct (Ascii.eqb c quote); [simpl; lia|].
    destruct (Ascii.eqb c "\").
    + specialize (IH1 (S (S pos)) (value ++ [unescape d])). simpl List.length.
      destruct IH1. split; lia.
    + specialize (IH2 d (S pos) (value ++ [c])). simpl List.length in *.
      destruct IH2. split; lia.
Qed.

Lemma identifier_start (c : ascii) :
  (isAlpha c || Ascii.eqb c "_" || Ascii.eqb c "-" || Ascii.eqb c "." || Ascii.eqb c "#") = true ->
  (isAlphaNumeric c || Ascii.eqb c "_" || Ascii.eqb c "-" || Ascii.eqb c "."
   || Ascii.eqb c "#") = true.
Proof. all_chars c. Qed.

Lemma digit_not_minus (c : ascii) : isDigit c = true -> Ascii.eqb c "-" = false.
Proof. all_chars c. Qed.

Lemma tokenizeIdentifier_progress (input : list ascii) (st st' : state) (c : ascii)
    (r : list ascii) :
  drop (position st) input = c :: r ->
  (isAlpha c || Ascii.eqb c "_" || Ascii.eqb c "-" || Ascii.eqb c "." || Ascii.eqb c "#") = true ->
  tokenizeIdentifier input st = Continue st' ->
  position st < position st' /\ exists t, tokens st' = tokens st ++ [t] /\ Tok.type t <> Tok.EOF.
Proof.
  intros Hdrop Hc. unfold tokenizeIdentifier. rewrite Hdrop.
  assert (Hn : 1 <= wordLength (c :: r)).
  { unfold wordLength. rewrite (identifier_start c Hc). lia. }
  set (n := wordLength (c :: r)) in *.
  destruct (match input !! _ with Some _ => _ | None => _ end).
  - intros [= <-]. simpl. split; [lia|]. eexists. split; [reflexivity|]. discriminate.
  - destruct (looksLikeCssSelector _ _ _) eqn:Hcss.
    + intros [= <-]. simpl. split.
      * unfold looksLikeCssSelector in Hcss. rewrite Hdrop in Hcss.
        destruct (segmentLength (c :: r)) eqn:Hseg; [|lia].
        rewrite take_0 in Hcss. discriminate.
      * eexists. split; [reflexivity|]. discriminate.
    + intros [= <-]. simpl. split; [lia|]. eexists. split; [reflexivity|]. discriminate.
Qed.

Lemma tokenizeNumber_progress (input : list ascii) (st st' : state) (c : ascii)
    (r : list ascii) :
  drop (position st) input = c :: r ->
  isDigit c = true \/ Ascii.eqb c "-" = true ->
  tokenizeNumber input st = Continue st' ->
  position st < position st' /\ exists t, tokens st' = tokens st ++ [t] /\ Tok.type t <> Tok.EOF.
Proof.
  intros Hdrop Hc. unfold tokenizeNumber. rewrite Hdrop. intros [= <-]. simpl.
  split; [|eexists; split; [reflexivity|discriminate]].
  destruct Hc as [Hd | Hm].
  - rewrite (digit_not_minus c Hd). simpl. rewrite Hd. simpl. lia.
  - rewrite Hm. lia.
Qed.

Lemma tokenizeString_progress (input : list ascii) (st st' : state) (quote : ascii) :
  tokenizeString input st quote = Continue st' ->
  position st < position st' /\ exists t, tokens st' = tokens st ++ [t] /\ Tok.type t <> Tok.EOF.
Proof.
  unfold tokenizeString.
  destruct (scanString quote (drop (S (position st)) input) (S (position st)) [])
    as [pos value] eqn:Hscan.
  destruct (List.length input <=? pos); [discriminate|]. intros [= <-]. simpl.
  split; [|eexists; split; [reflexivity|discriminate]].
  destruct (scanString_pos quote (drop (S (position st)) input)) as [Hle _].
  specialize (Hle (S (position st)) []). rewrite Hscan in Hle. simpl in Hle. lia.
Qed.

Lemma step_progress (input : list ascii) (st st' : state) :
  step input st = Continue st' ->
  position st < List.length input /\ position st < position st'
  /\ exists t, tokens st' = tokens st ++ [t] /\ Tok.type t <> Tok.EOF.
Proof.
  unfold step. destruct (position st <? List.length input) eqn:Hlt; [|discriminate].
  apply Nat.ltb_lt in Hlt. intros Hstep. split; [exact Hlt|].
  set (st1 := skipWhitespace input st) in *.
  assert (Hpos : position st <= position st1) by (simpl; lia).
  assert (Htok : tokens st1 = tokens st) by reflexivity.
  destruct (input !! position st1) as [char|] eqn:Hchar; [|discriminate].
  assert (Hdrop : exists r, drop (position st1) input = char :: r).
  { destruct (drop (position st1) input) as [|x r] eqn:Hd.
    - rewrite (drop_nil_lookup _ _ Hd) in Hchar. discriminate.
    - rewrite (drop_cons_lookup _ _ _ _ Hd) in Hchar. injection Hchar as ->. eauto. }
  destruct Hdrop as [r Hdrop].
  assert (Hsingle : forall type, type <> Tok.EOF -> single st1 type char = Continue st' ->
            position st < position st'
            /\ exists t, tokens st' = tokens st ++ [t] /\ Tok.type t <> Tok.EOF).
  { intros type Htype [= <-]. simpl in *. split; [lia|].
    eexists. split; [reflexivity|]. exact Htype. }
  assert (Hlift : position st1 < position st'
            /\ (exists t, tokens st' = tokens st1 ++ [t] /\ Tok.type t <> Tok.EOF) ->
            position st < position st'
            /\ exists t, tokens st' = tokens st ++ [t] /\ Tok.type t <> Tok.EOF).
  { rewrite Htok. intros [H1 H2]. split; [lia|exact H2]. }
  destruct (Ascii.eqb char "|"); [exact (Hsingle Tok.PIPE ltac:(discriminate) Hstep)|].
  destruct (Ascii.eqb char "("); [exact (Hsingle Tok.OPEN_PAREN ltac:(discriminate) Hstep)|].
  destruct (Ascii.eqb char ")"); [exact (Hsingle Tok.CLOSE_PAREN ltac:(discriminate) Hstep)|].
  destruct (Ascii.eqb char "["); [exact (Hsingle Tok.OPEN_BRACKET ltac:(discriminate) Hstep)|].
  destruct (Ascii.eqb char "]"); [exact (Hsingle Tok.CLOSE_BRACKET ltac:(discriminate) Hstep)|].
  destruct (Ascii.eqb char ","); [exact (Hsingle Tok.COMMA ltac:(discriminate) Hstep)|].
  destruct (Ascii.eqb char doubleQuote || Ascii.eqb char "'").
  { apply Hlift. exact (tokenizeString_progress _ _ _ _ Hstep). }
  destruct (isDigit char || _) eqn:Hnum.
  { apply Hlift. apply (tokenizeNumber_progress input st1 st' char r Hdrop); [|exact Hstep].
    apply orb_prop in Hnum as [Hd | Hm]; [left; exact Hd|].
    apply andb_prop in Hm as [Hm _]. right. exact Hm. }
  destruct (isAlpha char || _ || _ || _ || _) eqn:Hid; [|discriminate].
  apply Hlift. exact (tokenizeIdentifier_progress input st1 st' char r Hdrop Hid Hstep).
Qed.

Lemma step_finished (input : list ascii) (st : state) (toks : list Tok.Token) :
  step input st = Finished toks ->
  exists eof, toks = tokens st ++ [eof] /\ Tok.type eof = Tok.EOF.
Proof.
  assert (Hfin : forall s, tokens s = tokens st -> finish s = Finished toks ->
            exists eof, toks = tokens st ++ [eof] /\ Tok.type eof = Tok.EOF).
  { intros s Hs [= <-]. simpl. rewrite Hs. eexists. split; reflexivity. }
  assert (Hno : forall s q, tokenizeString input s q <> Finished toks).
  { intros s q. unfold tokenizeString. destruct (scanString _ _ _ _).
    destruct (_ <=? _); discriminate. }
  unfold step. destruct (position st <? List.length input); [|apply Hfin; reflexivity].
  destruct (input !! _) as [char|]; [|apply Hfin; reflexivity].
  unfold single, tokenizeNumber, tokenizeIdentifier.
  repeat match goal with
         | |- (if ?b then _ else _) = _ -> _ => destruct b
         end; try discriminate.
  intros Hs. exfalso. exact (Hno _ _ Hs).
Qed.

(** Fuel beyond what a run needs changes nothing. *)
Lemma run_more_fuel (fuel extra : nat) (input : list ascii) (st : state)
    (r : string + list Tok.Token) :
  run fuel input st = Some r -> run (fuel + extra) input st = Some r.
Proof.
  revert st. induction fuel as [|fuel IH]; intros st; simpl; [discriminate|].
  destruct (step input st); auto.
Qed.

Lemma run_terminates (fuel : nat) (input : list ascii) (st : state) :
  List.length input - position st < fuel -> exists r, run fuel input st = Some r.
Proof.
  revert st. induction fuel as [|fuel IH]; intros st Hfuel; [lia|]. simpl.
  destruct (step input st) as [st'| |] eqn:Hstep; eauto.
  destruct (step_progress _ _ _ Hstep) as (Hlt & Hpos & _).
  apply IH. lia.
Qed.

Theorem tokenize_terminates (input : string) : exists r, tokenize input = Some r.
Proof. unfold tokenize. apply run_terminates. simpl. lia. Qed.

(** What a run returns extends the tokens it started from, and ends with
    the only [EOF] it adds. *)
Lemma run_tokens (fuel : nat) (input : list ascii) (st : state) (toks : list Tok.Token) :
  run fuel input st = Some (inr toks) ->
  exists more eof,
    toks = tokens st ++ more ++ [eof] /\ Tok.type eof = Tok.EOF
    /\ Forall (fun t => Tok.type t <> Tok.EOF) more.
Proof.
  revert st. induction fuel as [|fuel IH]; intros st; simpl; [discriminate|].
  destruct (step input st) as [st'|ts|] eqn:Hstep; [| |discriminate].
  - intros Hrun. destruct (IH _ Hrun) as (more & eof & -> & Heof & Hmore).
    destruct (step_progress _ _ _ Hstep) as (_ & _ & t & -> & Ht).
    exists (t :: more), eof. rewrite <- app_assoc. simpl.
    split; [reflexivity|]. split; [exact Heof|]. constructor; assumption.
  - intros [= <-]. destruct (step_finished _ _ _ Hstep) as (eof & -> & Heof).
    exists [], eof. simpl. split; [reflexivity|]. split; [exact Heof|]. constructor.
Qed.

(** *** Whole inputs that start with a bare word *)

Lemma trim_ends (c d : ascii) (middle l : list ascii) :
  isWhitespace c = false -> isWhitespace d = false ->
  c :: middle = l ++ [d] -> trim (c :: middle) = c :: middle.
Proof.
  intros Hc Hd Hl. unfold trim. rewrite (trimStart_id c middle Hc), Hl.
  rewrite <- (app_nil_r (l ++ [d])) at 1. apply trimEnd_strip; [exact Hd|reflexivity].
Qed.

Lemma first_segment_css (s : string) (word trail tail : list ascii) (toks : list Tok.Token) :
  isSimpleWord word = true ->
  forallb isWhitespace trail = true ->
  segmentEnd tail ->
  trim (chars s) = word ++ trail ++ tail ->
  tokenize s = Some (inr toks) ->
  exists more,
    toks = Tok.mkToken Tok.CSS_SELECTOR (text word) 0 (List.length word) :: more.
Proof.
  intros Hword Htrail Htail Hin. unfold tokenize.
  set (input := trim (chars s)) in *. simpl run.
  rewrite (step_bare_word input initial [] word trail tail Hword eq_refl Htrail Htail)
    by (simpl; rewrite drop_0; exact Hin).
  intros Hrun. destruct (run_tokens _ _ _ _ Hrun) as (more & eof & -> & _).
  eexists. reflexivity.
Qed.

Lemma step_pipe (input : list ascii) (st : state) (rest : list ascii) :
  drop (position st) input = "|"%char :: rest ->
  step input st = Continue (advance (addToken st Tok.PIPE "|" None)).
Proof.
  intros Hdrop. unfold step.
  rewrite (proj2 (Nat.ltb_lt _ _) (drop_nonempty_lt _ _ _ _ Hdrop)).
  assert (Hskip : skipWhitespace input st = st).
  { unfold skipWhitespace. rewrite Hdrop. simpl. rewrite Nat.add_0_r.
    destruct st; reflexivity. }
  rewrite Hskip, (drop_cons_lookup _ _ _ _ Hdrop). reflexivity.
Qed.

Lemma step_at_end (input : list ascii) (st : state) :
  position st = List.length input -> step input st = finish st.
Proof. intros Hpos. unfold step. rewrite Hpos, Nat.ltb_irrefl. reflexivity. Qed.

Definition pipeSeparated (first later : list ascii) : list ascii :=
  first ++ chars " | " ++ later.

Lemma word_pipe_word (first later : list ascii) :
  isSimpleWord first = true ->
  isSimpleWord later = true ->
  tokenize (text (pipeSeparated first later)) =
  Some (inr [ Tok.mkToken Tok.CSS_SELECTOR (text first) 0 (List.length first);
              Tok.mkToken Tok.PIPE "|" (Z.of_nat (List.length first)) 1;
              Tok.mkToken Tok.PROPERTY (text later)
                (Z.of_nat (List.length first + 3)) (List.length later);
              Tok.mkToken Tok.EOF ""
                (Z.of_nat (List.length first + 3 + List.length later)) 0 ]).
Proof.
  intros Hfirst Hlater.
  destruct (simpleWord_inv first Hfirst) as (c & r & Hcr & Hc & Hall1).
  destruct (simpleWord_inv later Hlater) as (c2 & r2 & Hcr2 & Hc2 & Hall2).
  assert (Hne2 : later <> []) by (rewrite Hcr2; discriminate).
  destruct (exists_last Hne2) as (l2 & d & Hl2).
  assert (Hcw : isWhitespace c = false).
  { destruct (wordStart_facts c Hc) as (Hb & _). apply (wordBody_facts c Hb). }
  assert (Hdw : isWhitespace d = false).
  { rewrite Hl2, forallb_app in Hall2. apply andb_prop in Hall2 as [_ Hd].
    simpl in Hd. rewrite andb_true_r in Hd. apply (wordBody_facts d Hd). }
  set (input := pipeSeparated first later).
  assert (Hlen : List.length input = List.length first + 3 + List.length later).
  { unfold input, pipeSeparated. rewrite !length_app. simpl. lia. }
  assert (Htrim : trim (chars (text input)) = input).
  { rewrite chars_text. unfold input, pipeSeparated. rewrite Hcr. simpl.
    apply (trim_ends c d _ (first ++ chars " | " ++ l2) Hcw Hdw).
    rewrite Hl2, Hcr. simpl. rewrite <- !app_assoc. reflexivity. }
  assert (Hdrop : forall pre post, input = pre ++ post ->
            drop (List.length pre) input = post).
  { intros pre post ->. apply drop_app_length. }
  unfold tokenize. rewrite Htrim.
  replace (S (List.length input)) with (4 + (List.length input - 3)) by lia.
  apply run_more_fuel.
  (* first turn: the bare word opens the input *)
  cbn [run].
  rewrite (step_bare_word input initial [] first [" "%char]
             ("|"%char :: " "%char :: later) Hfirst eq_refl eq_refl
             (or_intror (ex_intro _ _ eq_refl)) eq_refl).
  unfold classified. cbn [tokens initial position List.length].
  rewrite !Nat.add_0_l.
  (* second turn: the pipe *)
  rewrite (step_pipe input _ (" "%char :: later)).
  2:{ cbn [position]. replace (List.length first + 1) with (List.length (first ++ [" "%char]))
        by (rewrite length_app; reflexivity).
      apply Hdrop. unfold input, pipeSeparated. rewrite <- app_assoc. reflexivity. }
  unfold advance, addToken, setPosition. cbn [position tokens String.length].
  (* third turn: the same kind of word, now after a token *)
  rewrite (step_bare_word input _ [" "%char] later [] [] Hlater eq_refl eq_refl
             (or_introl eq_refl)).
  2:{ cbn [position]. rewrite app_nil_r.
      replace (S (List.length first + 1))
        with (List.length (first ++ [" "%char; "|"%char])) by (rewrite length_app; simpl; lia).
      apply Hdrop. unfold input, pipeSeparated. rewrite <- app_assoc. reflexivity. }
  unfold classified. cbn [tokens position app List.length].
  (* last turn: the end of the input *)
  rewrite step_at_end by (cbn [position]; lia).
  unfold finish, addToken. cbn [position tokens String.length app].
  do 2 f_equal. repeat (f_equal; try lia).
Qed.

(** *** Words that open with a dash *)

(** A dash, then word characters and dashes, the first of which is no
    digit: a dash before a digit opens a number.  [tokenizeIdentifier]
    reads such a text as one word, as it reads a bare word; rule 2 does
    not accept it. *)
Definition isDashWord (word : list ascii) : bool :=
  match word with
  | c :: r =>
      Ascii.eqb c "-" && forallb wordBody r
      && match r with
         | d :: _ => negb (isDigit d)
         | [] => true
         end
  | [] => false
  end.

(** The token a dash word becomes: a property wherever it stands. *)
Definition dashClassified (st : state) (start : nat) (word : list ascii) : state :=
  {| position := start + List.length word;
     tokens := tokens st ++
               [Tok.mkToken Tok.PROPERTY (text word) (Z.of_nat start) (List.length word)] |}.

Lemma separator_not_digit (c : ascii) :
  isWhitespace c = true \/ c = "|"%char -> isDigit c = false.
Proof.
  intros [Hc | ->]; [|reflexivity]. revert Hc. all_chars c.
Qed.

Lemma step_dash_word (input : list ascii) (st : state) (lead word trail tail : list ascii) :
  isDashWord word = true ->
  forallb isWhitespace lead = true ->
  forallb isWhitespace trail = true ->
  segmentEnd tail ->
  drop (position st) input = lead ++ word ++ trail ++ tail ->
  step input st = Continue (dashClassified st (position st + List.length lead) word).
Proof.
  intros Hword Hlead Htrail Htail Hdrop.
  destruct word as [|c r]; [discriminate|]. cbn [isDashWord] in Hword.
  apply andb_prop in Hword as [Hword Hnum]. apply andb_prop in Hword as [Hc Hr].
  apply Ascii.eqb_eq in Hc. subst c.
  set (word := "-"%char :: r) in *.
  assert (Hall : forallb wordBody word = true) by (unfold word; simpl; exact Hr).
  assert (Hne : word <> []) by discriminate.
  set (start := position st + List.length lead).
  assert (Hrest : drop start input = word ++ trail ++ tail)
    by (apply drop_app_more; exact Hdrop).
  assert (Hlt : (position st <? List.length input) = true).
  { apply Nat.ltb_lt.
    assert (Hl : List.length (drop (position st) input) > 0).
    { rewrite Hdrop. unfold word. rewrite !length_app. simpl. lia. }
    rewrite length_drop in Hl. lia. }
  assert (Hskip : skipWhitespace input st = setPosition st start).
  { unfold skipWhitespace. rewrite Hdrop, (spanLength_app _ _ _ Hlead).
    unfold word. simpl. f_equal. unfold start. lia. }
  (* the character after the dash is no digit *)
  assert (Hnext : match input !! S start with
                  | Some next => isDigit next
                  | None => false
                  end = false).
  { assert (Hd : drop (S start) input = r ++ trail ++ tail).
    { replace (S start) with (start + List.length ["-"%char]) by (simpl; lia).
      apply drop_app_more. exact Hrest. }
    destruct r as [|d r'].
    - destruct trail as [|w trail'].
      + destruct Htail as [-> | [tail' ->]].
        * rewrite (drop_nil_lookup _ _ Hd). reflexivity.
        * rewrite (drop_cons_lookup _ _ _ _ Hd). reflexivity.
      + rewrite (drop_cons_lookup _ _ _ _ Hd).
        simpl in Htrail. apply andb_prop in Htrail as [Hw _].
        apply separator_not_digit. left. exact Hw.
    - rewrite (drop_cons_lookup _ _ _ _ Hd). apply negb_true_iff. exact Hnum. }
  assert (Hlen : wordLength (word ++ trail ++ tail) = List.length word).
  { unfold word. simpl. f_equal.
    rewrite spanLength_app
      by (revert Hr; apply forallb_weaken; intros x Hx; apply (wordBody_facts x Hx)).
    destruct trail as [|w trail'].
    - simpl. rewrite (spanLength_separator _ tail eq_refl Htail). lia.
    - simpl in *. apply andb_prop in Htrail as [Hw _].
      rewrite (separator_facts w (or_introl Hw)). lia. }
  assert (Hpeek : spanLength isWhitespace (trail ++ tail) = List.length trail).
  { rewrite (spanLength_app _ _ _ Htrail), (spanLength_separator _ tail eq_refl Htail). lia. }
  assert (Hseg : segmentLength (word ++ trail ++ tail) = List.length word + List.length trail).
  { unfold segmentLength. rewrite spanLength_app.
    - rewrite spanLength_app.
      + rewrite (spanLength_separator _ tail eq_refl Htail). lia.
      + revert Htrail. apply forallb_weaken. intros x Hx. apply (whitespace_not_pipe x Hx).
    - revert Hall. apply forallb_weaken. intros x Hx. apply (wordBody_facts x Hx). }
  assert (Hcall : match input !! (start + List.length word + List.length trail) with
                  | Some x => Ascii.eqb x "("
                  | None => false
                  end = false).
  { assert (Ht : drop (start + List.length word + List.length trail) input = tail).
    { apply drop_app_more. rewrite <- (drop_app_more _ _ _ _ Hrest). reflexivity. }
    destruct Htail as [-> | [tail' ->]].
    - rewrite (drop_nil_lookup _ _ Ht). reflexivity.
    - rewrite (drop_cons_lookup _ _ _ _ Ht). reflexivity. }
  assert (Hcss : existsb isCssChar word = false).
  { revert Hall. apply existsb_none. intros x Hx. apply (wordBody_facts x Hx). }
  unfold step. rewrite Hlt, Hskip. cbn [position setPosition].
  rewrite (drop_cons_lookup _ _ _ _ Hrest). cbn [Ascii.eqb Bool.eqb orb andb isDigit].
  change (isDigit "-") with false. change (isAlpha "-") with false.
  rewrite Hnext. cbn [orb andb].
  unfold tokenizeIdentifier. cbn [position setPosition]. rewrite Hrest, Hlen.
  rewrite (drop_app_more _ _ _ _ Hrest), Hpeek, Hcall.
  unfold looksLikeCssSelector. rewrite Hrest, Hseg.
  replace (take (List.length word + List.length trail) (word ++ trail ++ tail))
    with (word ++ trail)
    by (rewrite app_assoc, <- length_app, take_app_length; reflexivity).
  rewrite (trim_word word trail Hne Hall Htrail).
  rewrite take_app_length.
  rewrite Hcss. unfold word at 1 2. cbn [isSimpleWord].
  change (isAlpha "-" || Ascii.eqb "-" "_") with false. cbn [andb].
  unfold dashClassified, addToken, setPosition. cbn [position tokens].
  rewrite length_text. reflexivity.
Qed.

Lemma first_segment_dash (s : string) (word trail tail : list ascii) (toks : list Tok.Token) :
  isDashWord word = true ->
  forallb isWhitespace trail = true ->
  segmentEnd tail ->
  trim (chars s) = word ++ trail ++ tail ->
  tokenize s = Some (inr toks) ->
  exists more,
    toks = Tok.mkToken Tok.PROPERTY (text word) 0 (List.length word) :: more.
Proof.
  intros Hword Htrail Htail Hin. unfold tokenize.
  set (input := trim (chars s)) in *. simpl run.
  rewrite (step_dash_word input initial [] word trail tail Hword eq_refl Htrail Htail)
    by (simpl; rewrite drop_0; exact Hin).
  intros Hrun. destruct (run_tokens _ _ _ _ Hrun) as (more & eof & -> & _).
  eexists. reflexivity.
Qed.

(** C1.  A segment that is a single bare word in the sense of rule 2 of
    [looksLikeCssSelector] (a letter or underscore followed by word
    characters and dashes) becomes one token whose type depends only on
    whether a token was emitted before it, never on the word: the state
    [classified] holds a [CSS_SELECTOR] when the token list was empty and a
    [PROPERTY] otherwise.  Hence the first segment of an input, when it is
    such a word, heads the token stream as a CSS selector, and the same
    kind of word after a pipe is a property.  A word that opens with a
    dash, which [tokenizeIdentifier] reads as one word too, is a
    [PROPERTY] wherever it stands, the head of the token stream
    included. *)
Theorem bare_word_classified_by_position :
  (forall (input : list ascii) (st : state) (lead word trail tail : list ascii),
      isSimpleWord word = true ->
      forallb isWhitespace lead = true ->
      forallb isWhitespace trail = true ->
      segmentEnd tail ->
      drop (position st) input = lead ++ word ++ trail ++ tail ->
      step input st = Continue (classified st (position st + List.length lead) word trail))
  /\ (forall (s : string) (word trail tail : list ascii) (toks : list Tok.Token),
      isSimpleWord word = true ->
      forallb isWhitespace trail = true ->
      segmentEnd tail ->
      trim (chars s) = word ++ trail ++ tail ->
      tokenize s = Some (inr toks) ->
      exists more,
        toks = Tok.mkToken Tok.CSS_SELECTOR (text word) 0 (List.length word) :: more)
  /\ (forall first later : list ascii,
      isSimpleWord first = true ->
      isSimpleWord later = true ->
      tokenize (text (pipeSeparated first later)) =
      Some (inr [ Tok.mkToken Tok.CSS_SELECTOR (text first) 0 (List.length first);
                  Tok.mkToken Tok.PIPE "|" (Z.of_nat (List.length first)) 1;
                  Tok.mkToken Tok.PROPERTY (text later)
                    (Z.of_nat (List.length first + 3)) (List.length later);
                  Tok.mkToken Tok.EOF ""
                    (Z.of_nat (List.length first + 3 + List.length later)) 0 ]))
  /\ (forall (input : list ascii) (st : state) (lead word trail tail : list ascii),
      isDashWord word = true ->
      forallb isWhitespace lead = true ->
      forallb isWhitespace trail = true ->
      segmentEnd tail ->
      drop (position st) input = lead ++ word ++ trail ++ tail ->
      step input st = Continue (dashClassified st (position st + List.length lead) word))
  /\ (forall (s : string) (word trail tail : list ascii) (toks : list Tok.Token),
      isDashWord word = true ->
      forallb isWhitespace trail = true ->
      segmentEnd tail ->
      trim (chars s) = word ++ trail ++ tail ->
      tokenize s = Some (inr toks) ->
      exists more,
        toks = Tok.mkToken Tok.PROPERTY (text word) 0 (List.length word) :: more).
Proof.
  split; [exact step_bare_word|]. split; [exact first_segment_css|].
  split; [exact word_pipe_word|]. split; [exact step_dash_word|exact first_segment_dash].
Qed.

(** The same word twice: a selector first, a property after the pipe. *)
Lemma bare_word_witness :
  tokenize "name | name" =
  Some (inr [ Tok.mkToken Tok.CSS_SELECTOR "name" 0 4;
              Tok.mkToken Tok.PIPE "|" 4 1;
              Tok.mkToken Tok.PROPERTY "name" 7 4;
              Tok.mkToken Tok.EOF "" 11 0 ]).
Proof.
  exact (proj1 (proj2 (proj2 bare_word_classified_by_position))
           (chars "name") (chars "name") eq_refl eq_refl).
Defined.

(** A word that opens with a dash is a single bare word as
    [tokenizeIdentifier] reads it, yet it is a property when it is the
    first segment, and so its type does depend on what the word holds:
    [name] in the same place is a selector. *)
Example dash_word_is_property :
  tokenize "-foo" =
  Some (inr [ Tok.mkToken Tok.PROPERTY "-foo" 0 4; Tok.mkToken Tok.EOF "" 4 0 ])
  /\ tokenize "-foo | -foo" =
     Some (inr [ Tok.mkToken Tok.PROPERTY "-foo" 0 4;
                 Tok.mkToken Tok.PIPE "|" 4 1;
                 Tok.mkToken Tok.PROPERTY "-foo" 7 4;
                 Tok.mkToken Tok.EOF "" 11 0 ])
  /\ tokenize "name" =
     Some (inr [ Tok.mkToken Tok.CSS_SELECTOR "name" 0 4; Tok.mkToken Tok.EOF "" 4 0 ]).
Proof. split; [reflexivity|]. split; reflexivity. Qed.

End TokenizerFacts.

(** ** Parser *)

Module ParserFacts.
Import Ast Parser.
Import Chars CharFacts.

(** [+1] for an opening parenthesis, [-1] for a closing one. *)
Definition parenWeight (t : Tok.Token) : Z :=
  match Tok.type t with
  | Tok.OPEN_PAREN => 1
  | Tok.CLOSE_PAREN => -1
  | _ => 0
  end.

(** Opening minus closing parenthesis tokens. *)
Fixpoint parenBalance (toks : list Tok.Token) : Z :=
  match toks with
  | [] => 0
  | t :: rest => parenWeight t + parenBalance rest
  end.

Definition depthAt (toks : list Tok.Token) (pos : nat) : Z :=
  parenBalance (take pos toks).

Definition atEnd (toks : list Tok.Token) (pos : nat) : bool :=
  match toks !! pos with
  | Some t => Tok.type_eqb (Tok.type t) Tok.EOF
  | None => true
  end.

Lemma parenBalance_app (l1 l2 : list Tok.Token) :
  parenBalance (l1 ++ l2) = (parenBalance l1 + parenBalance l2)%Z.
Proof. induction l1 as [|t l1 IH]; simpl; [reflexivity|]. rewrite IH. lia. Qed.

Lemma depthAt_S (toks : list Tok.Token) (pos : nat) (t : Tok.Token) :
  toks !! pos = Some t -> depthAt toks (S pos) = (depthAt toks pos + parenWeight t)%Z.
Proof.
  intros Ht. unfold depthAt. rewrite (take_S_r _ _ _ Ht), parenBalance_app. simpl. lia.
Qed.

Lemma isAtEnd_spec (toks : list Tok.Token) (pos : nat) :
  isAtEnd toks pos = Ok (atEnd toks pos) pos.
Proof.
  unfold isAtEnd, atEnd. destruct (List.length toks <=? pos) eqn:Hlen.
  - apply Nat.leb_le in Hlen. rewrite (lookup_ge_None_2 _ _ Hlen). reflexivity.
  - apply Nat.leb_gt in Hlen. destruct (lookup_lt_is_Some_2 toks pos Hlen) as [t ->].
    reflexivity.
Qed.

Lemma skip_spec (toks : list Tok.Token) (pos : nat) :
  skip toks pos = Ok tt (if atEnd toks pos then pos else S pos).
Proof. unfold skip, bind. rewrite isAtEnd_spec. reflexivity. Qed.

Lemma matches_spec (type : Tok.TokenType) (toks : list Tok.Token) (pos : nat) :
  matches type toks pos =
  match toks !! pos with
  | Some t => Ok (Tok.type_eqb (Tok.type t) type) pos
  | None => Err "Cannot read properties of undefined (reading 'type')"
  end.
Proof. unfold matches, bind, peek. destruct (toks !! pos); reflexivity. Qed.

Lemma advance_spec (toks : list Tok.Token) (pos : nat) (t : Tok.Token) :
  toks !! pos = Some t -> Tok.type_eqb (Tok.type t) Tok.EOF = false ->
  advance toks pos = Ok t (S pos).
Proof.
  intros Ht Hne. unfold advance, bind. rewrite isAtEnd_spec. unfold atEnd.
  rewrite Ht, Hne, Ht. reflexivity.
Qed.

Lemma type_eqb_eq (a b : Tok.TokenType) : Tok.type_eqb a b = true <-> a = b.
Proof. destruct a, b; simpl; split; intros; congruence. Qed.

(** What a finished action has done: it never runs out of fuel, and when it
    returns it has moved forward ([strict]: by at least one token) and
    changed the parenthesis depth by [delta]. *)
Definition behaves {A : Type} (toks : list Tok.Token) (pos : nat) (strict : bool)
    (delta : Z) (r : result A) : Prop :=
  match r with
  | Ok _ pos' =>
      (if strict then pos < pos' else pos <= pos')
      /\ depthAt toks pos' = (depthAt toks pos + delta)%Z
  | Err _ => True
  | OutOfFuel => False
  end.

Lemma weight_of_type (t : Tok.Token) (type : Tok.TokenType) :
  Tok.type_eqb (Tok.type t) type = true ->
  parenWeight t = match type with
                  | Tok.OPEN_PAREN => 1
                  | Tok.CLOSE_PAREN => -1
                  | _ => 0
                  end%Z.
Proof. intros Ht. apply type_eqb_eq in Ht. unfold parenWeight. rewrite Ht. reflexivity. Qed.

Lemma not_eof_of_type (t : Tok.Token) (type : Tok.TokenType) :
  Tok.type_eqb (Tok.type t) type = true -> type <> Tok.EOF ->
  Tok.type_eqb (Tok.type t) Tok.EOF = false.
Proof.
  intros Ht Hne. apply type_eqb_eq in Ht. rewrite Ht. destruct type; try reflexivity.
  congruence.
Qed.

(** Skipping a token whose type is known and is not [EOF]. *)
Lemma skip_token (toks : list Tok.Token) (pos : nat) (t : Tok.Token) (type : Tok.TokenType) :
  toks !! pos = Some t -> Tok.type_eqb (Tok.type t) type = true -> type <> Tok.EOF ->
  skip toks pos = Ok tt (S pos).
Proof.
  intros Ht Htype Hne. rewrite skip_spec. unfold atEnd.
  rewrite Ht, (not_eof_of_type t type Htype Hne). reflexivity.
Qed.

Lemma parseArgument_behaves (toks : list Tok.Token) (pos : nat) :
  behaves toks pos true 0 (parseArgument toks pos).
Proof.
  unfold parseArgument, bind, peek.
  destruct (toks !! pos) as [t|] eqn:Ht; [|exact I].
  destruct (Tok.type t) eqn:Htype; try exact I;
    (rewrite (advance_spec toks pos t Ht) by (rewrite Htype; reflexivity);
     simpl; split; [lia|];
     rewrite (depthAt_S _ _ _ Ht); unfold parenWeight; rewrite Htype; lia).
Qed.

Lemma parseArguments_behaves (fuel : nat) :
  forall (args : list string) (toks : list Tok.Token) (pos : nat),
    List.length toks - pos < fuel ->
    behaves toks pos false 0 (parseArguments fuel args toks pos).
Proof.
  induction fuel as [|fuel IH]; intros args toks pos Hfuel; [lia|].
  cbn [parseArguments]. unfold bind at 1. rewrite matches_spec.
  destruct (toks !! pos) as [t|] eqn:Ht; [|exact I].
  assert (Hlt : pos < List.length toks) by (apply lookup_lt_Some in Ht; exact Ht).
  unfold bind at 1. rewrite isAtEnd_spec.
  destruct (negb _ && negb _); [|simpl; split; [lia|lia]].
  unfold bind at 1.
  pose proof (parseArgument_behaves toks pos) as Harg.
  destruct (parseArgument toks pos) as [arg pos1| |]; [|exact I|exact Harg].
  destruct Harg as [Hpos1 Hd1].
  unfold bind at 1. rewrite matches_spec.
  destruct (toks !! pos1) as [t1|] eqn:Ht1; [|exact I].
  destruct (Tok.type_eqb (Tok.type t1) Tok.COMMA) eqn:Hcomma.
  - unfold bind at 1.
    rewrite (skip_token toks pos1 t1 Tok.COMMA Ht1 Hcomma) by discriminate.
    specialize (IH (args ++ [arg]) toks (S pos1) ltac:(lia)).
    destruct (parseArguments fuel (args ++ [arg]) toks (S pos1)) as [r pos2| |];
      [|exact I|exact IH].
    destruct IH as [Hpos2 Hd2]. split; [lia|].
    rewrite Hd2, (depthAt_S _ _ _ Ht1), (weight_of_type t1 _ Hcomma), Hd1. lia.
  - unfold bind at 1. rewrite matches_spec, Ht1.
    destruct (negb _); [exact I|].
    specialize (IH (args ++ [arg]) toks pos1 ltac:(lia)).
    destruct (parseArguments fuel (args ++ [arg]) toks pos1) as [r pos2| |];
      [|exact I|exact IH].
    destruct IH as [Hpos2 Hd2]. split; [lia|]. rewrite Hd2, Hd1. lia.
Qed.

Lemma parseFunction_behaves (fuel : nat) (toks : list Tok.Token) (pos : nat)
    (t : Tok.Token) :
  toks !! pos = Some t -> Tok.type t = Tok.FUNCTION_NAME ->
  List.length toks - pos <= fuel ->
  behaves toks pos true 0 (parseFunction fuel toks pos).
Proof.
  intros Ht Htype Hfuel.
  assert (Hlt : pos < List.length toks) by (apply lookup_lt_Some in Ht; exact Ht).
  unfold parseFunction. unfold bind at 1.
  rewrite (advance_spec toks pos t Ht) by (rewrite Htype; reflexivity).
  unfold bind at 1. rewrite matches_spec.
  destruct (toks !! S pos) as [t1|] eqn:Ht1; [|exact I].
  destruct (Tok.type_eqb (Tok.type t1) Tok.OPEN_PAREN) eqn:Hopen; [|exact I].
  cbn [negb]. unfold bind at 1.
  rewrite (skip_token toks (S pos) t1 Tok.OPEN_PAREN Ht1 Hopen) by discriminate.
  unfold bind at 1.
  pose proof (parseArguments_behaves fuel [] toks (S (S pos)) ltac:(lia)) as Hargs.
  destruct (parseArguments fuel [] toks (S (S pos))) as [args pos2| |];
    [|exact I|exact Hargs].
  destruct Hargs as [Hpos2 Hd2].
  unfold bind at 1. rewrite matches_spec.
  destruct (toks !! pos2) as [t2|] eqn:Ht2; [|exact I].
  destruct (Tok.type_eqb (Tok.type t2) Tok.CLOSE_PAREN) eqn:Hclose; [|exact I].
  cbn [negb]. unfold bind at 1.
  rewrite (skip_token toks pos2 t2 Tok.CLOSE_PAREN Ht2 Hclose) by discriminate.
  simpl. split; [lia|].
  rewrite (depthAt_S _ _ _ Ht2), (weight_of_type t2 _ Hclose), Hd2.
  rewrite (depthAt_S _ _ _ Ht1), (weight_of_type t1 _ Hopen).
  rewrite (depthAt_S _ _ _ Ht). unfold parenWeight. rewrite Htype. lia.
Qed.

Lemma parseArrayAccess_behaves (toks : list Tok.Token) (pos : nat) (t : Tok.Token) :
  toks !! pos = Some t -> Tok.type t = Tok.OPEN_BRACKET ->
  behaves toks pos true 0 (parseArrayAccess toks pos).
Proof.
  intros Ht Htype.
  assert (Hb : Tok.type_eqb (Tok.type t) Tok.OPEN_BRACKET = true)
    by (rewrite Htype; reflexivity).
  unfold parseArrayAccess. unfold bind at 1.
  rewrite (skip_token toks pos t Tok.OPEN_BRACKET Ht Hb) by discriminate.
  unfold bind at 1. rewrite matches_spec.
  destruct (toks !! S pos) as [t1|] eqn:Ht1; [|exact I].
  destruct (Tok.type_eqb (Tok.type t1) Tok.NUMBER) eqn:Hnum; [|exact I].
  cbn [negb]. unfold bind at 1.
  rewrite (advance_spec toks (S pos) t1 Ht1)
    by (apply (not_eof_of_type t1 Tok.NUMBER Hnum); discriminate).
  destruct (Js.parseInt (Tok.value t1)) as [|index]; [exact I|].
  unfold bind at 1. rewrite matches_spec.
  destruct (toks !! S (S pos)) as [t2|] eqn:Ht2; [|exact I].
  destruct (Tok.type_eqb (Tok.type t2) Tok.CLOSE_BRACKET) eqn:Hclose; [|exact I].
  cbn [negb]. unfold bind at 1.
  rewrite (skip_token toks (S (S pos)) t2 Tok.CLOSE_BRACKET Ht2 Hclose) by discriminate.
  simpl. split; [lia|].
  rewrite (depthAt_S _ _ _ Ht2), (weight_of_type t2 _ Hclose).
  rewrite (depthAt_S _ _ _ Ht1), (weight_of_type t1 _ Hnum).
  rewrite (depthAt_S _ _ _ Ht), (weight_of_type t _ Hb). lia.
Qed.

Lemma parseCommand_behaves (fuel : nat) (toks : list Tok.Token) (pos : nat) :
  List.length toks - pos <= fuel ->
  behaves toks pos true 0 (parseCommand fuel toks pos).
Proof.
  intros Hfuel. unfold parseCommand. unfold bind at 1. unfold peek.
  destruct (toks !! pos) as [t|] eqn:Ht; [|exact I].
  destruct (Tok.type t) eqn:Htype; try exact I.
  - unfold parseCssSelector, bind.
    rewrite (advance_spec toks pos t Ht) by (rewrite Htype; reflexivity).
    simpl. split; [lia|]. rewrite (depthAt_S _ _ _ Ht). unfold parenWeight.
    rewrite Htype. lia.
  - exact (parseFunction_behaves fuel toks pos t Ht Htype Hfuel).
  - exact (parseArrayAccess_behaves toks pos t Ht Htype).
  - unfold parseProperty, bind.
    rewrite (advance_spec toks pos t Ht) by (rewrite Htype; reflexivity).
    simpl. split; [lia|]. rewrite (depthAt_S _ _ _ Ht). unfold parenWeight.
    rewrite Htype. lia.
Qed.

(** The command loop ends at the end of the tokens with the depth it started
    at. *)
Lemma parseCommands_behaves (fuel : nat) :
  forall (commands : list Command) (toks : list Tok.Token) (pos : nat),
    List.length toks - pos < fuel ->
    match parseCommands fuel commands toks pos with
    | Ok _ pos' => atEnd toks pos' = true /\ depthAt toks pos' = depthAt toks pos
    | Err _ => True
    | OutOfFuel => False
    end.
Proof.
  induction fuel as [|fuel IH]; intros commands toks pos Hfuel; [lia|].
  cbn [parseCommands]. unfold bind at 1. rewrite isAtEnd_spec.
  destruct (atEnd toks pos) eqn:Hend; [simpl; split; [exact Hend|reflexivity]|].
  assert (Hlt : pos < List.length toks).
  { unfold atEnd in Hend. destruct (toks !! pos) eqn:Ht; [|discriminate].
    apply lookup_lt_Some in Ht. exact Ht. }
  unfold bind at 1.
  pose proof (parseCommand_behaves fuel toks pos ltac:(lia)) as Hcmd.
  destruct (parseCommand fuel toks pos) as [command pos1| |]; [|exact I|exact Hcmd].
  destruct Hcmd as [Hpos1 Hd1].
  unfold bind at 1. rewrite matches_spec.
  destruct (toks !! pos1) as [t1|] eqn:Ht1; [|exact I].
  destruct (Tok.type_eqb (Tok.type t1) Tok.PIPE) eqn:Hpipe.
  - unfold bind at 1.
    rewrite (skip_token toks pos1 t1 Tok.PIPE Ht1 Hpipe) by discriminate.
    specialize (IH (commands ++ [command]) toks (S pos1) ltac:(lia)).
    destruct (parseCommands fuel (commands ++ [command]) toks (S pos1)) as [r pos2| |];
      [|exact I|exact IH].
    destruct IH as [Hend2 Hd2]. split; [exact Hend2|].
    rewrite Hd2, (depthAt_S _ _ _ Ht1), (weight_of_type t1 _ Hpipe), Hd1. lia.
  - unfold bind at 1. unfold ret at 1.
    specialize (IH (commands ++ [command]) toks pos1 ltac:(lia)).
    destruct (parseCommands fuel (commands ++ [command]) toks pos1) as [r pos2| |];
      [|exact I|exact IH].
    destruct IH as [Hend2 Hd2]. split; [exact Hend2|]. rewrite Hd2, Hd1. lia.
Qed.

(** *** The whole of [parse] *)

Definition invalid (message : string) : ParseResult :=
  {| commands := []; isValid := false; errors := [message] |}.

(** A result is either valid without errors or invalid with no command and
    exactly one message. *)
Definition wellShaped (r : ParseResult) : Prop :=
  (isValid r = true /\ errors r = [])
  \/ exists message, r = invalid message.

Lemma parse_total (input : string) : exists r, parse input = Some r /\ wellShaped r.
Proof.
  unfold parse. destruct (TokenizerFacts.tokenize_terminates input) as [[message|toks] ->].
  - eexists. split; [reflexivity|]. right. eexists. reflexivity.
  - pose proof (parseCommands_behaves (S (List.length toks)) [] toks 0 ltac:(lia)) as Hp.
    destruct (parseCommands _ _ _ _) as [cmds pos'|message|]; [| |contradiction].
    + eexists. split; [reflexivity|]. left. split; reflexivity.
    + eexists. split; [reflexivity|]. right. eexists. reflexivity.
Qed.

Lemma balance_at_end (more : list Tok.Token) (eof : Tok.Token) (pos : nat) :
  Tok.type eof = Tok.EOF ->
  Forall (fun t => Tok.type t <> Tok.EOF) more ->
  atEnd (more ++ [eof]) pos = true ->
  depthAt (more ++ [eof]) pos = parenBalance (more ++ [eof]).
Proof.
  intros Heof Hmore Hend.
  assert (Hge : List.length more <= pos).
  { destruct (Nat.le_gt_cases (List.length more) pos) as [Hle|Hgt]; [exact Hle|].
    exfalso. unfold atEnd in Hend. rewrite lookup_app_l in Hend by exact Hgt.
    destruct (lookup_lt_is_Some_2 more pos Hgt) as [t Ht]. rewrite Ht in Hend.
    apply type_eqb_eq in Hend. rewrite Forall_forall in Hmore.
    apply (Hmore t); [|exact Hend].
    apply (list_elem_of_lookup_2 _ _ _ Ht). }
  unfold depthAt. rewrite take_app_ge by exact Hge. rewrite !parenBalance_app.
  f_equal. destruct (pos - List.length more); simpl; unfold parenWeight; rewrite ?Heof;
    rewrite ?take_nil; simpl; lia.
Qed.

Lemma unbalanced_tokens_rejected (input : string) (toks : list Tok.Token) :
  Tokenizer.tokenize input = Some (inr toks) ->
  parenBalance toks <> 0%Z ->
  exists message, parse input = Some (invalid message).
Proof.
  intros Htok Hbal. unfold parse. rewrite Htok.
  destruct (TokenizerFacts.run_tokens _ _ _ _ Htok) as (more & eof & Htoks & Heof & Hmore).
  simpl in Htoks.
  pose proof (parseCommands_behaves (S (List.length toks)) [] toks 0 ltac:(lia)) as Hp.
  destruct (parseCommands _ _ _ _) as [cmds pos'|message|]; [| |contradiction].
  - exfalso. destruct Hp as [Hend Hdepth]. apply Hbal.
    rewrite Htoks in *. rewrite <- (balance_at_end more eof pos' Heof Hmore Hend).
    rewrite Hdepth. reflexivity.
  - eexists. reflexivity.
Qed.

(** The states the tokenizer loop passes through. *)
Inductive reaches (input : list ascii) : Tokenizer.state -> Prop :=
| reaches_initial : reaches input Tokenizer.initial
| reaches_step (st st' : Tokenizer.state) :
    reaches input st -> Tokenizer.step input st = Tokenizer.Continue st' ->
    reaches input st'.

Lemma run_from_reached (input : list ascii) (st : Tokenizer.state)
    (r : string + list Tok.Token) :
  reaches input st ->
  (exists fuel, Tokenizer.run fuel input st = Some r) ->
  exists fuel, Tokenizer.run fuel input Tokenizer.initial = Some r.
Proof.
  intros Hreach. induction Hreach as [|st st' Hreach IH Hstep]; [auto|].
  intros [fuel Hrun]. apply IH. exists (S fuel). simpl. rewrite Hstep. exact Hrun.
Qed.

Lemma run_deterministic (input : list ascii) (st : Tokenizer.state) (f1 f2 : nat)
    (r1 r2 : string + list Tok.Token) :
  Tokenizer.run f1 input st = Some r1 -> Tokenizer.run f2 input st = Some r2 -> r1 = r2.
Proof.
  intros H1 H2.
  pose proof (TokenizerFacts.run_more_fuel f1 f2 input st r1 H1) as H1'.
  pose proof (TokenizerFacts.run_more_fuel f2 f1 input st r2 H2) as H2'.
  rewrite Nat.add_comm in H2'. congruence.
Qed.

Lemma throw_at_reached (input : string) (st : Tokenizer.state) (message : string) :
  reaches (trim (chars input)) st ->
  Tokenizer.step (trim (chars input)) st = Tokenizer.Throw message ->
  parse input = Some (invalid message).
Proof.
  intros Hreach Hstep.
  destruct (run_from_reached _ st (inl message) Hreach) as [fuel Hrun].
  { exists 1. simpl. rewrite Hstep. reflexivity. }
  destruct (TokenizerFacts.tokenize_terminates input) as [r Hr].
  unfold parse. rewrite Hr. unfold Tokenizer.tokenize in Hr.
  rewrite (run_deterministic _ _ _ _ _ _ Hr Hrun). reflexivity.
Qed.

Lemma scanString_without_quote (quote : ascii) (rest : list ascii) :
  (forall pos value,
      forallb (fun c => negb (Ascii.eqb c quote)) rest = true ->
      fst (Tokenizer.scanString quote rest pos value) = pos + List.length rest)
  /\ (forall c pos value,
        forallb (fun c => negb (Ascii.eqb c quote)) (c :: rest) = true ->
        fst (Tokenizer.scanString quote (c :: rest) pos value) = pos + S (List.length rest)).
Proof.
  induction rest as [|d rest [IH1 IH2]].
  - split; [intros; simpl; lia|]. intros c pos value Hall. simpl in *.
    rewrite andb_true_r in Hall. apply negb_true_iff in Hall. rewrite Hall.
    destruct (Ascii.eqb c "\"); simpl; lia.
  - split; [apply IH2|]. intros c pos value Hall.
    rewrite TokenizerFacts.scanString_cons.
    change (forallb _ (c :: d :: rest)) with
      (negb (Ascii.eqb c quote) && forallb (fun c => negb (Ascii.eqb c quote)) (d :: rest))
      in Hall.
    apply andb_prop in Hall as [Hc Hrest]. apply negb_true_iff in Hc. rewrite Hc.
    destruct (Ascii.eqb c "\").
    + rewrite IH1; [simpl; lia|]. simpl in Hrest. apply andb_prop in Hrest as [_ Hr].
      exact Hr.
    + rewrite IH2 by exact Hrest. simpl. lia.
Qed.

Definition isQuote (c : ascii) : bool := Ascii.eqb c doubleQuote || Ascii.eqb c "'".

Lemma quote_facts (c : ascii) :
  isQuote c = true ->
  isWhitespace c = false
  /\ Ascii.eqb c "|" = false /\ Ascii.eqb c "(" = false /\ Ascii.eqb c ")" = false
  /\ Ascii.eqb c "[" = false /\ Ascii.eqb c "]" = false /\ Ascii.eqb c "," = false.
Proof. all_chars c. Qed.

Lemma step_unterminated (input : list ascii) (st : Tokenizer.state) (quote : ascii)
    (lead body : list ascii) :
  drop (Tokenizer.position st) input = lead ++ quote :: body ->
  forallb isWhitespace lead = true ->
  isQuote quote = true ->
  forallb (fun c => negb (Ascii.eqb c quote)) body = true ->
  Tokenizer.step input st =
  Tokenizer.Throw ("Unterminated string starting at position "
                   +:+ showNat (Tokenizer.position st + List.length lead)).
Proof.
  intros Hdrop Hlead Hquote Hbody.
  destruct (quote_facts quote Hquote) as (Hws & H1 & H2 & H3 & H4 & H5 & H6).
  assert (Hlen : List.length input
                 = Tokenizer.position st + List.length lead + S (List.length body)).
  { assert (Hl : List.length (drop (Tokenizer.position st) input)
                 = List.length lead + S (List.length body))
      by (rewrite Hdrop, length_app; reflexivity).
    rewrite length_drop in Hl. lia. }
  assert (Hrest : drop (Tokenizer.position st + List.length lead) input = quote :: body)
    by (apply drop_app_more; exact Hdrop).
  assert (Hskip : Tokenizer.skipWhitespace input st
                  = Tokenizer.setPosition st (Tokenizer.position st + List.length lead)).
  { unfold Tokenizer.skipWhitespace. rewrite Hdrop, (spanLength_app _ _ _ Hlead).
    simpl. rewrite Hws. f_equal. lia. }
  unfold Tokenizer.step.
  rewrite (proj2 (Nat.ltb_lt _ _)) by lia.
  rewrite Hskip. simpl Tokenizer.position.
  rewrite (drop_cons_lookup _ _ _ _ Hrest), H1, H2, H3, H4, H5, H6.
  unfold isQuote in Hquote. rewrite Hquote.
  unfold Tokenizer.tokenizeString. simpl Tokenizer.position.
  assert (Hbody' : drop (S (Tokenizer.position st + List.length lead)) input = body).
  { replace (S (Tokenizer.position st + List.length lead))
      with (Tokenizer.position st + List.length lead + List.length [quote])
      by (simpl; lia).
    apply drop_app_more. exact Hrest. }
  rewrite Hbody'.
  destruct (scanString_without_quote quote body) as [Hscan _].
  specialize (Hscan (S (Tokenizer.position st + List.length lead)) [] Hbody).
  destruct (Tokenizer.scanString _ _ _ _) as [pos value]. simpl in Hscan. subst pos.
  rewrite (proj2 (Nat.leb_le _ _)) by lia. reflexivity.
Qed.

(** C8, as the code has it.  [parse] returns for every input, and what it
    returns is either valid, or invalid with no command and exactly one
    message.  It is invalid whenever the token stream has more parentheses
    of one kind than of the other, and whenever the tokenizer comes to a
    quote that opens a literal in which the same quote does not occur
    again.  (A parenthesis or a quote inside a CSS selector segment is part
    of the selector's text and is not examined.) *)
Theorem parse_returns_and_rejects :
  (forall input : string, exists r, parse input = Some r /\ wellShaped r)
  /\ (forall (input : string) (toks : list Tok.Token),
        Tokenizer.tokenize input = Some (inr toks) ->
        parenBalance toks <> 0%Z ->
        exists message, parse input = Some (invalid message))
  /\ (forall (input : string) (st : Tokenizer.state) (quote : ascii)
             (lead body : list ascii),
        reaches (trim (chars input)) st ->
        drop (Tokenizer.position st) (trim (chars input)) = lead ++ quote :: body ->
        forallb isWhitespace lead = true ->
        isQuote quote = true ->
        forallb (fun c => negb (Ascii.eqb c quote)) body = true ->
        parse input =
        Some (invalid ("Unterminated string starting at position "
                       +:+ showNat (Tokenizer.position st + List.length lead)))).
Proof.
  split; [exact parse_total|]. split; [exact unbalanced_tokens_rejected|].
  intros input st quote lead body Hreach Hdrop Hlead Hquote Hbody.
  apply (throw_at_reached input st _ Hreach).
  apply (step_unterminated _ st quote lead body Hdrop Hlead Hquote Hbody).
Qed.

(** An argument list that is never closed. *)
Lemma parse_rejects_witness :
  exists message, parse "getProp('id'" = Some (invalid message).
Proof.
  exact (proj1 (proj2 parse_returns_and_rejects) "getProp('id'"
           [ Tok.mkToken Tok.FUNCTION_NAME "getProp" 0 7;
             Tok.mkToken Tok.OPEN_PAREN "(" 6 1;
             Tok.mkToken Tok.STRING "id" 8 2;
             Tok.mkToken Tok.EOF "" 12 0 ]
           eq_refl ltac:(discriminate)).
Defined.

(** An unmatched parenthesis and an unterminated quote inside CSS selector
    segments: both inputs parse as valid. *)
Lemma unmatched_inside_selector_is_valid :
  parse "div:not(.a" =
    Some {| commands := [CssSelector "div:not(.a"]; isValid := true; errors := [] |}
  /\ parse "a[title='x" =
    Some {| commands := [CssSelector "a[title='x"]; isValid := true; errors := [] |}.
Proof. split; reflexivity. Qed.

End ParserFacts.

(** ** Cache *)

Module CacheFacts.
Import Js.

(** The time-to-live an entry is stored with. *)
Definition storedTTL (c : Cache.t) (key : string) : option number :=
  Cache.ttl <$> (Cache.store c !! key).

Lemma set_stores (c : Cache.t) key v ttl now :
  Cache.store (Cache.set c key v ttl now) !! key =
  Some {| Cache.value := v;
          Cache.timestamp := now;
          Cache.ttl := match ttl with
                       | Some t => if truthyNumber t then t else Cache.defaultTTL c
                       | None => Cache.defaultTTL c
                       end;
          Cache.hits := 0 |}.
Proof. unfold Cache.set. simpl. apply lookup_insert_eq. Qed.

Lemma create_default_truthy (d : option number) :
  truthyNumber (Cache.defaultTTL (Cache.create d)) = true.
Proof.
  destruct d as [ttl|]; simpl; [|reflexivity].
  destruct (truthyNumber ttl) eqn:Ht; [exact Ht|reflexivity].
Qed.

(** C10, as the code has it.  [set(key, value, 0)] stores the entry with the
    cache's default time-to-live, whatever the cache, and so does [set]
    with any falsy time-to-live (0 or NaN); that default is the built-in
    60000 ms for a cache constructed without a default or with a falsy
    one (0 or NaN), and the constructor's argument when that is truthy; it
    is never 0, and no operation changes it.  So the stored time-to-live of
    such an entry is never 0. *)
Theorem zero_ttl_falls_back_to_default :
  (forall (c : Cache.t) key v now,
      storedTTL (Cache.set c key v (Some (Finite 0)) now) key = Some (Cache.defaultTTL c))
  /\ Cache.defaultTTL (Cache.create None) = Finite 60000
  /\ Cache.defaultTTL (Cache.create (Some (Finite 0))) = Finite 60000
  /\ (forall d, truthyNumber d = true -> Cache.defaultTTL (Cache.create (Some d)) = d)
  /\ (forall d, truthyNumber (Cache.defaultTTL (Cache.create d)) = true)
  /\ (forall c key v ttl now,
        Cache.defaultTTL (Cache.set c key v ttl now) = Cache.defaultTTL c)
  /\ (forall c key now,
        Cache.defaultTTL (fst (Cache.get c key now)) = Cache.defaultTTL c)
  /\ (forall d, truthyNumber d = false ->
        Cache.defaultTTL (Cache.create (Some d)) = Finite 60000)
  /\ Cache.defaultTTL (Cache.create (Some NaN)) = Finite 60000
  /\ (forall (c : Cache.t) key v ttl now,
        truthyNumber ttl = false ->
        storedTTL (Cache.set c key v (Some ttl) now) key = Some (Cache.defaultTTL c)).
Proof.
  split.
  { intros c key v now. unfold storedTTL. rewrite set_stores. reflexivity. }
  split; [reflexivity|]. split; [reflexivity|].
  split. { intros d Hd. simpl. rewrite Hd. reflexivity. }
  split; [exact create_default_truthy|].
  split; [reflexivity|].
  split.
  { intros c key now. unfold Cache.get. destruct (Cache.store c !! key) as [entry|];
      [|reflexivity]. destruct (Cache.expired entry now); reflexivity. }
  split. { intros d Hd. simpl. rewrite Hd. reflexivity. }
  split; [reflexivity|].
  intros c key v ttl now Hfalsy. unfold storedTTL. rewrite set_stores.
  cbn [fmap option_fmap option_map Cache.ttl]. rewrite Hfalsy. reflexivity.
Qed.

Lemma zero_ttl_witness :
  Cache.defaultTTL (Cache.create (Some (Finite 1000))) = Finite 1000.
Proof. exact (proj1 (proj2 (proj2 (proj2 zero_ttl_falls_back_to_default))) (Finite 1000) eq_refl). Defined.

(** On a cache constructed with the default 1000, as the cache tests
    construct it, [set(key, value, 0)] stores 1000, not the built-in
    60000. *)
Lemma zero_ttl_is_not_always_builtin :
  storedTTL (Cache.set (Cache.create (Some (Finite 1000))) "key" (Str "value")
               (Some (Finite 0)) 0) "key" = Some (Finite 1000)
  /\ Finite 1000 <> Cache.builtinTTL.
Proof. split; [reflexivity|discriminate]. Qed.

End CacheFacts.

(** ** Built-in commands and execution engine *)

Module EngineFacts.
Import Js Errors Types.

(** Once a soft error is recorded, it is the one still recorded afterwards. *)
Definition keepsFirst (before after : ExecutionContext) : Prop :=
  hadSoftError before = true ->
  hadSoftError after = true /\ softError after = softError before.

Definition handlerKeepsFirst (handler : CommandHandler) : Prop :=
  forall ctx args, keepsFirst ctx (fst (execute handler ctx args)).

Lemma keepsFirst_refl (ctx : ExecutionContext) : keepsFirst ctx ctx.
Proof. intros Hhad. split; [exact Hhad|reflexivity]. Qed.

Lemma keepsFirst_trans (a b c : ExecutionContext) :
  keepsFirst a b -> keepsFirst b c -> keepsFirst a c.
Proof.
  intros Hab Hbc Ha. destruct (Hab Ha) as [Hb Hsb]. destruct (Hbc Hb) as [Hc Hsc].
  split; [exact Hc|congruence].
Qed.

Lemma recordFirst_keeps (ctx : ExecutionContext) (err : SuperSelectorError) :
  keepsFirst ctx (recordFirst ctx err).
Proof. intros Hhad. unfold recordFirst. rewrite Hhad. split; [exact Hhad|reflexivity]. Qed.

Lemma fault_keeps (ctx : ExecutionContext) (err : SuperSelectorError) :
  keepsFirst ctx (fst (fault ctx err)).
Proof. unfold fault. destruct (errorHandling (config ctx)); apply recordFirst_keeps. Qed.

Lemma setCurrentValue_keeps (ctx : ExecutionContext) (v : Js.value) :
  keepsFirst ctx (setCurrentValue ctx v).
Proof. intros Hhad. split; [exact Hhad|reflexivity]. Qed.

(** How the registry re-throws what a handler threw. *)
Definition wrapped (name : string) (t : thrown) : thrown :=
  Raised (ErrorFactory.execution
            ("Error executing command '" +:+ name +:+ "': " +:+ thrownMessage t) None).

(** A fault resolved by the configured mode: the error is recorded unless
    one was recorded before, and the stage yields null, the default value,
    or a throw ([hard] is what the thrown error has become on its way
    out). *)
Definition resolvesFault (ctx : ExecutionContext) (err : SuperSelectorError)
    (hard : thrown -> thrown) (out : ExecutionContext * completion) : Prop :=
  fst out = recordFirst ctx err
  /\ snd out = match errorHandling (config ctx) with
               | ReturnNull => Return Null
               | ReturnDefault => Return (defaultValue (config ctx))
               | ThrowMode => Throw (hard (thrownFault ctx err))
               end.

Lemma fault_resolves (ctx : ExecutionContext) (err : SuperSelectorError) :
  resolvesFault ctx err (fun t => t) (fault ctx err).
Proof. unfold resolvesFault, fault, fallbackValue. destruct (errorHandling (config ctx)); auto. Qed.

Create HintDb first_error.
#[local] Hint Resolve keepsFirst_refl recordFirst_keeps fault_keeps setCurrentValue_keeps
  : first_error.

Section WithRuntime.
Context `{Runtime}.

Lemma cssSelectorExecute_keeps ctx selector :
  keepsFirst ctx (fst (BuiltIn.cssSelectorExecute ctx selector)).
Proof.
  unfold BuiltIn.cssSelectorExecute.
  destruct (_ || _).
  - destruct (querySelectorAll _ _) as [|[|? [|? ?]]]; auto with first_error.
  - destruct (currentValue ctx); auto with first_error.
    destruct (BuiltIn.queryEach _ _ _) as [|[|? ?]]; auto with first_error.
Qed.

Lemma propertyExecute_keeps ctx propertyName :
  keepsFirst ctx (fst (BuiltIn.propertyExecute ctx propertyName)).
Proof.
  unfold BuiltIn.propertyExecute.
  destruct (currentValue ctx);
    repeat match goal with
           | |- context [if ?b then _ else _] => destruct b
           end; simpl; auto with first_error.
Qed.

Lemma arrayAccessExecute_keeps ctx index :
  keepsFirst ctx (fst (BuiltIn.arrayAccessExecute ctx index)).
Proof.
  unfold BuiltIn.arrayAccessExecute.
  destruct (currentValue ctx); auto with first_error.
  destruct (_ && _); auto with first_error.
  destruct (if ltb index _ then _ else _); auto with first_error.
Qed.

Lemma recursivePropExecute_keeps ctx propertyName times :
  keepsFirst ctx (fst (BuiltIn.recursivePropExecute ctx propertyName times)).
Proof.
  unfold BuiltIn.recursivePropExecute.
  destruct (_ || _); auto with first_error.
  destruct (BuiltIn.descend _ _ _ _); auto with first_error.
Qed.

Lemma filterExecute_keeps label test ctx propertyName :
  keepsFirst ctx (fst (BuiltIn.filterExecute label test ctx propertyName)).
Proof.
  unfold BuiltIn.filterExecute.
  destruct (currentValue ctx);
    repeat match goal with
           | |- context [if ?b then _ else _] => destruct b
           end; simpl; auto with first_error.
Qed.

Lemma matchPropExecute_keeps ctx propertyName regexPattern :
  keepsFirst ctx (fst (BuiltIn.matchPropExecute ctx propertyName regexPattern)).
Proof.
  unfold BuiltIn.matchPropExecute.
  destruct (regExp regexPattern); [apply filterExecute_keeps|].
  destruct (errorHandling (config ctx)); simpl; auto with first_error.
Qed.

Ltac decode_args :=
  repeat match goal with
         | |- keepsFirst _ (fst (match ?x with _ => _ end)) => destruct x
         end.

Ltac handler_keeps :=
  intros ctx args; simpl; decode_args; simpl;
  auto using cssSelectorExecute_keeps, propertyExecute_keeps,
    arrayAccessExecute_keeps, recursivePropExecute_keeps,
    filterExecute_keeps, matchPropExecute_keeps with first_error.

Lemma cssSelectorCommand_keeps : handlerKeepsFirst BuiltIn.cssSelectorCommand.
Proof. handler_keeps. Qed.

Lemma propertyCommand_keeps : handlerKeepsFirst BuiltIn.propertyCommand.
Proof. handler_keeps. Qed.

Lemma arrayAccessCommand_keeps : handlerKeepsFirst BuiltIn.arrayAccessCommand.
Proof. handler_keeps. Qed.

Lemma getPropCommand_keeps : handlerKeepsFirst BuiltIn.getPropCommand.
Proof. handler_keeps. Qed.

Lemma recursivePropCommand_keeps : handlerKeepsFirst BuiltIn.recursivePropCommand.
Proof. handler_keeps. Qed.

Lemma propIncludesCommand_keeps : handlerKeepsFirst BuiltIn.propIncludesCommand.
Proof. handler_keeps; apply filterExecute_keeps. Qed.

Lemma propIncludesLowercaseCommand_keeps :
  handlerKeepsFirst BuiltIn.propIncludesLowercaseCommand.
Proof. handler_keeps; apply filterExecute_keeps. Qed.

Lemma matchPropCommand_keeps : handlerKeepsFirst BuiltIn.matchPropCommand.
Proof. handler_keeps. Qed.

Lemma builtin_handlers_keep (name : string) (handler : CommandHandler) :
  BuiltIn.registerBuiltInCommands !! name = Some handler -> handlerKeepsFirst handler.
Proof.
  unfold BuiltIn.registerBuiltInCommands, Registry.register, Registry.clear.
  intros Hh.
  repeat (apply lookup_insert_Some in Hh as [[_ <-] | [_ Hh]];
          [ solve [ auto using cssSelectorCommand_keeps, propertyCommand_keeps,
                      arrayAccessCommand_keeps, getPropCommand_keeps,
                      recursivePropCommand_keeps, propIncludesCommand_keeps,
                      propIncludesLowercaseCommand_keeps, matchPropCommand_keeps ] | ]).
  rewrite lookup_empty in Hh. discriminate.
Qed.

Definition registryKeepsFirst (reg : gmap string CommandHandler) : Prop :=
  forall name handler, reg !! name = Some handler -> handlerKeepsFirst handler.

Lemma registry_execute_keeps (reg : gmap string CommandHandler) name ctx args :
  registryKeepsFirst reg -> keepsFirst ctx (fst (Registry.execute reg name ctx args)).
Proof.
  intros Hreg. unfold Registry.execute.
  destruct (reg !! name) as [handler|] eqn:Hh; [|apply keepsFirst_refl].
  destruct (Registry.rejects handler args) as [t|[|]]; [apply keepsFirst_refl| |].
  { destruct (stringifyArgs args); apply keepsFirst_refl. }
  pose proof (Hreg name handler Hh ctx args) as Hk.
  destruct (execute handler ctx args) as [ctx' [v|t]]; exact Hk.
Qed.

Lemma executeCommand_keeps (reg : gmap string CommandHandler) command ctx :
  registryKeepsFirst reg -> keepsFirst ctx (fst (Engine.executeCommand reg command ctx)).
Proof.
  intros Hreg. destruct command; simpl;
    try (apply registry_execute_keeps; exact Hreg); auto with first_error.
  destruct (isNullish _); [apply fault_keeps|].
  destruct (Engine.isNativeMethod _ _); [apply keepsFirst_refl|].
  destruct (Registry.has reg name); [apply registry_execute_keeps; exact Hreg|].
  apply fault_keeps.
Qed.

Lemma runCommands_keeps (reg : gmap string CommandHandler) commands ctx v :
  registryKeepsFirst reg -> keepsFirst ctx (fst (Engine.runCommands reg commands ctx v)).
Proof.
  intros Hreg. revert ctx v.
  induction commands as [|command rest IH]; intros ctx v; [apply keepsFirst_refl|].
  cbn [Engine.runCommands].
  pose proof (executeCommand_keeps reg command (setCurrentValue ctx v) Hreg) as Hstep.
  destruct (Engine.executeCommand reg command (setCurrentValue ctx v)) as [ctx1 [v1|t]];
    cbn [fst] in Hstep.
  - assert (Hk : keepsFirst ctx ctx1)
      by (eapply keepsFirst_trans; [apply setCurrentValue_keeps|exact Hstep]).
    destruct (isUndefined v1 && negb (hadSoftError ctx1) && _) eqn:Hpromote.
    + apply andb_prop in Hpromote as [Hp _]. apply andb_prop in Hp as [_ Hno].
      apply negb_true_iff in Hno.
      intros Hhad. destruct (Hk Hhad) as [Hyes _]. congruence.
    + eapply keepsFirst_trans; [exact Hk|apply IH].
  - eapply keepsFirst_trans; [apply setCurrentValue_keeps|exact Hstep].
Qed.

Lemma executeCommands_keeps (reg : gmap string CommandHandler) engine commands ctx :
  registryKeepsFirst reg ->
  keepsFirst ctx (fst (snd (Engine.executeCommands reg engine commands ctx))).
Proof.
  intros Hreg. unfold Engine.executeCommands.
  destruct (_ <? _)%Z; [apply keepsFirst_refl|]. apply runCommands_keeps. exact Hreg.
Qed.

(** What [execute] reports when the commands return: the recorded error,
    if any. *)
Lemma executeUncached_reports (reg : gmap string CommandHandler) engine commands ctx
    cacheKey storeTime ctx' v :
  snd (Engine.executeCommands reg engine commands ctx) = (ctx', Return v) ->
  snd (Engine.executeUncached reg engine commands ctx cacheKey storeTime) =
  {| success := negb (hadSoftError ctx');
     value := v;
     error := if hadSoftError ctx' then softError ctx' else None;
     metadata := {| commandsExecuted := List.length commands; cacheHit := false |} |}.
Proof.
  intros Hrun. unfold Engine.executeUncached.
  destruct (Engine.executeCommands reg engine commands ctx) as [engine' [ctx1 c]].
  simpl in Hrun. injection Hrun as -> ->. reflexivity.
Qed.

(** *** Dispatch through the registry *)

Definition throughRegistry (name : string) (out : ExecutionContext * completion)
    : ExecutionContext * completion :=
  match out with
  | (ctx, Return v) => (ctx, Return v)
  | (ctx, Throw t) => (ctx, Throw (wrapped name t))
  end.

Lemma registry_execute_accepted (reg : gmap string CommandHandler) name handler check
    ctx args :
  reg !! name = Some handler ->
  validate handler = Some check -> check args = inr true ->
  Registry.execute reg name ctx args = throughRegistry name (execute handler ctx args).
Proof.
  intros Hh Hv Hc. unfold Registry.execute, Registry.rejects. rewrite Hh, Hv, Hc. simpl.
  destruct (execute handler ctx args) as [ctx' [v|t]]; reflexivity.
Qed.


(** What a fault of a built-in command leaves behind, field by field: the
    flag is set, the error held is the first one recorded, which is [err]
    unless one was there before, and nothing else has moved. *)
Definition faultRecorded (ctx : ExecutionContext) (err : SuperSelectorError)
    (after : ExecutionContext) : Prop :=
  hadSoftError after = true
  /\ softError after = (if hadSoftError ctx then softError ctx else Some err)
  /\ element after = element ctx
  /\ currentValue after = currentValue ctx
  /\ config after = config ctx.

(** What the stage of the command [name] yields at a fault: null, the
    configured default, or a throw; the throw leaves the registry as an
    execution error that quotes the message of the first error recorded. *)
Definition faultYields (name : string) (ctx : ExecutionContext) (err : SuperSelectorError)
    (c : completion) : Prop :=
  c = match errorHandling (config ctx) with
      | ReturnNull => Return Null
      | ReturnDefault => Return (defaultValue (config ctx))
      | ThrowMode =>
          Throw (Raised
            {| code := EXECUTION_ERROR;
               message :=
                 "Error executing command '" +:+ name +:+ "': "
                 +:+ match (if hadSoftError ctx then softError ctx else Some err) with
                     | Some first => message first
                     | None => "undefined"
                     end;
               command := None |})
      end.

Lemma fault_through_registry_recorded (name : string) ctx err :
  faultRecorded ctx err (fst (throughRegistry name (fault ctx err)))
  /\ faultYields name ctx err (snd (throughRegistry name (fault ctx err))).
Proof.
  unfold faultRecorded, faultYields, fault, fallbackValue, recordFirst, thrownFault,
    setSoftError, wrapped.
  destruct ctx as [el cv cfg had first]. cbn [hadSoftError softError config element
    currentValue].
  destruct (errorHandling cfg), had; cbn -[append]; try destruct first;
    repeat split; reflexivity.
Qed.

(** *** Array access *)

Lemma arrayAccess_dispatch ctx index :
  Engine.executeCommand BuiltIn.registerBuiltInCommands (Ast.ArrayAccess index) ctx =
  throughRegistry "array-access" (BuiltIn.arrayAccessExecute ctx (Finite index)).
Proof.
  simpl.
  exact (registry_execute_accepted BuiltIn.registerBuiltInCommands "array-access"
           BuiltIn.arrayAccessCommand _ ctx [Num (Finite index)]
           eq_refl eq_refl eq_refl).
Qed.

Lemma arrayAccess_in_range ctx items (index actual : Z) :
  currentValue ctx = Arr items ->
  actual = (if (index <? 0)%Z then Z.of_nat (List.length items) + index else index)%Z ->
  (0 <= actual < Z.of_nat (List.length items))%Z ->
  BuiltIn.arrayAccessExecute ctx (Finite index) =
  (ctx, Return (default Undefined (items !! Z.to_nat actual))).
Proof.
  intros Hcv -> Hrange. unfold BuiltIn.arrayAccessExecute. rewrite Hcv. simpl.
  destruct (index <? 0)%Z; simpl;
    rewrite (proj2 (Z.leb_le _ _)), (proj2 (Z.ltb_lt _ _)) by lia; reflexivity.
Qed.

Lemma arrayAccess_out_of_range ctx items (index actual : Z) :
  currentValue ctx = Arr items ->
  actual = (if (index <? 0)%Z then Z.of_nat (List.length items) + index else index)%Z ->
  (actual < 0 \/ Z.of_nat (List.length items) <= actual)%Z ->
  BuiltIn.arrayAccessExecute ctx (Finite index) =
  fault ctx (ErrorFactory.execution
    ("Index " +:+ Chars.showZ index +:+ " out of bounds for array of length "
     +:+ Chars.showZ (Z.of_nat (List.length items))) None).
Proof.
  intros Hcv -> Hrange. unfold BuiltIn.arrayAccessExecute. rewrite Hcv. simpl.
  destruct (index <? 0)%Z; simpl.
  - destruct (Z.leb_spec 0 (Z.of_nat (List.length items) + index));
      destruct (Z.ltb_spec (Z.of_nat (List.length items) + index)
                  (Z.of_nat (List.length items))); simpl; try reflexivity; lia.
  - destruct (Z.leb_spec 0 index);
      destruct (Z.ltb_spec index (Z.of_nat (List.length items)));
      simpl; try reflexivity; lia.
Qed.

(** C6.  An index access on an array of length N: index -1 yields element
    N-1 and, in general, a negative index i yields element N+i when that is
    in range; a non-negative index below N yields that element; index N, as
    any index out of range, is a fault, and so is an index access on
    anything that is not an array.  At a fault the context has its flag set
    and holds the error, unless one was recorded before, which then stays;
    the stage yields null, the configured default, or throws, by the
    configured mode. *)
Theorem array_access_resolution (ctx : ExecutionContext) (index : Z) :
  let out :=
    Engine.executeCommand BuiltIn.registerBuiltInCommands (Ast.ArrayAccess index) ctx in
  (forall items : list Js.value,
      currentValue ctx = Arr items ->
      let N := Z.of_nat (List.length items) in
      (index = (-1)%Z -> items <> [] ->
       exists x, items !! (List.length items - 1) = Some x /\ out = (ctx, Return x))
      /\ ((index < 0)%Z -> (0 <= N + index)%Z ->
          exists x, items !! Z.to_nat (N + index) = Some x /\ out = (ctx, Return x))
      /\ ((0 <= index < N)%Z ->
          exists x, items !! Z.to_nat index = Some x /\ out = (ctx, Return x))
      /\ ((index = N \/ N < index \/ N + index < 0)%Z ->
          let err :=
            {| code := EXECUTION_ERROR;
               message := "Index " +:+ Chars.showZ index
                          +:+ " out of bounds for array of length " +:+ Chars.showZ N;
               command := None |} in
          faultRecorded ctx err (fst out) /\ faultYields "array-access" ctx err (snd out)))
  /\ (isArray (currentValue ctx) = false ->
      let err :=
        {| code := EXECUTION_ERROR;
           message := "Cannot apply array access to non-array type: "
                      +:+ typeofName (typeof (currentValue ctx));
           command := None |} in
      faultRecorded ctx err (fst out) /\ faultYields "array-access" ctx err (snd out)).
Proof.
  cbv zeta. rewrite arrayAccess_dispatch. split.
  - intros items Hcv.
    assert (Hhit : forall actual : Z,
              actual = (if (index <? 0)%Z
                        then Z.of_nat (List.length items) + index else index)%Z ->
              (0 <= actual < Z.of_nat (List.length items))%Z ->
              exists x, items !! Z.to_nat actual = Some x
                        /\ throughRegistry "array-access"
                             (BuiltIn.arrayAccessExecute ctx (Finite index)) = (ctx, Return x)).
    { intros actual Hactual Hrange.
      destruct (lookup_lt_is_Some_2 items (Z.to_nat actual)) as [x Hx]; [lia|].
      exists x. split; [exact Hx|].
      rewrite (arrayAccess_in_range ctx items index actual Hcv Hactual Hrange), Hx.
      reflexivity. }
    split; [|split; [|split]].
    + intros -> Hne. destruct items as [|y items']; [congruence|].
      destruct (Hhit (Z.of_nat (List.length (y :: items')) + -1)%Z eq_refl) as (x & Hx & Hout);
        [simpl List.length; lia|].
      exists x. split; [|exact Hout].
      replace (List.length (y :: items') - 1)
        with (Z.to_nat (Z.of_nat (List.length (y :: items')) + -1)) by (simpl List.length; lia).
      exact Hx.
    + intros Hneg Hlow. apply Hhit; [|lia].
      rewrite (proj2 (Z.ltb_lt _ _) Hneg). reflexivity.
    + intros Hrange. apply Hhit; [|lia].
      rewrite (proj2 (Z.ltb_ge _ _)) by lia. reflexivity.
    + intros Hout.
      rewrite (arrayAccess_out_of_range ctx items index _ Hcv eq_refl).
      * apply fault_through_registry_recorded.
      * destruct (Z.ltb_spec index 0); lia.
  - intros Hna. unfold BuiltIn.arrayAccessExecute.
    destruct (currentValue ctx); try discriminate; apply fault_through_registry_recorded.
Qed.

(** *** Recursive property descent *)





Definition numTimes (times : string + number) : number :=
  match times with inl text => parseInt text | inr n => n end.


(** Leaving [times] out is asking for one step. *)
Lemma recursiveProp_default_times ctx propertyName :
  Registry.execute BuiltIn.registerBuiltInCommands "recursiveProp" ctx [Str propertyName] =
  Registry.execute BuiltIn.registerBuiltInCommands "recursiveProp" ctx
    [Str propertyName; Num (Finite 1)].
Proof.
  rewrite (registry_execute_accepted BuiltIn.registerBuiltInCommands "recursiveProp"
             BuiltIn.recursivePropCommand _ ctx [Str propertyName] eq_refl eq_refl eq_refl).
  rewrite (registry_execute_accepted BuiltIn.registerBuiltInCommands "recursiveProp"
             BuiltIn.recursivePropCommand _ ctx [Str propertyName; Num (Finite 1)]
             eq_refl eq_refl eq_refl).
  reflexivity.
Qed.


(** *** Property access on arrays *)

Lemma property_dispatch ctx propertyName :
  Engine.executeCommand BuiltIn.registerBuiltInCommands (Ast.Property propertyName) ctx =
  throughRegistry "property" (BuiltIn.propertyExecute ctx propertyName).
Proof.
  exact (registry_execute_accepted BuiltIn.registerBuiltInCommands "property"
           BuiltIn.propertyCommand _ ctx [Str propertyName] eq_refl eq_refl eq_refl).
Qed.


(** *** The result of [execute] *)

Lemma executeCommands_ignores_cache (reg : gmap string CommandHandler) engine c commands ctx :
  snd (Engine.executeCommands reg (Engine.withCache engine c) commands ctx) =
  snd (Engine.executeCommands reg engine commands ctx).
Proof. unfold Engine.executeCommands. simpl. destruct (_ <? _)%Z; reflexivity. Qed.

Definition cacheMiss (engine : Engine.t) (commands : list Ast.Command)
    (element : Js.value) (config : SuperSelectorConfig) (lookupTime : Z) : Prop :=
  cacheEnabled config = true ->
  snd (Cache.get (Engine.cache engine) (Engine.generateCacheKey commands element)
         lookupTime) = Null.

Definition cacheHitValue (engine : Engine.t) (commands : list Ast.Command)
    (element : Js.value) (config : SuperSelectorConfig) (lookupTime : Z)
    (cached : Js.value) : Prop :=
  cacheEnabled config = true
  /\ snd (Cache.get (Engine.cache engine) (Engine.generateCacheKey commands element)
            lookupTime) = cached
  /\ isNull cached = false.

Lemma execute_without_throw (reg : gmap string CommandHandler) engine commands element
    config lookupTime storeTime ctx' v :
  cacheMiss engine commands element config lookupTime ->
  snd (Engine.executeCommands reg engine commands (Engine.initialContext element config))
    = (ctx', Return v) ->
  snd (Engine.execute reg engine commands element config lookupTime storeTime) =
  {| success := negb (hadSoftError ctx');
     value := v;
     error := if hadSoftError ctx' then softError ctx' else None;
     metadata := {| commandsExecuted := List.length commands; cacheHit := false |} |}.
Proof.
  intros Hmiss Hrun. unfold Engine.execute.
  destruct (cacheEnabled config) eqn:Hcache.
  - specialize (Hmiss Hcache).
    destruct (Cache.get _ _ _) as [c cached]. simpl in Hmiss. subst cached. simpl.
    apply executeUncached_reports. rewrite executeCommands_ignores_cache. exact Hrun.
  - apply executeUncached_reports. exact Hrun.
Qed.

Lemma execute_on_hit (reg : gmap string CommandHandler) engine commands element
    config lookupTime storeTime cached :
  cacheHitValue engine commands element config lookupTime cached ->
  snd (Engine.execute reg engine commands element config lookupTime storeTime) =
  {| success := negb (hadSoftError (Engine.initialContext element config));
     value := cached;
     error := None;
     metadata := {| commandsExecuted := 0; cacheHit := true |} |}.
Proof.
  intros (Hcache & Hget & Hnn). unfold Engine.execute. rewrite Hcache.
  destruct (Cache.get _ _ _) as [c got]. simpl in Hget. subst got. rewrite Hnn.
  reflexivity.
Qed.

(** *** Native methods *)

Lemma primitive_is_never_native (v : Js.value) (methodName : string) :
  isObjectType v = false -> isFunctionType v = false ->
  Engine.isNativeMethod v methodName = false.
Proof.
  intros Ho Hf. unfold Engine.isNativeMethod. rewrite Ho, Hf. simpl.
  rewrite orb_true_r. reflexivity.
Qed.

Lemma native_method_first (reg : gmap string CommandHandler) ctx name args f :
  isNullish (currentValue ctx) = false ->
  (isObjectType (currentValue ctx) || isFunctionType (currentValue ctx)) = true ->
  BuiltIn.getMember (currentValue ctx) name = Fun f ->
  Engine.executeCommand reg (Ast.FunctionCall name args) ctx =
  (ctx, match call f (currentValue ctx) (map Engine.convertArg args) with
        | inr result => Return result
        | inl text =>
            Throw (Raised (ErrorFactory.execution
              ("Error calling native method '" +:+ name +:+ "': " +:+ text) None))
        end).
Proof.
  intros Hnn Hobj Hf. simpl. rewrite Hnn.
  assert (Hnative : Engine.isNativeMethod (currentValue ctx) name = true).
  { unfold Engine.isNativeMethod. rewrite Hnn, Hf. simpl.
    apply orb_prop in Hobj as [-> | ->]; simpl; [reflexivity|].
    rewrite andb_false_r. reflexivity. }
  rewrite Hnative. unfold Engine.executeNativeMethod. rewrite Hf. reflexivity.
Qed.

(** *** An invalid pattern in [matchProp] *)

Lemma matchProp_dispatch ctx propertyName regexPattern :
  Registry.execute BuiltIn.registerBuiltInCommands "matchProp" ctx
    [Str propertyName; Str regexPattern] =
  throughRegistry "matchProp" (BuiltIn.matchPropExecute ctx propertyName regexPattern).
Proof.
  exact (registry_execute_accepted BuiltIn.registerBuiltInCommands "matchProp"
           BuiltIn.matchPropCommand _ ctx [Str propertyName; Str regexPattern]
           eq_refl eq_refl eq_refl).
Qed.

Lemma matchProp_invalid_pattern ctx propertyName regexPattern :
  regExp regexPattern = None ->
  let errRegex := ErrorFactory.validation ("Invalid regex pattern: " +:+ regexPattern) in
  Registry.execute BuiltIn.registerBuiltInCommands "matchProp" ctx
    [Str propertyName; Str regexPattern] =
  match errorHandling (config ctx) with
  | ThrowMode => (ctx, Throw (wrapped "matchProp" (Raised errRegex)))
  | _ => (recordFirst ctx errRegex, Return (fallbackValue ctx))
  end.
Proof.
  intros Hbad. cbv zeta. rewrite matchProp_dispatch. unfold BuiltIn.matchPropExecute.
  rewrite Hbad. destruct (errorHandling (config ctx)); reflexivity.
Qed.

(** C9.  Once [hadSoftError] is set, the stored [softError] stays: every
    built-in handler, every stage the engine runs (the promotion of an
    undefined result included) and the whole command loop leave the flag set
    and the stored error as it was; and an execution that returns reports
    that stored error. *)
Theorem first_soft_error_is_retained :
  (forall name handler,
      BuiltIn.registerBuiltInCommands !! name = Some handler -> handlerKeepsFirst handler)
  /\ (forall command ctx,
        keepsFirst ctx
          (fst (Engine.executeCommand BuiltIn.registerBuiltInCommands command ctx)))
  /\ (forall commands ctx v,
        keepsFirst ctx
          (fst (Engine.runCommands BuiltIn.registerBuiltInCommands commands ctx v)))
  /\ (forall engine commands element config lookupTime storeTime ctx' v,
        cacheMiss engine commands element config lookupTime ->
        snd (Engine.executeCommands BuiltIn.registerBuiltInCommands engine commands
               (Engine.initialContext element config)) = (ctx', Return v) ->
        hadSoftError ctx' = true ->
        error (snd (Engine.execute BuiltIn.registerBuiltInCommands engine commands
                      element config lookupTime storeTime)) = softError ctx').
Proof.
  split; [exact builtin_handlers_keep|].
  split; [intros; apply executeCommand_keeps; exact builtin_handlers_keep|].
  split; [intros; apply runCommands_keeps; exact builtin_handlers_keep|].
  intros engine commands element config lookupTime storeTime ctx' v Hmiss Hrun Hhad.
  rewrite (execute_without_throw _ _ _ _ _ _ storeTime _ _ Hmiss Hrun). simpl.
  rewrite Hhad. reflexivity.
Qed.

End WithRuntime.

(** *** On the sample host *)

Definition scenarioD : option ExecutionResult :=
  Sample.runPipeline "items | getProp('id')" Sample.itemsDocument ReturnNull Null.

Definition idsWithGap : Js.value :=
  Arr [Num (Finite 1); Num (Finite 2); Null].

Lemma scenarioD_result :
  scenarioD =
  Some {| success := false;
          value := idsWithGap;
          error := Some (ErrorFactory.execution
                     "Property 'id' not found on one or more items in array" None);
          metadata := {| commandsExecuted := 2; cacheHit := false |} |}.
Proof. reflexivity. Qed.

(** C2.  When the commands return rather than throw, [success] is the
    negation of the context's [hadSoftError] and [value] is the value the
    commands computed (a cache hit runs no command: nothing was recorded
    and [success] is true).  The mode hypothesis is the claim's; the proof
    does not need it.  Scenario D is such a result: [success] is false and
    the value is [[1,2,null]]. *)
Theorem success_flag_is_no_soft_error :
  (forall (R : Runtime) (reg : gmap string CommandHandler) engine commands element config
          lookupTime storeTime,
      errorHandling config <> ThrowMode ->
      (forall ctx' v,
          cacheMiss engine commands element config lookupTime ->
          snd (Engine.executeCommands reg engine commands
                 (Engine.initialContext element config)) = (ctx', Return v) ->
          success (snd (Engine.execute reg engine commands element config
                          lookupTime storeTime)) = negb (hadSoftError ctx')
          /\ value (snd (Engine.execute reg engine commands element config
                           lookupTime storeTime)) = v)
      /\ (forall cached,
            cacheHitValue engine commands element config lookupTime cached ->
            success (snd (Engine.execute reg engine commands element config
                            lookupTime storeTime))
            = negb (hadSoftError (Engine.initialContext element config))))
  /\ (exists r, scenarioD = Some r /\ success r = false /\ value r = idsWithGap
                /\ isNull (value r) = false).
Proof.
  split.
  - intros R reg engine commands element config lookupTime storeTime _. split.
    + intros ctx' v Hmiss Hrun.
      rewrite (execute_without_throw _ _ _ _ _ _ storeTime _ _ Hmiss Hrun). split; reflexivity.
    + intros cached Hhit. rewrite (execute_on_hit _ _ _ _ _ _ storeTime _ Hhit). reflexivity.
  - eexists. split; [exact scenarioD_result|]. repeat split.
Qed.

Lemma success_flag_witness :
  let r := snd (@Engine.execute Sample.runtime Sample.builtins Sample.engine
                  [Ast.CssSelector "items"; Ast.FunctionCall "getProp" ["id"]]
                  Sample.itemsDocument (Sample.configWith ReturnNull Null) 0 0) in
  success r = false /\ value r = idsWithGap.
Proof.
  pose (out := snd (@Engine.executeCommands Sample.runtime Sample.builtins Sample.engine
                      [Ast.CssSelector "items"; Ast.FunctionCall "getProp" ["id"]]
                      (Engine.initialContext Sample.itemsDocument
                         (Sample.configWith ReturnNull Null)))).
  destruct (proj1 success_flag_is_no_soft_error Sample.runtime Sample.builtins
              Sample.engine [Ast.CssSelector "items"; Ast.FunctionCall "getProp" ["id"]]
              Sample.itemsDocument (Sample.configWith ReturnNull Null) 0%Z 0%Z
              ltac:(discriminate)) as [Hreturn _].
  exact (Hreturn (fst out) idsWithGap ltac:(intros Hc; discriminate Hc) eq_refl).
Defined.




Definition letters : list Js.value := [Str "a"; Str "b"; Str "c"].

(** A context in return-default mode, with a default to tell from null. *)
Definition lettersContext : ExecutionContext :=
  {| element := Obj DocumentNode []; currentValue := Arr letters;
     config := Sample.configWith ReturnDefault (Str "none");
     hadSoftError := false; softError := None |}.

(** C6 on the sample host: index -1 of a three-item array is its third
    item; index 3 records the error and yields the default. *)
Lemma array_access_witness :
  (exists x,
      letters !! (3 - 1) = Some x
      /\ @Engine.executeCommand Sample.runtime Sample.builtins (Ast.ArrayAccess (-1))
           lettersContext
         = (lettersContext, Return x))
  /\ (hadSoftError
        (fst (@Engine.executeCommand Sample.runtime Sample.builtins (Ast.ArrayAccess 3)
                lettersContext)) = true
      /\ softError
           (fst (@Engine.executeCommand Sample.runtime Sample.builtins (Ast.ArrayAccess 3)
                   lettersContext))
         = Some {| code := EXECUTION_ERROR;
                   message := "Index 3 out of bounds for array of length 3";
                   command := None |}
      /\ snd (@Engine.executeCommand Sample.runtime Sample.builtins (Ast.ArrayAccess 3)
                lettersContext)
         = Return (Str "none")).
Proof.
  split.
  - exact (proj1 (proj1 (@array_access_resolution Sample.runtime lettersContext (-1)%Z)
                    letters eq_refl)
             eq_refl ltac:(discriminate)).
  - pose proof (proj2 (proj2 (proj2
        (proj1 (@array_access_resolution Sample.runtime lettersContext 3%Z)
           letters eq_refl)))
        (or_introl eq_refl)) as [(Hflag & Herror & _) Hyield].
    split; [exact Hflag|]. split; [exact Herror|exact Hyield].
Defined.




Definition firstError : SuperSelectorError :=
  ErrorFactory.execution "recorded first" None.

(** C9 on the sample host: two faulting stages after a recorded error leave
    that error in place. *)
Lemma first_soft_error_witness :
  let ctx := setSoftError (Sample.contextOf (Arr []) ReturnNull) firstError in
  let after := fst (@Engine.runCommands Sample.runtime Sample.builtins
                      [Ast.ArrayAccess 5; Ast.Property "x"] ctx (Arr [])) in
  hadSoftError after = true /\ softError after = Some firstError.
Proof.
  exact (proj1 (proj2 (proj2 (@first_soft_error_is_retained Sample.runtime)))
           [Ast.ArrayAccess 5; Ast.Property "x"]
           (setSoftError (Sample.contextOf (Arr []) ReturnNull) firstError) (Arr [])
           eq_refl).
Defined.

(** C3 at the failing input.  The string ["  Hello "] exposes a function
    [trim] that would return ["Hello"], as the README's
    ["element | textContent | trim()"] expects; [isNativeMethod] refuses
    every value that is not an object or a function, the registry has no
    [trim], and the stage ends as an unknown command. *)
Theorem native_string_method_is_not_called :
  @BuiltIn.getMember Sample.runtime (Str "  Hello ") "trim" = Fun "String.prototype.trim"
  /\ @call Sample.runtime "String.prototype.trim" (Str "  Hello ") [] = inr (Str "Hello")
  /\ @Engine.isNativeMethod Sample.runtime (Str "  Hello ") "trim" = false
  /\ Sample.runPipeline "h1 | textContent | trim()" Sample.page ReturnNull Null =
     Some {| success := false;
             value := Null;
             error := Some (ErrorFactory.execution "Unknown method or command: trim"
                              (Some (Ast.FunctionCall "trim" [])));
             metadata := {| commandsExecuted := 3; cacheHit := false |} |}.
Proof. repeat split. Qed.

(** C5 at the failing input.  In throw mode [matchProp] throws a validation
    error for a pattern that does not compile, and the registry re-throws it
    as an execution error: the caller sees [EXECUTION_ERROR].  In the other
    modes the recorded error is the validation error. *)
Theorem invalid_pattern_thrown_as_execution_error :
  @regExp Sample.runtime "[" = None
  /\ snd (@BuiltIn.matchPropExecute Sample.runtime
            (Sample.contextOf Sample.items ThrowMode) "id" "[")
     = Throw (Raised (ErrorFactory.validation "Invalid regex pattern: ["))
  /\ Sample.runPipeline "items | matchProp('id', '[')" Sample.itemsDocument ThrowMode Null =
     Some {| success := false;
             value := Null;
             error := Some {| code := EXECUTION_ERROR;
                              message := "Error executing command 'matchProp': Invalid regex pattern: [";
                              command := None |};
             metadata := {| commandsExecuted := 0; cacheHit := false |} |}
  /\ Sample.runPipeline "items | matchProp('id', '[')" Sample.itemsDocument ReturnNull Null =
     Some {| success := false;
             value := Null;
             error := Some {| code := VALIDATION_ERROR;
                              message := "Invalid regex pattern: [";
                              command := None |};
             metadata := {| commandsExecuted := 2; cacheHit := false |} |}.
Proof. repeat split. Qed.

End EngineFacts.

(** * Further properties

    Properties of the code module by module: edge cases, invariants, round
    trips, and what it never does. *)

(** ** Cache *)

Module CacheLaws.
Import Js.

(** X1.  An entry lives exactly as long as its time-to-live.  Stored at
    [now] with the time-to-live [t], it is what [get] returns at every time
    up to [now + t], and that is its first hit; later than that, [get]
    returns null and evicts it, and [has] denies it. *)
Theorem entry_lives_for_its_ttl (c : Cache.t) key v ttl (now later t : Z) :
  CacheFacts.storedTTL (Cache.set c key v ttl now) key = Some (Finite t) ->
  ((later - now <= t)%Z ->
     snd (Cache.get (Cache.set c key v ttl now) key later) = v
     /\ Cache.hits <$> (Cache.store (fst (Cache.get (Cache.set c key v ttl now) key later)) !! key)
        = Some 1)
  /\ ((t < later - now)%Z ->
     snd (Cache.get (Cache.set c key v ttl now) key later) = Null
     /\ Cache.store (fst (Cache.get (Cache.set c key v ttl now) key later)) !! key = None
     /\ snd (Cache.has (Cache.set c key v ttl now) key later) = false).
Proof.
  unfold CacheFacts.storedTTL. rewrite CacheFacts.set_stores.
  cbn [fmap option_fmap option_map Cache.ttl].
  intros Httl. injection Httl as Httl.
  unfold Cache.get, Cache.has. rewrite CacheFacts.set_stores.
  unfold Cache.expired. cbn [Cache.ttl Cache.timestamp Cache.value Cache.hits].
  rewrite Httl. cbn [ltb].
  split; intros Hage.
  - destruct (Z.ltb_spec t (later - now)); [lia|]. cbn [fst snd Cache.store].
    split; [reflexivity|]. rewrite lookup_insert_eq. reflexivity.
  - destruct (Z.ltb_spec t (later - now)); [|lia]. cbn [fst snd Cache.store].
    split; [reflexivity|]. split; [|reflexivity]. apply lookup_delete_eq.
Qed.

Lemma entry_lives_witness :
  snd (Cache.get (Cache.set (Cache.create (Some (Finite 1000))) "key" (Str "value") None 0)
         "key" 1000) = Str "value"
  /\ snd (Cache.get (Cache.set (Cache.create (Some (Finite 1000))) "key" (Str "value") None 0)
         "key" 1001) = Null.
Proof.
  pose proof (entry_lives_for_its_ttl (Cache.create (Some (Finite 1000))) "key"
                (Str "value") None 0 1000 1000 eq_refl) as Hin.
  pose proof (entry_lives_for_its_ttl (Cache.create (Some (Finite 1000))) "key"
                (Str "value") None 0 1001 1000 eq_refl) as Hout.
  split.
  - exact (proj1 (proj1 Hin ltac:(lia))).
  - exact (proj1 (proj2 Hout ltac:(lia))).
Defined.

Lemma get_value (c : Cache.t) key now :
  snd (Cache.get c key now) =
  match Cache.store c !! key with
  | Some entry => if Cache.expired entry now then Null else Cache.value entry
  | None => Null
  end.
Proof.
  unfold Cache.get. destruct (Cache.store c !! key) as [entry|]; [|reflexivity].
  destruct (Cache.expired entry now); reflexivity.
Qed.

Lemma has_value (c : Cache.t) key now :
  snd (Cache.has c key now) =
  match Cache.store c !! key with
  | Some entry => negb (Cache.expired entry now)
  | None => false
  end.
Proof.
  unfold Cache.has. destruct (Cache.store c !! key) as [entry|]; [|reflexivity].
  destruct (Cache.expired entry now); reflexivity.
Qed.

Lemma cleanup_lookup (c : Cache.t) now key :
  Cache.store (Cache.cleanup c now) !! key =
  match Cache.store c !! key with
  | Some entry => if Cache.expired entry now then None else Some entry
  | None => None
  end.
Proof.
  unfold Cache.cleanup. cbn [Cache.store].
  rewrite map_lookup_filter.
  destruct (Cache.store c !! key) as [entry|]; [|reflexivity].
  cbn. destruct (Cache.expired entry now) eqn:He.
  - rewrite option_guard_False; [reflexivity|]. cbn. congruence.
  - rewrite option_guard_True; [reflexivity|]. cbn. reflexivity.
Qed.

(** X2.  [cleanup] removes the expired entries and no other, so that no lookup
    made at that time can tell that it ran. *)
Theorem cleanup_removes_the_expired (c : Cache.t) (now : Z) :
  (forall key entry,
      Cache.store (Cache.cleanup c now) !! key = Some entry <->
      Cache.store c !! key = Some entry /\ Cache.expired entry now = false)
  /\ (forall key, snd (Cache.get (Cache.cleanup c now) key now) = snd (Cache.get c key now))
  /\ (forall key, snd (Cache.has (Cache.cleanup c now) key now) = snd (Cache.has c key now))
  /\ Cache.size (Cache.cleanup c now) <= Cache.size c.
Proof.
  split; [|split; [|split]].
  - intros key entry. rewrite cleanup_lookup.
    destruct (Cache.store c !! key) as [e|]; [|split; [discriminate|intros [? _]; discriminate]].
    destruct (Cache.expired e now) eqn:He; split.
    + discriminate.
    + intros [[= ->] Hx]. congruence.
    + intros [= ->]. split; [reflexivity|exact He].
    + intros [[= ->] _]. reflexivity.
  - intros key. rewrite !get_value, cleanup_lookup.
    destruct (Cache.store c !! key) as [e|]; [|reflexivity].
    destruct (Cache.expired e now) eqn:He; [reflexivity|]. rewrite He. reflexivity.
  - intros key. rewrite !has_value, cleanup_lookup.
    destruct (Cache.store c !! key) as [e|]; [|reflexivity].
    destruct (Cache.expired e now) eqn:He; [reflexivity|]. rewrite He. reflexivity.
  - unfold Cache.size, Cache.cleanup. cbn [Cache.store].
    apply map_size_filter.
Qed.


Lemma get_store_other (c : Cache.t) key key' now :
  key' <> key ->
  Cache.store (fst (Cache.get c key now)) !! key' = Cache.store c !! key'.
Proof.
  intros Hne. unfold Cache.get. destruct (Cache.store c !! key) as [entry|]; [|reflexivity].
  destruct (Cache.expired entry now); cbn [fst Cache.store].
  - apply lookup_delete_ne. congruence.
  - apply lookup_insert_ne. congruence.
Qed.

Lemma has_store_other (c : Cache.t) key key' now :
  key' <> key ->
  Cache.store (fst (Cache.has c key now)) !! key' = Cache.store c !! key'.
Proof.
  intros Hne. unfold Cache.has. destruct (Cache.store c !! key) as [entry|]; [|reflexivity].
  destruct (Cache.expired entry now); cbn [fst Cache.store]; [|reflexivity].
  apply lookup_delete_ne. congruence.
Qed.

(** X3.  Whatever is done to one key, every other key answers as before. *)
Theorem other_keys_are_undisturbed (c : Cache.t) key key' v ttl (now later : Z) :
  key' <> key ->
  snd (Cache.get (fst (Cache.get c key now)) key' later) = snd (Cache.get c key' later)
  /\ snd (Cache.get (fst (Cache.has c key now)) key' later) = snd (Cache.get c key' later)
  /\ snd (Cache.get (fst (Cache.delete c key)) key' later) = snd (Cache.get c key' later)
  /\ snd (Cache.get (Cache.set c key v ttl now) key' later) = snd (Cache.get c key' later).
Proof.
  intros Hne. rewrite !get_value.
  rewrite get_store_other, has_store_other by exact Hne.
  unfold Cache.delete, Cache.set. cbn [fst Cache.store].
  rewrite lookup_delete_ne, lookup_insert_ne by congruence.
  repeat split; reflexivity.
Qed.

Lemma other_keys_witness :
  snd (Cache.get (fst (Cache.delete (Cache.set (Cache.set (Cache.create None)
         "a" (Str "1") None 0) "b" (Str "2") None 0) "a")) "b" 5) = Str "2".
Proof.
  exact (eq_trans
    (proj1 (proj2 (proj2 (other_keys_are_undisturbed
       (Cache.set (Cache.set (Cache.create None) "a" (Str "1") None 0) "b" (Str "2") None 0)
       "a" "b" Null None 0 5 ltac:(discriminate)))))
    eq_refl).
Defined.

(** X4.  Once a key is reported missing, be it absent or expired, it stays
    missing at every later time, and the lookup that found it expired has
    evicted it. *)
Theorem expiry_is_final (c : Cache.t) key (now later : Z) :
  (now <= later)%Z ->
  snd (Cache.has c key now) = false ->
  snd (Cache.has c key later) = false
  /\ snd (Cache.get c key later) = Null
  /\ Cache.store (fst (Cache.has c key now)) !! key = None
  /\ Cache.store (fst (Cache.get c key now)) !! key = None.
Proof.
  intros Hle. rewrite !has_value, get_value. unfold Cache.has, Cache.get.
  destruct (Cache.store c !! key) as [entry|] eqn:Hk.
  - intros Hx. apply negb_false_iff in Hx. rewrite Hx. cbn [fst Cache.store].
    assert (Hl : Cache.expired entry later = true).
    { unfold Cache.expired in *. destruct (Cache.ttl entry) as [|t]; [discriminate|].
      cbn [ltb] in *. apply Z.ltb_lt in Hx. apply Z.ltb_lt. lia. }
    rewrite Hl. rewrite lookup_delete_eq. repeat split; reflexivity.
  - intros _. cbn [fst]. rewrite Hk. repeat split; reflexivity.
Qed.

Lemma expiry_witness :
  snd (Cache.get (Cache.set (Cache.create None) "key" (Str "value") (Some (Finite 10)) 0)
         "key" 20) = Null.
Proof.
  exact (proj1 (proj2 (expiry_is_final
    (Cache.set (Cache.create None) "key" (Str "value") (Some (Finite 10)) 0)
    "key" 11 20 ltac:(lia) eq_refl))).
Defined.

End CacheLaws.

(** ** Command registry *)

Module RegistryLaws.
Import Js Errors Types.

Section WithRuntime.
Context `{Runtime}.





(** X6.  What leaves the registry when [execute] throws.  Whatever the
    [execute] of a handler threw, an error of any kind or a plain value,
    leaves as an execution error with no command attached, whose message
    names the command and quotes the message of what was thrown.  An
    unknown name and rejected arguments give errors of the registry's own
    making.  The only throws that leave as they were made are those of the
    validator and of the rendering of the rejected arguments, which run
    outside the [try]; the context is then as it was. *)
Theorem registry_wraps_what_handlers_throw (reg : gmap string CommandHandler) name ctx args :
  (forall handler t,
      reg !! name = Some handler ->
      Registry.rejects handler args = inr false ->
      snd (execute handler ctx args) = Throw t ->
      Registry.execute reg name ctx args
      = (fst (execute handler ctx args),
         Throw (Raised {| code := EXECUTION_ERROR;
                          message := "Error executing command '" +:+ name +:+ "': "
                                     +:+ thrownMessage t;
                          command := None |})))
  /\ (forall t,
      snd (Registry.execute reg name ctx args) = Throw t ->
      (exists text, t = Raised (ErrorFactory.execution text None))
      \/ (exists text,
            t = Raised (ErrorFactory.validation text)
            /\ Registry.execute reg name ctx args = (ctx, Throw t))
      \/ (exists handler,
            reg !! name = Some handler
            /\ (Registry.rejects handler args = inl t
                \/ (Registry.rejects handler args = inr true
                    /\ exists text, stringifyArgs args = inl text /\ t = RaisedOther text))
            /\ Registry.execute reg name ctx args = (ctx, Throw t))).
Proof.
  unfold Registry.execute. split.
  - intros handler t Hh Hok Hthrow. rewrite Hh, Hok.
    destruct (execute handler ctx args) as [ctx' [v|t']]; cbn [snd] in Hthrow;
      [discriminate|]. injection Hthrow as ->. reflexivity.
  - intros t. destruct (reg !! name) as [handler|].
    + destruct (Registry.rejects handler args) as [t'|[|]] eqn:Hrejects.
      * cbn [snd]. intros [= <-]. right. right. exists handler.
        split; [reflexivity|]. split; [left; exact Hrejects|reflexivity].
      * destruct (stringifyArgs args) as [text|json] eqn:Hjson; cbn [snd]; intros [= <-].
        -- right. right. exists handler. split; [reflexivity|].
           split; [|reflexivity]. right. split; [exact Hrejects|].
           exists text. split; reflexivity.
        -- right. left. eexists. split; reflexivity.
      * destruct (execute handler ctx args) as [ctx' [v|t']]; cbn [snd]; [discriminate|].
        intros [= <-]. left. eexists. reflexivity.
    + cbn [snd]. intros [= <-]. left. eexists. reflexivity.
Qed.

End WithRuntime.


(** A handler whose validator throws on an empty argument list and whose
    [execute] throws a timeout error. *)
Definition picky : CommandHandler :=
  {| execute := fun ctx _ => (ctx, Throw (Raised (ErrorFactory.timeout 5)));
     validate := Some (fun args =>
       match args with
       | [] => inl (RaisedOther "no arguments")
       | _ => inr true
       end) |}.

Lemma registry_wraps_witness :
  @Registry.execute Sample.runtime {[ "picky" := picky ]} "picky"
    (Sample.contextOf Null ReturnNull) [Null]
  = (Sample.contextOf Null ReturnNull,
     Throw (Raised {| code := EXECUTION_ERROR;
                      message := "Error executing command 'picky': Operation timed out after 5ms";
                      command := None |})).
Proof.
  exact (proj1 (@registry_wraps_what_handlers_throw Sample.runtime {[ "picky" := picky ]}
                  "picky" (Sample.contextOf Null ReturnNull) [Null])
           picky (Raised (ErrorFactory.timeout 5)) eq_refl eq_refl eq_refl).
Defined.

End RegistryLaws.

(** ** Built-in commands *)

Module BuiltInLaws.
Import Js Errors Types.

Section WithRuntime.
Context `{Runtime}.

(** The items a filter command keeps: those that bear the property with a
    string value that passes the test. *)
Definition selects (test : string -> bool) (propertyName : string) (item : Js.value) : bool :=
  BuiltIn.bears item propertyName
  && match BuiltIn.getMember item propertyName with
     | Str propValue => test propValue
     | _ => false
     end.

Definition kept (test : string -> bool) (propertyName : string) (items : list Js.value)
    : Js.value :=
  match List.filter (selects test propertyName) items with
  | [] => Null
  | found => Arr found
  end.

Lemma bears_not_null (item : Js.value) (propertyName : string) :
  BuiltIn.bears item propertyName = true -> isNull item = false.
Proof. destruct item; try reflexivity. unfold BuiltIn.bears. simpl. discriminate. Qed.

Lemma checkItem_selects (test : string -> bool) propertyName item :
  BuiltIn.checkItem test propertyName item =
  if selects test propertyName item then item else Null.
Proof.
  unfold BuiltIn.checkItem, selects.
  destruct (BuiltIn.bears item propertyName); [|reflexivity]. cbn [andb].
  destruct (BuiltIn.getMember item propertyName); reflexivity.
Qed.

Lemma filter_checkItem (test : string -> bool) propertyName items :
  List.filter (fun r => negb (isNull r)) (map (BuiltIn.checkItem test propertyName) items)
  = List.filter (selects test propertyName) items.
Proof.
  induction items as [|item rest IH]; [reflexivity|].
  cbn [map List.filter]. rewrite IH, checkItem_selects.
  destruct (selects test propertyName item) eqn:Hs; [|reflexivity].
  unfold selects in Hs. apply andb_prop in Hs as [Hb _].
  rewrite (bears_not_null _ _ Hb). reflexivity.
Qed.

Lemma filterExecute_on_array label (test : string -> bool) ctx propertyName items :
  currentValue ctx = Arr items ->
  snd (BuiltIn.filterExecute label test ctx propertyName)
    = Return (kept test propertyName items).
Proof.
  intros Hcur. unfold BuiltIn.filterExecute. rewrite Hcur. cbn [snd].
  rewrite filter_checkItem. unfold kept.
  destruct (List.filter _ items); reflexivity.
Qed.

(** X7.  On an array, the three filter commands return the items whose property
    is a string that passes the command's test, in their order, or null if
    there is none; they do so in every error-handling mode, without
    throwing. *)
Theorem filters_keep_the_matching_items (ctx : ExecutionContext) (items : list Js.value)
    (propertyName : string) :
  currentValue ctx = Arr items ->
  (forall searchString,
      snd (BuiltIn.propIncludesExecute ctx propertyName searchString)
      = Return (kept (fun propValue => includes propValue searchString) propertyName items))
  /\ (forall searchString,
      snd (BuiltIn.propIncludesLowercaseExecute ctx propertyName searchString)
      = Return (kept (fun propValue =>
                        includes (toLowerCase propValue) (toLowerCase searchString))
                  propertyName items))
  /\ (forall regexPattern test,
      regExp regexPattern = Some test ->
      snd (BuiltIn.matchPropExecute ctx propertyName regexPattern)
      = Return (kept test propertyName items)).
Proof.
  intros Hcur. split; [|split].
  - intros s. apply filterExecute_on_array. exact Hcur.
  - intros s. apply filterExecute_on_array. exact Hcur.
  - intros pattern test Hre. unfold BuiltIn.matchPropExecute. rewrite Hre.
    apply filterExecute_on_array. exact Hcur.
Qed.

(** What one item contributes to a query over an array. *)
Definition matchesOf (selector : string) (item : Js.value) : list Js.value :=
  if isElement item then
    match querySelectorAll item selector with
    | inr elements => elements
    | inl _ => []
    end
  else [].

Definition queryFails (selector : string) (item : Js.value) : bool :=
  isElement item && match querySelectorAll item selector with inl _ => true | inr _ => false end.

Lemma queryEach_concat (items : list Js.value) selector results :
  existsb (queryFails selector) items = false ->
  BuiltIn.queryEach items selector results
  = inr (results ++ flat_map (matchesOf selector) items).
Proof.
  revert results. induction items as [|item rest IH]; intros results Hok.
  - cbn. rewrite app_nil_r. reflexivity.
  - cbn [existsb] in Hok. apply orb_false_iff in Hok as [Hitem Hrest].
    cbn [BuiltIn.queryEach flat_map]. unfold queryFails in Hitem. unfold matchesOf at 1.
    destruct (isElement item).
    + destruct (querySelectorAll item selector) as [text|elements]; [discriminate|].
      rewrite IH by exact Hrest. rewrite app_assoc. reflexivity.
    + rewrite IH by exact Hrest. reflexivity.
Qed.

Lemma queryEach_throws (items : list Js.value) selector results :
  existsb (queryFails selector) items = true ->
  exists text, BuiltIn.queryEach items selector results = inl text.
Proof.
  revert results. induction items as [|item rest IH]; intros results Hbad; [discriminate|].
  cbn [existsb] in Hbad. cbn [BuiltIn.queryEach]. unfold queryFails in Hbad at 1.
  destruct (isElement item).
  - destruct (querySelectorAll item selector) as [text|elements].
    + eexists; reflexivity.
    + apply IH. exact Hbad.
  - apply IH. exact Hbad.
Qed.

(** X8.  The shape of a query's result.  On one node: null for no match, the
    node itself for one, the array of them for more.  On an array: the
    matches of its elements, one after the other, with items that are not
    elements passed over; null if there is none, and an array even if
    there is one.  On anything else: null, and no error.  A selector the
    host rejects is thrown in every error-handling mode. *)
Theorem css_selector_result_shape (ctx : ExecutionContext) (selector : string) :
  (forall elements,
      isElement (currentValue ctx) || isDocument (currentValue ctx) = true ->
      querySelectorAll (currentValue ctx) selector = inr elements ->
      BuiltIn.cssSelectorExecute ctx selector =
      (ctx, Return match elements with
                   | [] => Null
                   | [only] => only
                   | _ => Arr elements
                   end))
  /\ (forall items,
      currentValue ctx = Arr items ->
      existsb (queryFails selector) items = false ->
      BuiltIn.cssSelectorExecute ctx selector =
      (ctx, Return match flat_map (matchesOf selector) items with
                   | [] => Null
                   | found => Arr found
                   end))
  /\ (forall items,
      currentValue ctx = Arr items ->
      existsb (queryFails selector) items = true ->
      exists text, BuiltIn.cssSelectorExecute ctx selector = (ctx, Throw (RaisedOther text)))
  /\ (forall text,
      isElement (currentValue ctx) || isDocument (currentValue ctx) = true ->
      querySelectorAll (currentValue ctx) selector = inl text ->
      BuiltIn.cssSelectorExecute ctx selector = (ctx, Throw (RaisedOther text)))
  /\ (isElement (currentValue ctx) = false -> isDocument (currentValue ctx) = false ->
      isArray (currentValue ctx) = false ->
      BuiltIn.cssSelectorExecute ctx selector = (ctx, Return Null)).
Proof.
  unfold BuiltIn.cssSelectorExecute.
  split; [|split; [|split; [|split]]].
  - intros elements Hnode Hq. rewrite Hnode, Hq. destruct elements as [|a [|b rest]]; reflexivity.
  - intros items Hcur Hok. rewrite Hcur. cbn [isElement isDocument orb].
    rewrite queryEach_concat by exact Hok. cbn [app].
    destruct (flat_map _ items); reflexivity.
  - intros items Hcur Hbad. rewrite Hcur. cbn [isElement isDocument orb].
    destruct (queryEach_throws items selector [] Hbad) as [text ->]. eexists; reflexivity.
  - intros text Hnode Hq. rewrite Hnode, Hq. reflexivity.
  - intros He Hd Ha. rewrite He, Hd. cbn [orb].
    destruct (currentValue ctx); try reflexivity. discriminate.
Qed.

End WithRuntime.

(** [[{name:"Ada Lovelace"},{name:7},{name:"Alan Turing"},{name:"Adam"}]] *)
Definition people : list Js.value :=
  [ Sample.plain [("name", Str "Ada Lovelace")];
    Sample.plain [("name", Num (Finite 7))];
    Sample.plain [("name", Str "Alan Turing")];
    Sample.plain [("name", Str "Adam")] ].

Lemma filters_witness :
  snd (@BuiltIn.propIncludesExecute Sample.runtime
         (Sample.contextOf (Arr people) ThrowMode) "name" "Ad")
  = Return (Arr [ Sample.plain [("name", Str "Ada Lovelace")];
                  Sample.plain [("name", Str "Adam")] ]).
Proof.
  exact (proj1 (@filters_keep_the_matching_items Sample.runtime
                  (Sample.contextOf (Arr people) ThrowMode) people "name" eq_refl) "Ad").
Defined.

(** Two sections around a text: the first with two paragraphs, the second
    with one. *)
Definition paragraph (text : string) : Js.value :=
  Obj ElementNode [("textContent", Str text)].

Definition sections : list Js.value :=
  [ Obj ElementNode [("p", Arr [paragraph "one"; paragraph "two"])];
    Str "not a node";
    Obj ElementNode [("p", Arr [paragraph "three"])] ].

Lemma css_selector_witness :
  @BuiltIn.cssSelectorExecute Sample.runtime (Sample.contextOf (Arr sections) ReturnNull) "p"
  = (Sample.contextOf (Arr sections) ReturnNull,
     Return (Arr [paragraph "one"; paragraph "two"; paragraph "three"])).
Proof.
  exact (proj1 (proj2 (@css_selector_result_shape Sample.runtime
                  (Sample.contextOf (Arr sections) ReturnNull) "p")) sections eq_refl eq_refl).
Defined.

End BuiltInLaws.

(** ** Execution engine *)

Module EngineLaws.
Import Js Errors Types.

(** An error of the two kinds the registry and the engine make. *)
Definition ordinary (e : SuperSelectorError) : Prop :=
  code e = EXECUTION_ERROR \/ code e = VALIDATION_ERROR.

(** A context whose flag and error agree: if a soft error is flagged, one
    is recorded, and it is an ordinary one. *)
Definition sound (ctx : ExecutionContext) : Prop :=
  hadSoftError ctx = true -> exists e, softError ctx = Some e /\ ordinary e.

(** What a handler leaves alone: the element, the configuration, and the
    soundness of the context. *)
Definition steady (before after : ExecutionContext) : Prop :=
  element after = element before
  /\ config after = config before
  /\ (sound before -> sound after).

Definition handlerSteady (handler : CommandHandler) : Prop :=
  forall ctx args, steady ctx (fst (execute handler ctx args)).

Lemma steady_refl ctx : steady ctx ctx.
Proof. repeat split; auto. Qed.

Lemma steady_trans a b c : steady a b -> steady b c -> steady a c.
Proof.
  intros (He1 & Hc1 & Hs1) (He2 & Hc2 & Hs2).
  repeat split; [congruence|congruence|auto].
Qed.

Lemma execution_ordinary text command : ordinary (ErrorFactory.execution text command).
Proof. left. reflexivity. Qed.

Lemma validation_ordinary text : ordinary (ErrorFactory.validation text).
Proof. right. reflexivity. Qed.

Lemma setSoftError_steady ctx err : ordinary err -> steady ctx (setSoftError ctx err).
Proof.
  intros Ho. repeat split. intros _ _. exists err. split; [reflexivity|exact Ho].
Qed.

Lemma recordFirst_steady ctx err : ordinary err -> steady ctx (recordFirst ctx err).
Proof.
  intros Ho. unfold recordFirst. destruct (hadSoftError ctx);
    [apply steady_refl|apply setSoftError_steady; exact Ho].
Qed.

Lemma fault_steady ctx err : ordinary err -> steady ctx (fst (fault ctx err)).
Proof.
  intros Ho. unfold fault. destruct (errorHandling (config ctx));
    apply recordFirst_steady; exact Ho.
Qed.

Lemma setCurrentValue_steady ctx v : steady ctx (setCurrentValue ctx v).
Proof. repeat split; auto. Qed.

Create HintDb steady.
#[local] Hint Resolve steady_refl execution_ordinary validation_ordinary
  recordFirst_steady fault_steady setCurrentValue_steady setSoftError_steady : steady.

(** What is thrown becomes an ordinary error in the result. *)
Definition ordinaryThrow (t : thrown) : Prop :=
  match t with
  | Raised e => ordinary e
  | RaisedOther _ => True
  end.

(** A validator that throws nothing but what becomes an ordinary error. *)
Definition validatorOrdinary (handler : CommandHandler) : Prop :=
  forall args t, Registry.rejects handler args = inl t -> ordinaryThrow t.

Definition registrySteady (reg : gmap string CommandHandler) : Prop :=
  forall name handler,
    reg !! name = Some handler -> handlerSteady handler /\ validatorOrdinary handler.

Lemma answers_ordinary run check :
  validatorOrdinary {| execute := run; validate := Some (BuiltIn.answers check) |}.
Proof. intros args t. unfold Registry.rejects. cbn. discriminate. Qed.

Lemma fault_throws_ordinary ctx err t :
  sound ctx -> ordinary err -> snd (fault ctx err) = Throw t -> ordinaryThrow t.
Proof.
  intros Hs Ho. unfold fault, thrownFault.
  destruct (errorHandling (config ctx)); cbn [snd]; try discriminate.
  intros [= <-]. destruct (hadSoftError ctx) eqn:Hhad; [|exact Ho].
  destruct (Hs Hhad) as (e & -> & He). exact He.
Qed.


Section WithRuntime.
Context `{Runtime}.

Lemma cssSelectorExecute_steady ctx selector :
  steady ctx (fst (BuiltIn.cssSelectorExecute ctx selector)).
Proof.
  unfold BuiltIn.cssSelectorExecute.
  destruct (isElement _ || isDocument _).
  - destruct (querySelectorAll _ _) as [text|[|a [|b rest]]]; apply steady_refl.
  - destruct (currentValue ctx); try apply steady_refl.
    destruct (BuiltIn.queryEach _ _ _) as [text|[|a rest]]; apply steady_refl.
Qed.

Lemma propertyExecute_steady ctx propertyName :
  steady ctx (fst (BuiltIn.propertyExecute ctx propertyName)).
Proof.
  unfold BuiltIn.propertyExecute.
  destruct (currentValue ctx) eqn:Hcur; auto with steady;
    try (destruct (BuiltIn.bears _ _); [apply steady_refl|];
         destruct (truthy _ && _); cbn [fst]; auto with steady).
  destruct (existsb _ _); destruct (forallb _ _ && _); try destruct (0 <? _);
    cbn [fst]; auto with steady.
Qed.

Lemma arrayAccessExecute_steady ctx index :
  steady ctx (fst (BuiltIn.arrayAccessExecute ctx index)).
Proof.
  unfold BuiltIn.arrayAccessExecute.
  destruct (currentValue ctx); auto with steady.
  destruct (leb _ _ && ltb _ _); auto with steady.
  destruct (if ltb index (Finite 0) then _ else _); apply steady_refl.
Qed.

Lemma recursivePropExecute_steady ctx propertyName times :
  steady ctx (fst (BuiltIn.recursivePropExecute ctx propertyName times)).
Proof.
  unfold BuiltIn.recursivePropExecute.
  destruct (isNaN _ || leb _ _); [apply steady_refl|].
  destruct (BuiltIn.descend _ _ _ _); auto with steady.
Qed.

Lemma filterExecute_steady label test ctx propertyName :
  steady ctx (fst (BuiltIn.filterExecute label test ctx propertyName)).
Proof.
  unfold BuiltIn.filterExecute.
  destruct (currentValue ctx);
    try (destruct (negb _ && _ && _ && _); cbn [fst]; auto with steady).
  destruct ((_ =? 0) && _ && _); cbn [fst]; auto with steady.
Qed.

Lemma matchPropExecute_steady ctx propertyName regexPattern :
  steady ctx (fst (BuiltIn.matchPropExecute ctx propertyName regexPattern)).
Proof.
  unfold BuiltIn.matchPropExecute.
  destruct (regExp regexPattern); [apply filterExecute_steady|].
  destruct (errorHandling (config ctx)); cbn [fst]; auto with steady.
Qed.

Ltac decode_args :=
  repeat match goal with
         | |- context [match ?args with [] => _ | _ :: _ => _ end] => destruct args
         | |- context [match ?arg with Undefined => _ | _ => _ end] => destruct arg
         end.

Ltac handler_steady :=
  intros ctx args; cbn [execute BuiltIn.cssSelectorCommand BuiltIn.propertyCommand
    BuiltIn.arrayAccessCommand BuiltIn.getPropCommand BuiltIn.recursivePropCommand
    BuiltIn.propIncludesCommand BuiltIn.propIncludesLowercaseCommand
    BuiltIn.matchPropCommand];
  decode_args; try apply steady_refl.

Lemma builtin_handlers_steady : registrySteady BuiltIn.registerBuiltInCommands.
Proof.
  unfold BuiltIn.registerBuiltInCommands, Registry.register, Registry.clear.
  intros name handler Hh.
  repeat (apply lookup_insert_Some in Hh as [[_ <-] | [_ Hh]];
          [ split; [|apply answers_ordinary]; handler_steady;
            first [ apply cssSelectorExecute_steady | apply propertyExecute_steady
                  | apply arrayAccessExecute_steady | apply recursivePropExecute_steady
                  | apply filterExecute_steady | apply matchPropExecute_steady ] | ]).
  rewrite lookup_empty in Hh. discriminate.
Qed.


Lemma registry_execute_steady (reg : gmap string CommandHandler) name ctx args :
  registrySteady reg -> steady ctx (fst (Registry.execute reg name ctx args)).
Proof.
  intros Hreg. unfold Registry.execute.
  destruct (reg !! name) as [handler|] eqn:Hh; [|apply steady_refl].
  destruct (Registry.rejects handler args) as [t|[|]]; [apply steady_refl| |].
  { destruct (stringifyArgs args); apply steady_refl. }
  pose proof (proj1 (Hreg name handler Hh) ctx args) as Hk.
  destruct (execute handler ctx args) as [ctx' [v|t]]; exact Hk.
Qed.

Lemma registry_throws_ordinary (reg : gmap string CommandHandler) name ctx args t :
  registrySteady reg ->
  snd (Registry.execute reg name ctx args) = Throw t -> ordinaryThrow t.
Proof.
  intros Hreg. unfold Registry.execute.
  destruct (reg !! name) as [handler|] eqn:Hh.
  - destruct (Registry.rejects handler args) as [t'|[|]] eqn:Hrejects.
    + cbn [snd]. intros [= <-]. exact (proj2 (Hreg name handler Hh) args t' Hrejects).
    + destruct (stringifyArgs args); cbn [snd]; intros [= <-];
        [exact I|apply validation_ordinary].
    + destruct (execute handler ctx args) as [ctx' [v|t']]; cbn [snd]; [discriminate|].
      intros [= <-]. apply execution_ordinary.
  - cbn [snd]. intros [= <-]. apply execution_ordinary.
Qed.

Lemma executeCommand_steady (reg : gmap string CommandHandler) command ctx :
  registrySteady reg -> steady ctx (fst (Engine.executeCommand reg command ctx)).
Proof.
  intros Hreg. destruct command; cbn [Engine.executeCommand];
    try (apply registry_execute_steady; exact Hreg); auto with steady.
  destruct (isNullish _); [auto with steady|].
  destruct (Engine.isNativeMethod _ _); [apply steady_refl|].
  destruct (Registry.has reg name); [apply registry_execute_steady; exact Hreg|].
  auto with steady.
Qed.

Lemma executeCommand_throws_ordinary (reg : gmap string CommandHandler) command ctx t :
  registrySteady reg ->
  sound ctx -> snd (Engine.executeCommand reg command ctx) = Throw t -> ordinaryThrow t.
Proof.
  intros Hreg Hs. destruct command; cbn [Engine.executeCommand];
    try (apply registry_throws_ordinary; exact Hreg).
  - destruct (isNullish _); [apply fault_throws_ordinary; auto with steady|].
    destruct (Engine.isNativeMethod _ _).
    + cbn [snd]. unfold Engine.executeNativeMethod.
      destruct (match BuiltIn.getMember _ _ with Fun f => _ | _ => _ end);
        [|discriminate].
      intros [= <-]. apply execution_ordinary.
    + destruct (Registry.has reg name); [apply registry_throws_ordinary; exact Hreg|].
      apply fault_throws_ordinary; auto with steady.
  - cbn [snd]. intros [= <-]. apply execution_ordinary.
Qed.

Lemma runCommands_steady (reg : gmap string CommandHandler) commands ctx v :
  registrySteady reg -> steady ctx (fst (Engine.runCommands reg commands ctx v)).
Proof.
  intros Hreg. revert ctx v.
  induction commands as [|command rest IH]; intros ctx v; [apply steady_refl|].
  cbn [Engine.runCommands].
  pose proof (executeCommand_steady reg command (setCurrentValue ctx v) Hreg) as Hstep.
  destruct (Engine.executeCommand reg command (setCurrentValue ctx v)) as [ctx1 [v1|t]];
    cbn [fst] in Hstep.
  - assert (Hk : steady ctx ctx1)
      by (eapply steady_trans; [apply setCurrentValue_steady|exact Hstep]).
    destruct (isUndefined v1 && negb (hadSoftError ctx1) && _).
    + destruct (errorHandling (config ctx1)); [exact Hk| |];
        (eapply steady_trans; [exact Hk|]);
        (eapply steady_trans; [apply setSoftError_steady, execution_ordinary|apply IH]).
    + eapply steady_trans; [exact Hk|apply IH].
  - eapply steady_trans; [apply setCurrentValue_steady|exact Hstep].
Qed.

Lemma runCommands_throws_ordinary (reg : gmap string CommandHandler) commands ctx v t :
  registrySteady reg -> sound ctx ->
  snd (Engine.runCommands reg commands ctx v) = Throw t -> ordinaryThrow t.
Proof.
  intros Hreg. revert ctx v.
  induction commands as [|command rest IH]; intros ctx v Hs; [discriminate|].
  cbn [Engine.runCommands].
  assert (Hs0 : sound (setCurrentValue ctx v)) by exact Hs.
  pose proof (executeCommand_steady reg command (setCurrentValue ctx v) Hreg) as Hstep.
  pose proof (executeCommand_throws_ordinary reg command (setCurrentValue ctx v) t Hreg Hs0)
    as Hthrow.
  destruct (Engine.executeCommand reg command (setCurrentValue ctx v)) as [ctx1 [v1|t1]];
    cbn [fst snd] in Hstep, Hthrow.
  - destruct Hstep as (_ & _ & Hs1). specialize (Hs1 Hs0).
    destruct (isUndefined v1 && negb (hadSoftError ctx1) && _).
    + destruct (errorHandling (config ctx1)).
      * cbn [snd]. intros [= <-]. apply execution_ordinary.
      * apply IH. apply (setSoftError_steady ctx1 _ (execution_ordinary _ _)). exact Hs1.
      * apply IH. apply (setSoftError_steady ctx1 _ (execution_ordinary _ _)). exact Hs1.
    + apply IH. exact Hs1.
  - cbn [snd]. exact Hthrow.
Qed.

Lemma initialContext_sound element config : sound (Engine.initialContext element config).
Proof. intros Hhad. discriminate. Qed.

Lemma hardFailure_ordinary config t e :
  ordinaryThrow t -> error (Engine.hardFailure config t) = Some e -> ordinary e.
Proof.
  unfold Engine.hardFailure. cbn [error]. destruct t as [e'|text]; cbn [ordinaryThrow].
  - intros Ho [= <-]. exact Ho.
  - intros _ [= <-]. apply execution_ordinary.
Qed.

(** The shape of what [executeUncached] reports. *)
Definition coherent (r : ExecutionResult) : Prop :=
  (success r = true <-> error r = None)
  /\ (forall e, error r = Some e -> ordinary e).

Lemma executeUncached_coherent (reg : gmap string CommandHandler) engine commands ctx key
    storeTime :
  registrySteady reg -> sound ctx ->
  coherent (snd (Engine.executeUncached reg engine commands ctx key storeTime)).
Proof.
  intros Hreg Hs. unfold Engine.executeUncached, Engine.executeCommands.
  destruct (_ <? _)%Z.
  - cbn [snd]. split; [split; discriminate|].
    intros e. apply hardFailure_ordinary. apply execution_ordinary.
  - pose proof (runCommands_steady reg commands ctx (currentValue ctx) Hreg) as (_ & _ & Hs').
    pose proof (runCommands_throws_ordinary reg commands ctx (currentValue ctx)) as Hthrow.
    destruct (Engine.runCommands reg commands ctx (currentValue ctx)) as [ctx' [v|t]];
      cbn [fst snd] in Hs', Hthrow |- *.
    + specialize (Hs' Hs). unfold sound in Hs'.
      destruct (hadSoftError ctx') eqn:Hhad; cbn [negb success error].
      * destruct (Hs' eq_refl) as (e & He & Ho). rewrite He.
        split; [split; discriminate|]. intros e' [= <-]. exact Ho.
      * split; [split; reflexivity|]. discriminate.
    + split; [split; discriminate|].
      intros e. apply hardFailure_ordinary. exact (Hthrow t Hreg Hs eq_refl).
Qed.

(** X9.  With the built-in commands, a result is successful exactly when it
    carries no error, and the error it carries is an execution or a
    validation error: never a timeout, a parse or a plugin error. *)
Theorem result_is_coherent (engine : Engine.t) (commands : list Ast.Command)
    (element : Js.value) (config : SuperSelectorConfig) (lookupTime storeTime : Z) :
  let r := snd (Engine.execute BuiltIn.registerBuiltInCommands engine commands element
                  config lookupTime storeTime) in
  (success r = true <-> error r = None)
  /\ (forall e, error r = Some e ->
        code e = EXECUTION_ERROR \/ code e = VALIDATION_ERROR).
Proof.
  cbv zeta. unfold Engine.execute.
  destruct (cacheEnabled config).
  - destruct (Cache.get _ _ _) as [c cached].
    destruct (negb (isNull cached)).
    + cbn [snd success error]. split; [split; reflexivity|discriminate].
    + apply executeUncached_coherent;
        [apply builtin_handlers_steady|apply initialContext_sound].
  - apply executeUncached_coherent;
      [apply builtin_handlers_steady|apply initialContext_sound].
Qed.


(** *** The cache *)

Lemma executeUncached_first (reg : gmap string CommandHandler) engine commands ctx key
    storeTime :
  let out := Engine.executeUncached reg engine commands ctx key storeTime in
  (success (snd out) = true /\ isNull (value (snd out)) = false
   /\ cacheEnabled (config ctx) = true
   /\ Engine.cache (fst out)
      = Cache.set (Engine.cache engine) key (value (snd out))
          (Some (cacheTTL (config ctx))) storeTime)
  \/ ((success (snd out) = false \/ isNull (value (snd out)) = true
       \/ cacheEnabled (config ctx) = false)
      /\ Engine.cache (fst out) = Engine.cache engine).
Proof.
  cbv zeta. unfold Engine.executeUncached, Engine.executeCommands.
  destruct (_ <? _)%Z.
  - right. split; [left; reflexivity|reflexivity].
  - destruct (Engine.runCommands reg commands ctx (currentValue ctx)) as [ctx' [v|t]].
    + cbn [fst snd success value].
      destruct (cacheEnabled (config ctx)); [|right; split; [auto|reflexivity]].
      destruct (isNull v); [right; split; [auto|reflexivity]|].
      destruct (hadSoftError ctx'); [right; split; [auto|reflexivity]|].
      left. cbn. auto.
    + right. split; [left; reflexivity|reflexivity].
Qed.

Lemma get_after_set (c : Cache.t) key v (t now later : Z) :
  t <> 0%Z -> (later - now <= t)%Z ->
  snd (Cache.get (Cache.set c key v (Some (Finite t)) now) key later) = v.
Proof.
  intros Ht Hage. unfold Cache.get. rewrite CacheFacts.set_stores.
  unfold Cache.expired. cbn [Cache.ttl Cache.timestamp Cache.value truthyNumber].
  destruct (Z.eqb_spec t 0); [contradiction|]. cbn [negb ltb].
  destruct (Z.ltb_spec t (later - now)); [lia|]. reflexivity.
Qed.

Lemma execute_stores (reg : gmap string CommandHandler) (engine : Engine.t)
    (commands : list Ast.Command) (element : Js.value) (config : SuperSelectorConfig)
    (lookupTime storeTime t : Z) :
  cacheEnabled config = true -> cacheTTL config = Finite t ->
  let first := Engine.execute reg engine commands element config lookupTime storeTime in
  cacheHit (metadata (snd first)) = false ->
  success (snd first) = true ->
  isNull (value (snd first)) = false ->
  exists c,
    Engine.cache (fst first)
    = Cache.set c (Engine.generateCacheKey commands element) (value (snd first))
        (Some (Finite t)) storeTime.
Proof.
  intros Hon Httl first. subst first. unfold Engine.execute. rewrite Hon.
  destruct (Cache.get _ _ _) as [c cached].
  destruct (negb (isNull cached)); [discriminate|].
  intros _ Hok Hnn.
  pose proof (executeUncached_first reg (Engine.withCache engine c) commands
                (Engine.initialContext element config)
                (Engine.generateCacheKey commands element) storeTime) as Hfirst.
  cbv zeta in Hfirst. cbn [Types.config Engine.initialContext] in Hfirst.
  destruct Hfirst as [(_ & _ & _ & Hc)|[[Hf|[Hf|Hf]] _]]; try congruence.
  exists c. rewrite Hc, Httl. reflexivity.
Qed.

Lemma execute_hits (reg : gmap string CommandHandler) (engine : Engine.t)
    (commands : list Ast.Command) (element : Js.value) (config : SuperSelectorConfig)
    (c : Cache.t) (v : Js.value) (t storeTime later storeTime' : Z) :
  cacheEnabled config = true ->
  Engine.cache engine
  = Cache.set c (Engine.generateCacheKey commands element) v (Some (Finite t)) storeTime ->
  t <> 0%Z -> (later - storeTime <= t)%Z -> isNull v = false ->
  snd (Engine.execute reg engine commands element config later storeTime')
  = {| success := true; value := v; error := None;
       metadata := {| commandsExecuted := 0; cacheHit := true |} |}.
Proof.
  intros Hon Hc Ht Hage Hnn. unfold Engine.execute. rewrite Hon, Hc.
  pose proof (get_after_set c (Engine.generateCacheKey commands element) v t storeTime
                later Ht Hage) as Hget.
  destruct (Cache.get _ _ _) as [c' cached]. cbn [snd] in Hget. subst cached.
  rewrite Hnn. reflexivity.
Qed.

(** X10.  A successful, non-null result is stored, and the same commands run
    again within the time-to-live, on the same element or on any with the
    same cache key, by any registry and in any configuration that has the
    cache enabled, are answered from the cache: no command runs. *)
Theorem cached_result_is_replayed (reg reg' : gmap string CommandHandler)
    (engine : Engine.t) (commands : list Ast.Command) (element element' : Js.value)
    (config config' : SuperSelectorConfig) (lookupTime storeTime later storeTime' t : Z) :
  cacheEnabled config = true -> cacheTTL config = Finite t -> t <> 0%Z ->
  cacheEnabled config' = true ->
  Engine.generateCacheKey commands element' = Engine.generateCacheKey commands element ->
  let first := Engine.execute reg engine commands element config lookupTime storeTime in
  cacheHit (metadata (snd first)) = false ->
  success (snd first) = true ->
  isNull (value (snd first)) = false ->
  (later - storeTime <= t)%Z ->
  snd (Engine.execute reg' (fst first) commands element' config' later storeTime')
  = {| success := true;
       value := value (snd first);
       error := None;
       metadata := {| commandsExecuted := 0; cacheHit := true |} |}.
Proof.
  intros Hon Httl Ht Hon' Hkey first Hmiss Hok Hnn Hage.
  destruct (execute_stores reg engine commands element config lookupTime storeTime t
              Hon Httl Hmiss Hok Hnn) as [c Hc].
  fold first in Hc. rewrite <- Hkey in Hc.
  exact (execute_hits reg' (fst first) commands element' config' c _ t storeTime later
           storeTime' Hon' Hc Ht Hage Hnn).
Qed.

(** X11.  A result that failed, or is null, is not stored: the cache is left as
    the lookup left it, or untouched if the cache is disabled. *)
Theorem failures_are_not_cached (reg : gmap string CommandHandler) (engine : Engine.t)
    (commands : list Ast.Command) (element : Js.value) (config : SuperSelectorConfig)
    (lookupTime storeTime : Z) :
  let out := Engine.execute reg engine commands element config lookupTime storeTime in
  success (snd out) = false \/ isNull (value (snd out)) = true ->
  Engine.cache (fst out)
  = if cacheEnabled config
    then fst (Cache.get (Engine.cache engine) (Engine.generateCacheKey commands element)
                lookupTime)
    else Engine.cache engine.
Proof.
  cbv zeta. unfold Engine.execute.
  destruct (cacheEnabled config) eqn:Hon.
  - destruct (Cache.get _ _ _) as [c cached].
    destruct (isNull cached) eqn:Hcached; cbn [negb].
    + intros Hbad.
      pose proof (executeUncached_first reg (Engine.withCache engine c) commands
                    (Engine.initialContext element config)
                    (Engine.generateCacheKey commands element) storeTime) as Hfirst.
      cbv zeta in Hfirst.
      destruct Hfirst as [(Hok & Hnn & _)|[_ Hc]]; [destruct Hbad; congruence|].
      rewrite Hc. reflexivity.
    + cbn [snd success value]. intros [Hbad|Hbad]; congruence.
  - intros Hbad.
    pose proof (executeUncached_first reg engine commands
                  (Engine.initialContext element config)
                  (Engine.generateCacheKey commands element) storeTime) as Hfirst.
    cbv zeta in Hfirst. cbn [Types.config Engine.initialContext] in Hfirst.
    destruct Hfirst as [(_ & _ & Hon' & _)|[_ Hc]]; [congruence|exact Hc].
Qed.

(** *** Stages that cannot abort *)








(** *** Primitive values *)

(** A boolean, a number or a string. *)
Definition isPrimitive (v : Js.value) : bool :=
  match v with
  | Bool _ | Num _ | Str _ => true
  | _ => false
  end.

(** X13.  No property of a primitive value is ever read, not even the length of
    a string.  The stage sets the flag of the context and records that the
    property could not be accessed, unless an error was recorded before,
    which then stays; it yields the configured default in return-default
    mode and null otherwise.  It does so in throw mode too, where it does
    not throw. *)
Theorem property_of_a_primitive_is_never_read (ctx : ExecutionContext)
    (propertyName : string) :
  isPrimitive (currentValue ctx) = true ->
  let out :=
    Engine.executeCommand BuiltIn.registerBuiltInCommands (Ast.Property propertyName) ctx in
  snd out = Return (match errorHandling (config ctx) with
                    | ReturnDefault => defaultValue (config ctx)
                    | ReturnNull | ThrowMode => Null
                    end)
  /\ hadSoftError (fst out) = true
  /\ softError (fst out)
     = (if hadSoftError ctx then softError ctx
        else Some {| code := EXECUTION_ERROR;
                     message := "Property '" +:+ propertyName
                                +:+ "' could not be accessed.";
                     command := None |})
  /\ element (fst out) = element ctx
  /\ currentValue (fst out) = currentValue ctx
  /\ config (fst out) = config ctx.
Proof.
  intros Hprim. cbv zeta. rewrite EngineFacts.property_dispatch.
  unfold BuiltIn.propertyExecute.
  destruct ctx as [el cv cfg had first]. cbn [currentValue] in *.
  destruct cv as [| |b|n|s|items|kind members|f]; try discriminate.
  all: unfold BuiltIn.bears; cbn [isObjectType typeof isFunctionType];
    rewrite ?andb_false_r; cbn [orb andb]; rewrite ?andb_false_r.
  all: unfold recordFirst, fallbackValue, setSoftError;
    cbn [EngineFacts.throughRegistry fst snd hadSoftError softError config element
         currentValue].
  all: destruct had, (errorHandling cfg); repeat split; reflexivity.
Qed.

End WithRuntime.

(** The text of a heading, in return-default mode. *)
Definition textContext : ExecutionContext :=
  {| element := Sample.page; currentValue := Str "Hello";
     config := Sample.configWith ReturnDefault (Str "none");
     hadSoftError := false; softError := None |}.

Lemma primitive_property_witness :
  snd (@Engine.executeCommand Sample.runtime Sample.builtins (Ast.Property "length")
         textContext)
  = Return (Str "none")
  /\ hadSoftError
       (fst (@Engine.executeCommand Sample.runtime Sample.builtins (Ast.Property "length")
               textContext)) = true
  /\ softError
       (fst (@Engine.executeCommand Sample.runtime Sample.builtins (Ast.Property "length")
               textContext))
     = Some {| code := EXECUTION_ERROR;
               message := "Property 'length' could not be accessed.";
               command := None |}.
Proof.
  pose proof (@property_of_a_primitive_is_never_read Sample.runtime textContext "length"
                eq_refl) as (Hvalue & Hflag & Herror & _).
  split; [exact Hvalue|]. split; [exact Hflag|exact Herror].
Defined.

Definition cachingConfig : SuperSelectorConfig :=
  {| debug := false; timeout := 5000; maxDepth := 50; cacheEnabled := true;
     cacheTTL := Finite 60000; errorHandling := ReturnNull; defaultValue := Null |}.

Lemma cached_result_witness :
  snd (@Engine.execute Sample.runtime ∅
         (fst (@Engine.execute Sample.runtime Sample.builtins Sample.engine
                 [Ast.CssSelector "h1"; Ast.Property "textContent"] Sample.page
                 cachingConfig 0 0))
         [Ast.CssSelector "h1"; Ast.Property "textContent"] Sample.page cachingConfig
         60000 60000)
  = {| success := true; value := Str "  Hello "; error := None;
       metadata := {| commandsExecuted := 0; cacheHit := true |} |}.
Proof.
  exact (@cached_result_is_replayed Sample.runtime Sample.builtins ∅
           Sample.engine [Ast.CssSelector "h1"; Ast.Property "textContent"]
           Sample.page Sample.page cachingConfig cachingConfig 0 0 60000 60000 60000
           eq_refl eq_refl ltac:(discriminate) eq_refl eq_refl eq_refl eq_refl eq_refl
           ltac:(lia)).
Defined.

Lemma failures_witness :
  Engine.cache
    (fst (@Engine.execute Sample.runtime Sample.builtins Sample.engine
            [Ast.CssSelector "h1"; Ast.Property "missing"] Sample.page cachingConfig 0 0))
  = Engine.cache Sample.engine.
Proof.
  exact (@failures_are_not_cached Sample.runtime Sample.builtins Sample.engine
           [Ast.CssSelector "h1"; Ast.Property "missing"] Sample.page cachingConfig 0 0
           (or_introl eq_refl)).
Defined.


End EngineLaws.

(** ** Logger *)

Module LoggerLaws.
Import Logger.

Lemma lastN_length {A} (n : nat) (l : list A) :
  List.length (lastN n l) = Nat.min n (List.length l).
Proof. unfold lastN. rewrite length_drop. lia. Qed.

Lemma lastN_last {A} (n : nat) (l : list A) (x : A) :
  0 < n -> last (lastN n (l ++ [x])) = Some x.
Proof.
  intros Hn. unfold lastN. rewrite length_app. cbn [List.length].
  rewrite drop_app_le by lia. apply last_snoc.
Qed.

(** The entry a call of [log] makes. *)
Definition logged (lvl : LogLevel) (message : string) (data : option Js.value)
    (source : option string) (now : Z) : LogEntry :=
  {| entryLevel := lvl; message := message; data := data; timestamp := now;
     source := default "" source |}.

Lemma log_entries (lg : t) lvl message data source now :
  rank lvl <= rank (level lg) ->
  entries (log lg lvl message data source now)
  = let all := entries lg ++ [logged lvl message data source now] in
    if maxEntries <? List.length all then lastN maxEntries all else all.
Proof.
  intros Hle. unfold log. rewrite (proj2 (Nat.leb_le _ _) Hle).
  destruct source; reflexivity.
Qed.

(** X14.  The logger keeps the newest entries, at most [maxEntries] of them: a
    message at or below the logger's level becomes the last entry, and the
    oldest entry goes when the limit is passed; a message above the level
    changes nothing. *)
Theorem log_keeps_the_newest (lg : t) (lvl : LogLevel) (message : string)
    (data : option Js.value) (source : option string) (now : Z) :
  (rank lvl <= rank (level lg) ->
     last (entries (log lg lvl message data source now))
       = Some (logged lvl message data source now)
     /\ List.length (entries (log lg lvl message data source now))
        = Nat.min maxEntries (S (List.length (entries lg)))
     /\ exists dropped,
          entries lg ++ [logged lvl message data source now]
          = dropped ++ entries (log lg lvl message data source now))
  /\ (rank (level lg) < rank lvl -> log lg lvl message data source now = lg)
  /\ (List.length (entries lg) <= maxEntries ->
      List.length (entries (log lg lvl message data source now)) <= maxEntries)
  /\ level (log lg lvl message data source now) = level lg.
Proof.
  split; [|split; [|split]].
  - intros Hle. rewrite (log_entries _ _ _ _ _ _ Hle). cbv zeta.
    set (entry := logged lvl message data source now).
    assert (Hlen : List.length (entries lg ++ [entry]) = S (List.length (entries lg)))
      by (rewrite length_app; cbn; lia).
    destruct (Nat.ltb_spec maxEntries (List.length (entries lg ++ [entry]))) as [Hlt|Hge].
    + split; [apply lastN_last; unfold maxEntries; lia|].
      split; [rewrite lastN_length; lia|].
      eexists. unfold lastN. symmetry. apply take_drop.
    + split; [apply last_snoc|]. split; [lia|]. exists []. reflexivity.
  - intros Hgt. unfold log. rewrite (proj2 (Nat.leb_gt _ _) Hgt). reflexivity.
  - intros Hlen. destruct (Nat.le_gt_cases (rank lvl) (rank (level lg))) as [Hle|Hgt].
    + rewrite (log_entries _ _ _ _ _ _ Hle). cbv zeta.
      destruct (Nat.ltb_spec maxEntries
                  (List.length (entries lg ++ [logged lvl message data source now])))
        as [Hlt|Hge]; [rewrite lastN_length; lia|exact Hge].
    + unfold log. rewrite (proj2 (Nat.leb_gt _ _) Hgt). exact Hlen.
  - unfold log. destruct (rank lvl <=? rank (level lg)); reflexivity.
Qed.

Lemma log_witness :
  last (entries (log create WARN "careful" None (Some "registry") 7))
  = Some (logged WARN "careful" None (Some "registry") 7).
Proof.
  exact (proj1 (proj1 (log_keeps_the_newest create WARN "careful" None (Some "registry") 7)
                  ltac:(cbn; lia))).
Defined.

End LoggerLaws.

(** ** Event emitter *)

Module EventEmitterLaws.
Import EventEmitter.

(** No event type is listed without a listener. *)
Definition tidy (em : gmap string (gset nat)) : Prop :=
  forall eventType listeners, em !! eventType = Some listeners -> listeners <> ∅.

Definition registered (em : gmap string (gset nat)) (eventType : string) (listener : nat)
    : bool :=
  match em !! eventType with
  | Some listeners => bool_decide (listener ∈ listeners)
  | None => false
  end.

Definition listenersOf (em : gmap string (gset nat)) (eventType : string) : gset nat :=
  match em !! eventType with
  | Some listeners => listeners
  | None => ∅
  end.

Lemma on_lookup (em : gmap string (gset nat)) eventType listener :
  on em eventType listener
  = <[eventType := listenersOf em eventType ∪ {[listener]}]> em.
Proof.
  unfold on, listenersOf. destruct (em !! eventType) as [listeners|] eqn:He; cbv zeta.
  - rewrite He. reflexivity.
  - rewrite lookup_insert_eq. apply insert_insert_eq.
Qed.

Lemma size_zero_empty (X : gset nat) : (size X =? 0) = true <-> X = ∅.
Proof. rewrite Nat.eqb_eq, size_empty_iff. apply leibniz_equiv_iff. Qed.

Lemma add_remove (X : gset nat) (x : nat) : (X ∪ {[x]}) ∖ {[x]} = X ∖ {[x]}.
Proof. apply leibniz_equiv. intros y. rewrite !elem_of_difference, elem_of_union. tauto. Qed.

Lemma remove_absent (X : gset nat) (x : nat) : x ∉ X -> X ∖ {[x]} = X.
Proof.
  intros Hx. apply leibniz_equiv. intros y.
  rewrite elem_of_difference, elem_of_singleton. split; [tauto|].
  intros Hy. split; [exact Hy|]. intros ->. exact (Hx Hy).
Qed.

Lemma add_twice (X : gset nat) (x : nat) : X ∪ {[x]} ∪ {[x]} = X ∪ {[x]}.
Proof. apply leibniz_equiv. intros y. rewrite !elem_of_union. tauto. Qed.

Lemma add_present (X : gset nat) (x : nat) : x ∈ X -> X ∪ {[x]} = X.
Proof.
  intros Hx. apply leibniz_equiv. intros y. rewrite elem_of_union, elem_of_singleton.
  split; [intros [Hy| ->]; assumption|auto].
Qed.

Lemma add_nonempty (X : gset nat) (x : nat) : X ∪ {[x]} <> ∅.
Proof.
  intros He.
  assert (Hin : x ∈ X ∪ {[x]})
    by (apply elem_of_union_r, elem_of_singleton_2; reflexivity).
  rewrite He in Hin. exact (not_elem_of_empty x Hin).
Qed.

(** X15.  A listener is registered once however often it is added, and removing
    it undoes the addition: from a table without it, adding and then
    removing gives the table back, with no empty event type left behind. *)
Theorem on_then_off (em : gmap string (gset nat)) (eventType : string) (listener : nat) :
  on (on em eventType listener) eventType listener = on em eventType listener
  /\ listenerCount (on em eventType listener) eventType
     = (if registered em eventType listener
        then listenerCount em eventType
        else S (listenerCount em eventType))
  /\ off (on em eventType listener) eventType listener = off em eventType listener
  /\ (tidy em -> registered em eventType listener = false ->
      off (on em eventType listener) eventType listener = em)
  /\ (tidy em -> tidy (on em eventType listener) /\ tidy (off em eventType listener)).
Proof.
  rewrite !on_lookup.
  assert (Hself : listenersOf (<[eventType := listenersOf em eventType ∪ {[listener]}]> em)
                    eventType = listenersOf em eventType ∪ {[listener]}).
  { unfold listenersOf at 1. rewrite lookup_insert_eq. reflexivity. }
  rewrite Hself.
  split; [|split; [|split; [|split]]].
  - rewrite insert_insert_eq, add_twice. reflexivity.
  - unfold listenerCount, registered, listenersOf. rewrite lookup_insert_eq.
    destruct (em !! eventType) as [listeners|] eqn:He.
    + destruct (decide (listener ∈ listeners)) as [Hin|Hnot].
      * rewrite bool_decide_eq_true_2 by exact Hin. rewrite add_present by exact Hin.
        reflexivity.
      * rewrite bool_decide_eq_false_2 by exact Hnot.
        rewrite size_union by (apply disjoint_singleton_r; exact Hnot).
        rewrite size_singleton. lia.
    + rewrite union_empty_l_L, size_singleton. reflexivity.
  - unfold off. rewrite lookup_insert_eq. cbv zeta. rewrite add_remove.
    unfold listenersOf.
    destruct (em !! eventType) as [listeners|] eqn:He.
    + destruct (size (listeners ∖ {[listener]}) =? 0).
      * apply delete_insert_eq.
      * apply insert_insert_eq.
    + assert (Hz : (size ((∅ : gset nat) ∖ {[listener]}) =? 0) = true)
        by (apply size_zero_empty, leibniz_equiv, difference_disjoint; apply disjoint_empty_l).
      rewrite Hz. rewrite delete_insert_eq. apply delete_id. exact He.
  - intros Htidy Hnot. unfold off, registered in *. rewrite lookup_insert_eq. cbv zeta.
    rewrite add_remove. unfold listenersOf.
    destruct (em !! eventType) as [listeners|] eqn:He.
    + apply bool_decide_eq_false in Hnot. rewrite remove_absent by exact Hnot.
      destruct (size listeners =? 0) eqn:Hz.
      * apply size_zero_empty in Hz. exfalso. exact (Htidy _ _ He Hz).
      * rewrite insert_insert_eq. apply insert_id. exact He.
    + rewrite remove_absent by apply not_elem_of_empty.
      rewrite size_empty. cbn [Nat.eqb]. rewrite delete_insert_eq. apply delete_id. exact He.
  - intros Htidy. split.
    + intros e ls. destruct (decide (e = eventType)) as [->|Hne].
      * rewrite lookup_insert_eq. intros [= <-]. apply add_nonempty.
      * rewrite lookup_insert_ne by congruence. apply Htidy.
    + unfold off. destruct (em !! eventType) as [listeners|] eqn:He; [|exact Htidy].
      cbv zeta. destruct (size (listeners ∖ {[listener]}) =? 0) eqn:Hz.
      * intros e ls. destruct (decide (e = eventType)) as [->|Hne].
        -- rewrite lookup_delete_eq. discriminate.
        -- rewrite lookup_delete_ne by congruence. apply Htidy.
      * intros e ls. destruct (decide (e = eventType)) as [->|Hne].
        -- rewrite lookup_insert_eq. intros [= <-] Hempty.
           rewrite Hempty, size_empty in Hz. discriminate.
        -- rewrite lookup_insert_ne by congruence. apply Htidy.
Qed.

Lemma on_then_off_witness :
  off (on (on create "done" 1) "done" 2) "done" 2 = on create "done" 1.
Proof.
  refine (proj1 (proj2 (proj2 (proj2 (on_then_off (on create "done" 1) "done" 2)))) _ _).
  - intros e ls. rewrite on_lookup. unfold create.
    destruct (decide (e = "done")) as [->|Hne].
    + rewrite lookup_insert_eq. intros [= <-]. apply add_nonempty.
    + rewrite lookup_insert_ne by congruence. rewrite lookup_empty. discriminate.
  - unfold registered. rewrite on_lookup, lookup_insert_eq.
    apply bool_decide_eq_false. unfold listenersOf, create. rewrite lookup_empty.
    rewrite union_empty_l_L. intros Hin. apply elem_of_singleton in Hin. discriminate.
Defined.

End EventEmitterLaws.

(** ** Texts and numbers *)

Module TextLaws.
Import Chars CharFacts.

Lemma spanLength_all (p : ascii -> bool) (l : list ascii) :
  forallb p l = true -> spanLength p l = List.length l.
Proof.
  intros Hall. rewrite <- (app_nil_r l) at 1. rewrite spanLength_app by exact Hall.
  simpl. lia.
Qed.

Lemma spanLength_until (p : ascii -> bool) (l rest : list ascii) :
  forallb p l = true ->
  match rest with c :: _ => p c = false | [] => True end ->
  spanLength p (l ++ rest) = List.length l.
Proof.
  intros Hall Hrest. rewrite spanLength_app by exact Hall.
  destruct rest as [|c rest]; cbn [spanLength]; [lia|]. rewrite Hrest. lia.
Qed.

Lemma trim_blank (l : list ascii) : forallb isWhitespace l = true -> trim l = [].
Proof.
  intros Hall. unfold trim.
  assert (Hs : trimStart l = []).
  { unfold trimStart. rewrite spanLength_all by exact Hall. apply drop_all. }
  rewrite Hs. reflexivity.
Qed.

Lemma text_chars (s : string) : text (chars s) = s.
Proof. apply string_of_list_ascii_of_string. Qed.


Lemma trimStart_head (l : list ascii) (c : ascii) (rest : list ascii) :
  trimStart l = c :: rest -> isWhitespace c = false.
Proof.
  unfold trimStart. induction l as [|a l IH]; cbn [spanLength]; [discriminate|].
  destruct (isWhitespace a) eqn:Ha.
  - cbn [drop]. exact IH.
  - cbn [drop]. intros [= <- _]. exact Ha.
Qed.

(** What [trim] leaves starts with a character that is not white space. *)
Lemma trim_head (l : list ascii) (c : ascii) (rest : list ascii) :
  trim l = c :: rest -> isWhitespace c = false.
Proof.
  unfold trim, trimEnd. intros Htrim.
  set (x := trimStart l) in *.
  assert (Hdrop : trimStart (rev x) = rev rest ++ [c]).
  { rewrite <- (rev_involutive (trimStart (rev x))), Htrim. reflexivity. }
  unfold trimStart in Hdrop.
  assert (Hx : x = c :: rev (take (spanLength isWhitespace (rev x)) (rev x) ++ rev rest)).
  { rewrite <- (rev_involutive x) at 1.
    rewrite <- (take_drop (spanLength isWhitespace (rev x)) (rev x)) at 1.
    rewrite Hdrop, app_assoc, rev_app_distr. reflexivity. }
  apply (trimStart_head l c _ Hx).
Qed.

End TextLaws.

Module NumberLaws.
Import Chars CharFacts Js.

Definition step10 (acc : Z) (c : ascii) : Z := (10 * acc + digitValue c)%Z.

Lemma digits_acc (d : Decimal.uint) (acc : positive) :
  fold_left step10 (chars (NilEmpty.string_of_uint d)) (Z.pos acc)
  = Z.pos (Pos.of_uint_acc d acc).
Proof.
  revert acc. induction d; intros acc; cbn [NilEmpty.string_of_uint chars
    list_ascii_of_string fold_left Pos.of_uint_acc]; [reflexivity|..];
    rewrite <- IHd; f_equal; unfold step10.
  all: match goal with
       | |- context [digitValue ?c] =>
           let v := eval vm_compute in (digitValue c) in change (digitValue c) with v
       end.
  all: lia.
Qed.

Lemma digits_value (d : Decimal.uint) :
  digitsValue (chars (NilEmpty.string_of_uint d)) = Z.of_N (Pos.of_uint d).
Proof.
  unfold digitsValue. fold step10.
  induction d; cbn [NilEmpty.string_of_uint chars list_ascii_of_string fold_left
    Pos.of_uint]; [reflexivity| |..];
    try (change (step10 0 _) with 0%Z; exact IHd);
    cbn [Z.of_N]; rewrite <- digits_acc; f_equal.
Qed.

Lemma digits_are_digits (d : Decimal.uint) :
  forallb isDigit (chars (NilEmpty.string_of_uint d)) = true.
Proof. induction d; cbn; auto. Qed.

(** The decimal rendering of an integer: a minus sign if it is negative,
    then at least one digit. *)
Lemma showZ_chars (z : Z) :
  exists digits,
    chars (showZ z) = (if (z <? 0)%Z then ["-"%char] else []) ++ digits
    /\ digits <> [] /\ forallb isDigit digits = true
    /\ digitsValue digits = Z.abs z.
Proof.
  unfold showZ. destruct z as [|p|p]; cbn [Z.to_int NilEmpty.string_of_int Z.ltb Z.compare].
  - exists ["0"%char]. repeat split; discriminate.
  - exists (chars (NilEmpty.string_of_uint (Pos.to_uint p))).
    split; [reflexivity|]. split.
    + pose proof (DecimalPos.Unsigned.to_uint_nonnil p) as Hnn.
      destruct (Pos.to_uint p); [congruence|..]; discriminate.
    + split; [apply digits_are_digits|].
      rewrite digits_value, DecimalPos.Unsigned.of_to. reflexivity.
  - exists (chars (NilEmpty.string_of_uint (Pos.to_uint p))).
    split; [reflexivity|]. split.
    + pose proof (DecimalPos.Unsigned.to_uint_nonnil p) as Hnn.
      destruct (Pos.to_uint p); [congruence|..]; discriminate.
    + split; [apply digits_are_digits|].
      rewrite digits_value, DecimalPos.Unsigned.of_to. reflexivity.
Qed.

Lemma digit_facts (c : ascii) :
  isDigit c = true ->
  isWhitespace c = false /\ Ascii.eqb c "-" = false /\ Ascii.eqb c "+" = false.
Proof. all_chars c. Qed.

(** [Number.isSafeInteger] on integers: at most [2^53 - 1] in magnitude. *)
Definition isSafeInteger (z : Z) : bool := (Z.abs z <=? 9007199254740991)%Z.

(** The integers of at most 20 digits: what [parseInt] makes of their
    digits is the nearest double in every implementation. *)
Definition twentyDigits (z : Z) : bool := (Z.abs z <? 10 ^ 20)%Z.

(** A safe integer is its own double. *)
Lemma toDouble_safe (z : Z) : isSafeInteger z = true -> toDouble z = z.
Proof.
  unfold isSafeInteger, toDouble. intros Hsafe. apply Z.leb_le in Hsafe. cbv zeta.
  assert (Hlog : (Z.log2 (Z.abs z) - 52 <= 0)%Z).
  { destruct (Z.eq_dec (Z.abs z) 0%Z) as [->|Hnz]; [cbn; lia|].
    assert (Hlt : (Z.log2 (Z.abs z) < 53)%Z); [|lia].
    apply Z.log2_lt_pow2; [lia|]. change (2 ^ 53)%Z with 9007199254740992%Z. lia. }
  rewrite (proj2 (Z.leb_le _ _) Hlog). reflexivity.
Qed.

(** [parseInt] reads what [showZ] prints, and rounds it to a double. *)
Lemma parseInt_showZ_double (z : Z) : parseInt (showZ z) = Finite (toDouble z).
Proof.
  destruct (showZ_chars z) as (digits & Hchars & Hne & Hall & Hval).
  unfold parseInt. rewrite Hchars.
  destruct digits as [|d ds]; [congruence|].
  pose proof Hall as Hall'. cbn [forallb] in Hall'. apply andb_prop in Hall' as [Hd _].
  destruct (digit_facts d Hd) as (Hws & Hminus & Hplus).
  destruct (z <? 0)%Z eqn:Hneg.
  - cbn [app]. rewrite trimStart_id by reflexivity.
    change (Ascii.eqb "-" "-") with true. cbv iota beta.
    rewrite (TextLaws.spanLength_all _ _ Hall), firstn_all.
    rewrite Hval. do 2 f_equal. apply Z.ltb_lt in Hneg. lia.
  - cbn [app]. rewrite trimStart_id by exact Hws.
    rewrite Hminus, Hplus. cbv iota beta.
    rewrite (TextLaws.spanLength_all _ _ Hall), firstn_all.
    rewrite Hval. do 2 f_equal. apply Z.ltb_ge in Hneg. lia.
Qed.

(** [parseInt] reads back the safe integers that [showZ] prints. *)
Lemma parseInt_showZ (z : Z) : isSafeInteger z = true -> parseInt (showZ z) = Finite z.
Proof. intros Hsafe. rewrite parseInt_showZ_double, (toDouble_safe z Hsafe). reflexivity. Qed.

End NumberLaws.

(** ** Tokenizer, turn by turn *)

Module LexerLaws.
Import Chars CharFacts Tokenizer TokenizerFacts.

(** The type and the text of a token: what the parser reads of it. *)
Definition kind (t : Tok.Token) : Tok.TokenType * string := (Tok.type t, Tok.value t).

(** Turns of the tokenizer loop, from one state to another. *)
Inductive lexes (input : list ascii) : state -> state -> Prop :=
| lexes_refl (st : state) : lexes input st st
| lexes_step (st st' st'' : state) :
    step input st = Continue st' -> lexes input st' st'' -> lexes input st st''.

Lemma lexes_one (input : list ascii) (st st' : state) :
  step input st = Continue st' -> lexes input st st'.
Proof. intros Hstep. eapply lexes_step; [exact Hstep|apply lexes_refl]. Qed.

Lemma lexes_trans (input : list ascii) (a b c : state) :
  lexes input a b -> lexes input b c -> lexes input a c.
Proof.
  intros Hab Hbc. induction Hab as [|st st' st'' Hstep _ IH]; [exact Hbc|].
  eapply lexes_step; [exact Hstep|apply IH; exact Hbc].
Qed.

Lemma lexes_run (input : list ascii) (st st' : state) (r : string + list Tok.Token) :
  lexes input st st' ->
  (exists fuel, run fuel input st' = Some r) -> exists fuel, run fuel input st = Some r.
Proof.
  intros Hlex. induction Hlex as [|st st' st'' Hstep _ IH]; [auto|].
  intros Hrun. destruct (IH Hrun) as [fuel Hfuel].
  exists (S fuel). cbn [run]. rewrite Hstep. exact Hfuel.
Qed.

Lemma step_past_end (input : list ascii) (st : state) :
  drop (position st) input = [] -> step input st = finish st.
Proof.
  intros Hdrop. unfold step.
  assert (Hlen : List.length (drop (position st) input) = 0) by (rewrite Hdrop; reflexivity).
  rewrite length_drop in Hlen.
  destruct (Nat.ltb_spec (position st) (List.length input)); [lia|reflexivity].
Qed.

(** The tokens of an input the loop has read to its end. *)
Lemma tokenize_lexed (s : string) (st : state) :
  lexes (trim (chars s)) initial st ->
  drop (position st) (trim (chars s)) = [] ->
  exists eof,
    tokenize s = Some (inr (tokens st ++ [eof])) /\ kind eof = (Tok.EOF, "").
Proof.
  intros Hlex Hend.
  destruct (lexes_run _ _ _ (inr (tokens (addToken st Tok.EOF "" None))) Hlex)
    as [fuel Hrun].
  { exists 1. cbn [run]. rewrite (step_past_end _ _ Hend). reflexivity. }
  destruct (tokenize_terminates s) as [r Hr]. unfold tokenize in Hr |- *.
  rewrite Hr. rewrite (ParserFacts.run_deterministic _ _ _ _ _ _ Hr Hrun).
  eexists. split; reflexivity.
Qed.

(** How a turn begins: the white space is passed over, and the character
    found decides. *)
Lemma step_dispatch (input : list ascii) (st : state) (lead : list ascii) (char : ascii)
    (rest : list ascii) :
  drop (position st) input = lead ++ char :: rest ->
  forallb isWhitespace lead = true ->
  isWhitespace char = false ->
  step input st =
  let st := setPosition st (position st + List.length lead) in
  if Ascii.eqb char "|" then single st Tok.PIPE char
  else if Ascii.eqb char "(" then single st Tok.OPEN_PAREN char
  else if Ascii.eqb char ")" then single st Tok.CLOSE_PAREN char
  else if Ascii.eqb char "[" then single st Tok.OPEN_BRACKET char
  else if Ascii.eqb char "]" then single st Tok.CLOSE_BRACKET char
  else if Ascii.eqb char "," then single st Tok.COMMA char
  else if Ascii.eqb char doubleQuote || Ascii.eqb char "'" then tokenizeString input st char
  else if isDigit char
          || (Ascii.eqb char "-"
              && match rest with
                 | next :: _ => isDigit next
                 | [] => false
                 end)
  then tokenizeNumber input st
  else if isAlpha char || Ascii.eqb char "_" || Ascii.eqb char "-"
          || Ascii.eqb char "." || Ascii.eqb char "#"
  then tokenizeIdentifier input st
  else Throw ("Unexpected character '" +:+ String char EmptyString
              +:+ "' at position " +:+ showNat (position st)).
Proof.
  intros Hdrop Hlead Hchar.
  assert (Hlt : (position st <? List.length input) = true).
  { apply Nat.ltb_lt.
    assert (Hl : List.length (drop (position st) input) > 0)
      by (rewrite Hdrop, length_app; simpl; lia).
    rewrite length_drop in Hl. lia. }
  assert (Hrest : drop (position st + List.length lead) input = char :: rest)
    by (apply drop_app_more; exact Hdrop).
  assert (Hskip : skipWhitespace input st = setPosition st (position st + List.length lead)).
  { unfold skipWhitespace. rewrite Hdrop, (spanLength_app _ _ _ Hlead).
    simpl. rewrite Hchar. f_equal. lia. }
  assert (Hnext : input !! S (position st + List.length lead)
                  = match rest with next :: _ => Some next | [] => None end).
  { assert (Hr : drop (position st + List.length lead + List.length [char]) input = rest)
      by (apply drop_app_more; exact Hrest).
    replace (S (position st + List.length lead))
      with (position st + List.length lead + List.length [char]) by (simpl; lia).
    destruct rest as [|next rest'];
      [apply drop_nil_lookup|eapply drop_cons_lookup]; exact Hr. }
  unfold step. rewrite Hlt, Hskip. cbv zeta. cbn [position setPosition].
  rewrite (drop_cons_lookup _ _ _ _ Hrest), Hnext.
  destruct rest; reflexivity.
Qed.

(** The six characters that are tokens by themselves. *)
Definition punctuation (char : ascii) : option Tok.TokenType :=
  if Ascii.eqb char "|" then Some Tok.PIPE
  else if Ascii.eqb char "(" then Some Tok.OPEN_PAREN
  else if Ascii.eqb char ")" then Some Tok.CLOSE_PAREN
  else if Ascii.eqb char "[" then Some Tok.OPEN_BRACKET
  else if Ascii.eqb char "]" then Some Tok.CLOSE_BRACKET
  else if Ascii.eqb char "," then Some Tok.COMMA
  else None.

Lemma punctuation_facts (char : ascii) (type : Tok.TokenType) :
  punctuation char = Some type -> isWhitespace char = false.
Proof. revert type. all_chars char. Qed.

Lemma step_punctuation (input : list ascii) (st : state) (lead : list ascii) (char : ascii)
    (rest : list ascii) (type : Tok.TokenType) :
  drop (position st) input = lead ++ char :: rest ->
  forallb isWhitespace lead = true ->
  punctuation char = Some type ->
  exists st',
    step input st = Continue st'
    /\ (exists t, tokens st' = tokens st ++ [t]
                  /\ kind t = (type, String char EmptyString))
    /\ drop (position st') input = rest.
Proof.
  intros Hdrop Hlead Hp.
  rewrite (step_dispatch input st lead char rest Hdrop Hlead (punctuation_facts _ _ Hp)).
  cbv zeta.
  assert (Hafter : drop (S (position st + List.length lead)) input = rest).
  { replace (S (position st + List.length lead))
      with (position st + List.length (lead ++ [char]))
      by (rewrite length_app; simpl; lia).
    apply drop_app_more. rewrite <- app_assoc. exact Hdrop. }
  unfold punctuation in Hp.
  repeat match type of Hp with
         | (if ?b then _ else _) = _ => destruct b
         end;
    try discriminate; injection Hp as <-;
    (eexists; split; [reflexivity|]; split;
     [eexists; split; reflexivity|exact Hafter]).
Qed.


(** *** String literals *)

(** A text that needs no escaping between quotes [quote]. *)
Definition verbatim (quote : ascii) (body : list ascii) : bool :=
  forallb (fun c => negb (Ascii.eqb c quote) && negb (Ascii.eqb c "\")) body.

Lemma scanString_verbatim (quote : ascii) (body rest : list ascii) (pos : nat)
    (value : list ascii) :
  verbatim quote body = true ->
  scanString quote (body ++ quote :: rest) pos value
  = (pos + List.length body, value ++ body).
Proof.
  revert pos value. induction body as [|c body IH]; intros pos value Hbody.
  - cbn [app]. rewrite scanString_cons, Ascii.eqb_refl, app_nil_r. f_equal. simpl. lia.
  - cbn [verbatim forallb] in Hbody. apply andb_prop in Hbody as [Hc Hbody].
    apply andb_prop in Hc as [Hq Hb]. apply negb_true_iff in Hq, Hb.
    cbn [app]. rewrite scanString_cons, Hq, Hb.
    rewrite IH by exact Hbody.
    rewrite <- app_assoc. cbn [app List.length]. f_equal. lia.
Qed.

Lemma step_string (input : list ascii) (st : state) (lead : list ascii) (quote : ascii)
    (body rest : list ascii) :
  drop (position st) input = lead ++ quote :: body ++ quote :: rest ->
  forallb isWhitespace lead = true ->
  ParserFacts.isQuote quote = true ->
  verbatim quote body = true ->
  exists st',
    step input st = Continue st'
    /\ (exists t, tokens st' = tokens st ++ [t] /\ kind t = (Tok.STRING, text body))
    /\ drop (position st') input = rest.
Proof.
  intros Hdrop Hlead Hquote Hbody.
  destruct (ParserFacts.quote_facts quote Hquote) as (Hws & H1 & H2 & H3 & H4 & H5 & H6).
  rewrite (step_dispatch input st lead quote _ Hdrop Hlead Hws). cbv zeta.
  rewrite H1, H2, H3, H4, H5, H6. unfold ParserFacts.isQuote in Hquote. rewrite Hquote.
  set (start := position st + List.length lead).
  assert (Hstart : drop start input = quote :: body ++ quote :: rest)
    by (apply drop_app_more; exact Hdrop).
  assert (Hin : drop (S start) input = body ++ quote :: rest).
  { replace (S start) with (start + List.length [quote]) by (simpl; lia).
    apply drop_app_more. exact Hstart. }
  assert (Hlen : List.length input = start + S (List.length body + S (List.length rest))).
  { assert (Hl : List.length (drop start input)
                 = S (List.length body + S (List.length rest)))
      by (rewrite Hstart; cbn [List.length]; rewrite length_app; reflexivity).
    rewrite length_drop in Hl.
    assert (start < List.length input) by (eapply drop_nonempty_lt; exact Hstart). lia. }
  unfold tokenizeString. cbn [position setPosition].
  rewrite Hin, (scanString_verbatim quote body rest (S start) [] Hbody). cbn [app].
  destruct (Nat.leb_spec (List.length input) (S start + List.length body)) as [Hle|Hgt];
    [lia|].
  eexists. split; [reflexivity|]. split.
  - eexists. split; reflexivity.
  - cbn [position addToken setPosition].
    replace (S (S start + List.length body))
      with (start + List.length (quote :: body ++ [quote]))
      by (cbn [List.length]; rewrite length_app; simpl; lia).
    apply drop_app_more. rewrite Hstart. cbn [app]. rewrite <- app_assoc. reflexivity.
Qed.

(** *** Numbers *)

(** What ends a number: the end of the input, or a character that is not
    part of one. *)
Definition endsNumber (rest : list ascii) : bool :=
  match rest with
  | c :: _ => negb (isDigit c || Ascii.eqb c ".")
  | [] => true
  end.

Lemma digit_char_facts (c : ascii) :
  isDigit c = true ->
  isWhitespace c = false /\ punctuation c = None
  /\ (Ascii.eqb c doubleQuote || Ascii.eqb c "'") = false /\ Ascii.eqb c "-" = false.
Proof. all_chars c. Qed.

Lemma step_number (input : list ascii) (st : state) (lead : list ascii) (negative : bool)
    (digits rest : list ascii) :
  drop (position st) input
    = lead ++ ((if negative then ["-"%char] else []) ++ digits) ++ rest ->
  forallb isWhitespace lead = true ->
  digits <> [] -> forallb isDigit digits = true ->
  endsNumber rest = true ->
  exists st',
    step input st = Continue st'
    /\ (exists t, tokens st' = tokens st ++ [t]
                  /\ kind t = (Tok.NUMBER,
                               text ((if negative then ["-"%char] else []) ++ digits)))
    /\ drop (position st') input = rest.
Proof.
  intros Hdrop Hlead Hne Hall Hrest.
  destruct digits as [|d ds]; [congruence|].
  pose proof Hall as Hall'. cbn [forallb] in Hall'. apply andb_prop in Hall' as [Hd _].
  destruct (digit_char_facts d Hd) as (Hws & Hp & Hq & Hm).
  set (start := position st + List.length lead).
  set (number := (if negative then ["-"%char] else []) ++ d :: ds) in *.
  assert (Hstart : drop start input = number ++ rest)
    by (apply drop_app_more; exact Hdrop).
  assert (Hspan : spanLength (fun c => isDigit c || Ascii.eqb c ".") ((d :: ds) ++ rest)
                  = List.length (d :: ds)).
  { apply TextLaws.spanLength_until.
    - revert Hall. apply forallb_weaken. intros c Hc. rewrite Hc. reflexivity.
    - destruct rest as [|c rest']; [exact I|]. cbn [endsNumber] in Hrest.
      apply negb_true_iff in Hrest. exact Hrest. }
  assert (Hafter : drop (start + List.length number) input = rest)
    by (apply drop_app_more; exact Hstart).
  assert (Htoken : tokenizeNumber input (setPosition st start)
                   = Continue (addToken (setPosition st (start + List.length number))
                                 Tok.NUMBER (text number) (Some start))).
  { unfold tokenizeNumber. cbn [position setPosition]. rewrite Hstart.
    subst number. destruct negative; cbn [app].
    - change (Ascii.eqb "-" "-") with true. cbv iota beta. cbn [drop].
      change (d :: ds ++ rest) with ((d :: ds) ++ rest). rewrite Hspan.
      replace (take (1 + List.length (d :: ds)) ("-"%char :: (d :: ds) ++ rest))
        with ("-"%char :: d :: ds)
        by (symmetry; apply (take_app_length ("-"%char :: d :: ds) rest)).
      unfold addToken, setPosition. cbn [position tokens List.length].
      do 2 f_equal. lia.
    - rewrite Hm. cbv iota beta. cbn [drop].
      change (d :: ds ++ rest) with ((d :: ds) ++ rest). rewrite Hspan.
      replace (take (0 + List.length (d :: ds)) ((d :: ds) ++ rest)) with (d :: ds)
        by (symmetry; apply (take_app_length (d :: ds) rest)).
      unfold addToken, setPosition. cbn [position tokens List.length].
      do 2 f_equal. lia. }
  assert (Hstep : step input st = tokenizeNumber input (setPosition st start)).
  { subst number. destruct negative.
    - rewrite (step_dispatch input st lead "-" ((d :: ds) ++ rest));
        [|rewrite Hdrop; reflexivity|exact Hlead|reflexivity].
      cbv zeta. cbn [app]. rewrite Hd. reflexivity.
    - rewrite (step_dispatch input st lead d (ds ++ rest));
        [|rewrite Hdrop; reflexivity|exact Hlead|exact Hws].
      cbv zeta. unfold punctuation in Hp.
      repeat match type of Hp with
             | (if ?b then _ else _) = _ => destruct b; [discriminate|]
             end.
      rewrite Hq, Hd. reflexivity. }
  rewrite Hstep, Htoken. eexists. split; [reflexivity|]. split.
  - eexists. split; reflexivity.
  - exact Hafter.
Qed.

(** *** Function names *)

Lemma step_call (input : list ascii) (st : state) (lead name rest : list ascii) :
  drop (position st) input = lead ++ name ++ "("%char :: rest ->
  forallb isWhitespace lead = true ->
  isSimpleWord name = true ->
  exists st',
    step input st = Continue st'
    /\ (exists t, tokens st' = tokens st ++ [t]
                  /\ kind t = (Tok.FUNCTION_NAME, text name))
    /\ drop (position st') input = "("%char :: rest.
Proof.
  intros Hdrop Hlead Hname.
  destruct (simpleWord_inv name Hname) as (c & r & Hcr & Hc & Hall).
  destruct (wordStart_facts c Hc)
    as (Hbody & Hp1 & Hp2 & Hp3 & Hp4 & Hp5 & Hp6 & Hq & Hd & Hm).
  destruct (wordBody_facts c Hbody) as (Hws & _ & _ & Hb).
  set (start := position st + List.length lead).
  assert (Hstart : drop start input = name ++ "("%char :: rest)
    by (apply drop_app_more; exact Hdrop).
  assert (Hafter : drop (start + List.length name) input = "("%char :: rest)
    by (apply drop_app_more; exact Hstart).
  assert (Hlen : wordLength (name ++ "("%char :: rest) = List.length name).
  { rewrite Hcr. cbn [app wordLength]. rewrite Hb. cbn [orb List.length]. f_equal.
    rewrite Hcr in Hall. cbn [forallb] in Hall. apply andb_prop in Hall as [_ Hr].
    apply TextLaws.spanLength_until; [|reflexivity].
    revert Hr. apply forallb_weaken. intros x Hx. apply (wordBody_facts x Hx). }
  rewrite (step_dispatch input st lead c (r ++ "("%char :: rest));
    [|rewrite Hdrop, Hcr; reflexivity|exact Hlead|exact Hws].
  cbv zeta. rewrite Hp1, Hp2, Hp3, Hp4, Hp5, Hp6, Hq, Hd, Hm, Hc. cbn [orb andb].
  fold start. unfold tokenizeIdentifier. cbn [position setPosition].
  rewrite Hstart, Hlen, Hafter. cbn [spanLength isWhitespace].
  change (isWhitespace "(") with false. cbv iota. rewrite Nat.add_0_r.
  rewrite (drop_cons_lookup _ _ _ _ Hafter). change (Ascii.eqb "(" "(") with true.
  cbv iota. rewrite take_app_length.
  eexists. split; [reflexivity|]. split.
  - eexists. split; reflexivity.
  - exact Hafter.
Qed.

(** *** Bare words *)

Lemma step_word (input : list ascii) (st : state) (lead word trail tail : list ascii) :
  drop (position st) input = lead ++ word ++ trail ++ tail ->
  forallb isWhitespace lead = true ->
  forallb isWhitespace trail = true ->
  segmentEnd tail ->
  isSimpleWord word = true ->
  exists st' trail',
    step input st = Continue st'
    /\ (exists t, tokens st' = tokens st ++ [t]
                  /\ kind t = (match tokens st with
                               | [] => Tok.CSS_SELECTOR
                               | _ => Tok.PROPERTY
                               end, text word))
    /\ drop (position st') input = trail' ++ tail
    /\ (trail' = [] \/ trail' = trail).
Proof.
  intros Hdrop Hlead Htrail Htail Hword.
  rewrite (step_bare_word input st lead word trail tail Hword Hlead Htrail Htail Hdrop).
  assert (Hstart : drop (position st + List.length lead) input = word ++ trail ++ tail)
    by (apply drop_app_more; exact Hdrop).
  assert (Hafter : drop (position st + List.length lead + List.length word) input
                   = trail ++ tail)
    by (apply drop_app_more; exact Hstart).
  unfold classified. destruct (tokens st) as [|t0 ts] eqn:Htokens.
  - exists {| position := position st + List.length lead + List.length word
                          + List.length trail;
              tokens := [Tok.mkToken Tok.CSS_SELECTOR (text word)
                           (Z.of_nat (position st + List.length lead))
                           (List.length word)] |}, [].
    split; [reflexivity|]. split; [eexists; split; reflexivity|].
    split; [|left; reflexivity].
    cbn [position app]. apply drop_app_more. exact Hafter.
  - eexists _, trail. split; [reflexivity|].
    split; [eexists; split; reflexivity|].
    split; [exact Hafter|right; reflexivity].
Qed.


(** *** Solid texts *)

(** A text with no white space at either end. *)
Definition solid (l : list ascii) : Prop :=
  (exists c middle, l = c :: middle /\ isWhitespace c = false)
  /\ (exists front d, l = front ++ [d] /\ isWhitespace d = false).

Lemma solid_trim (l : list ascii) : solid l -> trim l = l.
Proof.
  intros [(c & middle & -> & Hc) (front & d & Hl & Hd)].
  exact (trim_ends c d middle front Hc Hd Hl).
Qed.

Lemma solid_app (a between b : list ascii) : solid a -> solid b -> solid (a ++ between ++ b).
Proof.
  intros [(c & middle & -> & Hc) _] [_ (front & d & -> & Hd)]. split.
  - exists c, (middle ++ between ++ front ++ [d]). split; [reflexivity|exact Hc].
  - exists ((c :: middle) ++ between ++ front), d. split; [|exact Hd].
    rewrite <- !app_assoc. reflexivity.
Qed.

Lemma solid_ends (c d : ascii) (middle : list ascii) :
  isWhitespace c = false -> isWhitespace d = false -> solid (c :: middle ++ [d]).
Proof.
  intros Hc Hd. split.
  - exists c, (middle ++ [d]). split; [reflexivity|exact Hc].
  - exists (c :: middle), d. split; [reflexivity|exact Hd].
Qed.

(** *** Selectors *)

(** The characters a selector may begin with so as to be read as a word. *)
Definition beginsSelector (c : ascii) : bool :=
  isAlpha c || Ascii.eqb c "_" || Ascii.eqb c "." || Ascii.eqb c "#".

(** Whether the first word of a text is followed, white space apart, by an
    opening parenthesis: the text is then a call. *)
Definition isCallForm (sel : list ascii) : bool :=
  let n := wordLength sel in
  match drop (n + spanLength isWhitespace (drop n sel)) sel with
  | c :: _ => Ascii.eqb c "("
  | [] => false
  end.

(** A text the tokenizer takes for a selector wherever it stands: it
    begins like a word, ends with something other than white space, holds
    no pipe, holds one of the characters of rule 1, and is not a call. *)
Definition selectorText (sel : list ascii) : bool :=
  match sel with
  | c :: _ => beginsSelector c
  | [] => false
  end
  && match last sel with
     | Some d => negb (isWhitespace d)
     | None => false
     end
  && forallb (fun c => negb (Ascii.eqb c "|")) sel
  && existsb isCssChar sel
  && negb (isCallForm sel).

Lemma beginsSelector_facts (c : ascii) :
  beginsSelector c = true ->
  isWhitespace c = false /\ punctuation c = None
  /\ (Ascii.eqb c doubleQuote || Ascii.eqb c "'") = false
  /\ isDigit c = false /\ Ascii.eqb c "-" = false
  /\ (isAlpha c || Ascii.eqb c "_" || Ascii.eqb c "-" || Ascii.eqb c "."
      || Ascii.eqb c "#") = true
  /\ (isAlphaNumeric c || Ascii.eqb c "_" || Ascii.eqb c "-" || Ascii.eqb c "."
      || Ascii.eqb c "#") = true.
Proof. all_chars c. Qed.

(** What follows a segment: white space and a pipe, or nothing. *)
Definition closes (p : ascii -> bool) (after : list ascii) : Prop :=
  match after with
  | c :: _ => p c = false
  | [] => True
  end.

Lemma spanLength_closed (p : ascii -> bool) (l after : list ascii) :
  closes p after -> spanLength p (l ++ after) = spanLength p l.
Proof.
  intros Hafter. induction l as [|c l IH]; cbn [app spanLength].
  - destruct after as [|a after]; [reflexivity|]. cbn [spanLength closes] in *.
    rewrite Hafter. reflexivity.
  - destruct (p c); [rewrite IH; reflexivity|reflexivity].
Qed.

Lemma spanLength_inside (p : ascii -> bool) (l after : list ascii) :
  spanLength p l < List.length l -> spanLength p (l ++ after) = spanLength p l.
Proof.
  induction l as [|c l IH]; cbn [app spanLength List.length]; [lia|].
  destruct (p c); [|reflexivity]. intros Hlt. rewrite IH by lia. reflexivity.
Qed.

Lemma spanLength_le (p : ascii -> bool) (l : list ascii) : spanLength p l <= List.length l.
Proof. induction l as [|c l IH]; cbn [spanLength List.length]; [lia|]. destruct (p c); lia. Qed.

Lemma spanLength_stops (p : ascii -> bool) (l : list ascii) (d : ascii) :
  p d = false -> spanLength p (l ++ [d]) < List.length (l ++ [d]).
Proof.
  intros Hd. induction l as [|c l IH]; cbn [app spanLength List.length].
  - rewrite Hd. lia.
  - destruct (p c); lia.
Qed.

Lemma after_segment (trail tail : list ascii) (p : ascii -> bool) :
  forallb isWhitespace trail = true -> segmentEnd tail ->
  (forall c, isWhitespace c = true -> p c = false) -> p "|"%char = false ->
  closes p (trail ++ tail).
Proof.
  intros Htrail Htail Hws Hpipe. destruct trail as [|w trail]; cbn [app closes].
  - destruct Htail as [-> | [tail' ->]]; [exact I|exact Hpipe].
  - cbn [forallb] in Htrail. apply andb_prop in Htrail as [Hw _]. apply Hws. exact Hw.
Qed.

Lemma solid_trim_trail (sel trail : list ascii) :
  solid sel -> forallb isWhitespace trail = true -> trim (sel ++ trail) = sel.
Proof.
  intros [(c & middle & Hc & Hcw) (front & d & Hd & Hdw)] Htrail.
  unfold trim. rewrite Hc. cbn [app]. rewrite (trimStart_id c _ Hcw).
  change (c :: middle ++ trail) with ((c :: middle) ++ trail).
  rewrite <- Hc, Hd. apply trimEnd_strip; assumption.
Qed.

Lemma selectorText_inv (sel : list ascii) :
  selectorText sel = true ->
  (exists c r, sel = c :: r /\ beginsSelector c = true)
  /\ solid sel
  /\ forallb (fun c => negb (Ascii.eqb c "|")) sel = true
  /\ existsb isCssChar sel = true
  /\ isCallForm sel = false.
Proof.
  unfold selectorText. intros Hsel.
  apply andb_prop in Hsel as [Hsel Hcall]. apply andb_prop in Hsel as [Hsel Hcss].
  apply andb_prop in Hsel as [Hsel Hpipe]. apply andb_prop in Hsel as [Hfirst Hlast].
  apply negb_true_iff in Hcall.
  destruct sel as [|c r]; [discriminate|].
  destruct (last (c :: r)) as [d|] eqn:Hd; [|discriminate].
  apply negb_true_iff in Hlast. apply last_Some in Hd as [front Hfront].
  split; [exists c, r; split; [reflexivity|exact Hfirst]|].
  split; [|split; [exact Hpipe|split; [exact Hcss|exact Hcall]]].
  split.
  - exists c, r. split; [reflexivity|]. apply (beginsSelector_facts c Hfirst).
  - exists front, d. split; [exact Hfront|exact Hlast].
Qed.

Lemma step_selector (input : list ascii) (st : state) (lead sel trail tail : list ascii) :
  drop (position st) input = lead ++ sel ++ trail ++ tail ->
  forallb isWhitespace lead = true ->
  forallb isWhitespace trail = true ->
  segmentEnd tail ->
  selectorText sel = true ->
  exists st',
    step input st = Continue st'
    /\ (exists t, tokens st' = tokens st ++ [t] /\ kind t = (Tok.CSS_SELECTOR, text sel))
    /\ drop (position st') input = tail.
Proof.
  intros Hdrop Hlead Htrail Htail Hsel.
  destruct (selectorText_inv sel Hsel)
    as ((c & r & Hcr & Hbegin) & Hsolid & Hpipe & Hcss & Hcall).
  destruct (beginsSelector_facts c Hbegin) as (Hws & Hp & Hq & Hd & Hm & Hword & Hbody).
  set (start := position st + List.length lead).
  set (rest := sel ++ trail ++ tail).
  assert (Hstart : drop start input = rest) by (apply drop_app_more; exact Hdrop).
  set (body := fun c => isAlphaNumeric c || Ascii.eqb c "_" || Ascii.eqb c "-").
  assert (Hclosed : closes body (trail ++ tail)).
  { apply after_segment; try assumption; [|reflexivity].
    intros x Hx. apply (separator_facts x (or_introl Hx)). }
  assert (Hlen : wordLength rest = wordLength sel).
  { unfold rest. rewrite Hcr. cbn [app wordLength]. rewrite Hbody.
    f_equal. apply (spanLength_closed body). exact Hclosed. }
  assert (Hn : wordLength sel <= List.length sel).
  { rewrite Hcr. cbn [wordLength List.length]. rewrite Hbody.
    pose proof (spanLength_le body r). unfold body in *. lia. }
  set (n := wordLength sel) in *.
  assert (Hafterword : drop (start + n) input = drop n sel ++ trail ++ tail).
  { rewrite <- drop_drop, Hstart. unfold rest. apply drop_app_le. exact Hn. }
  assert (Hnotcall : match input !! (start + n
                                     + spanLength isWhitespace (drop (start + n) input)) with
                     | Some x => Ascii.eqb x "("
                     | None => false
                     end = false).
  { rewrite Hafterword.
    destruct (drop n sel) as [|x xs] eqn:Hxs.
    - cbn [app]. rewrite (spanLength_app _ _ _ Htrail).
      rewrite (spanLength_separator _ tail eq_refl Htail), Nat.add_0_r.
      assert (Htail' : drop (start + n + List.length trail) input = tail).
      { apply drop_app_more. rewrite Hafterword. reflexivity. }
      destruct Htail as [-> | [tail' ->]].
      + rewrite (drop_nil_lookup _ _ Htail'). reflexivity.
      + rewrite (drop_cons_lookup _ _ _ _ Htail'). reflexivity.
    - (* the word ends inside the selector, whose last character is solid *)
      destruct Hsolid as [_ (front & d & Hfront & Hdw)].
      assert (Hlastx : exists front', x :: xs = front' ++ [d]).
      { assert (Hdropn : drop n (front ++ [d]) = x :: xs) by (rewrite <- Hfront; exact Hxs).
        assert (Hlt : n <= List.length front).
        { destruct (Nat.le_gt_cases n (List.length front)) as [Hle|Hgt]; [exact Hle|].
          rewrite drop_ge in Hdropn by (rewrite length_app; cbn; lia). discriminate. }
        rewrite drop_app_le in Hdropn by exact Hlt.
        exists (drop n front). symmetry. exact Hdropn. }
      destruct Hlastx as [front' Hfront'].
      assert (Hinside : spanLength isWhitespace (x :: xs) < List.length (x :: xs))
        by (rewrite Hfront'; apply spanLength_stops; exact Hdw).
      rewrite (spanLength_inside _ (x :: xs) (trail ++ tail) Hinside).
      set (m := spanLength isWhitespace (x :: xs)) in *.
      unfold isCallForm in Hcall. fold n in Hcall. rewrite Hxs in Hcall. fold m in Hcall.
      assert (Hlook : input !! (start + n + m) = sel !! (n + m)).
      { replace (start + n + m) with (start + (n + m)) by lia.
        rewrite <- (lookup_drop input start (n + m)), Hstart.
        unfold rest. rewrite lookup_app_l; [reflexivity|].
        assert (Hl : List.length (x :: xs) = List.length sel - n)
          by (rewrite <- Hxs; apply length_drop).
        lia. }
      rewrite Hlook.
      destruct (drop (n + m) sel) as [|y ys] eqn:Hy.
      + rewrite (drop_nil_lookup _ _ Hy). reflexivity.
      + rewrite (drop_cons_lookup _ _ _ _ Hy). exact Hcall. }
  assert (Hseg : segmentLength rest = List.length sel + List.length trail).
  { unfold segmentLength, rest. rewrite spanLength_app by exact Hpipe.
    rewrite spanLength_app
      by (revert Htrail; apply forallb_weaken; intros x Hx; apply (whitespace_not_pipe x Hx)).
    rewrite (spanLength_separator _ tail eq_refl Htail). lia. }
  assert (Htake : take (List.length sel + List.length trail) rest = sel ++ trail).
  { unfold rest. rewrite app_assoc, <- length_app. apply take_app_length. }
  rewrite (step_dispatch input st lead c (r ++ trail ++ tail));
    [|rewrite Hdrop, Hcr; reflexivity|exact Hlead|exact Hws].
  cbv zeta. unfold punctuation in Hp.
  repeat match type of Hp with
         | (if ?b then _ else _) = _ => destruct b; [discriminate|]
         end.
  rewrite Hword, Hq, Hd, Hm. cbn [orb andb]. fold start.
  unfold tokenizeIdentifier. cbn [position setPosition].
  rewrite Hstart, Hlen. fold n. rewrite Hnotcall.
  unfold looksLikeCssSelector. rewrite Hstart, Hseg, Htake.
  rewrite (solid_trim_trail sel trail Hsolid Htrail).
  rewrite Hcss.
  assert (Hsome : match sel with [] => false | _ :: _ => true end = true)
    by (rewrite Hcr; reflexivity).
  destruct sel as [|c0 r0]; [discriminate|].
  eexists. split; [reflexivity|]. split.
  - eexists. split; reflexivity.
  - cbn [position setPosition addToken]. rewrite Nat.add_assoc.
    apply drop_app_more. rewrite (drop_app_more _ _ _ _ Hstart). reflexivity.
Qed.

(** *** Pipelines in writing *)

(** An argument between single quotes. *)
Definition quoted (arg : string) : list ascii := "'"%char :: chars arg ++ ["'"%char].

Fixpoint commaSeparated (parts : list (list ascii)) : list ascii :=
  match parts with
  | [] => []
  | part :: rest =>
      part ++ match rest with
              | [] => []
              | _ => ","%char :: commaSeparated rest
              end
  end.

(** A stage as one writes it: a word, [[index]], or [name('arg',...)]. *)
Definition renderCommand (command : Ast.Command) : list ascii :=
  match command with
  | Ast.CssSelector selector => chars selector
  | Ast.Property name => chars name
  | Ast.ArrayAccess index => "["%char :: chars (showZ index) ++ ["]"%char]
  | Ast.FunctionCall name args =>
      chars name ++ "("%char :: commaSeparated (map quoted args) ++ [")"%char]
  | Ast.Pipe _ _ => []
  end.

(** The stages, with [" | "] between them. *)
Fixpoint render (commands : list Ast.Command) : list ascii :=
  match commands with
  | [] => []
  | command :: rest =>
      renderCommand command ++ match rest with
                               | [] => []
                               | _ => chars " | " ++ render rest
                               end
  end.

(** The stages that can be written so: a bare word is a selector in the
    first place and a property in any other; a selector text is a selector
    in any place; an index is an integer of at most 20 digits; names are
    bare words; an argument holds neither a single quote nor a
    backslash. *)
Definition stageOk (first : bool) (command : Ast.Command) : bool :=
  match command with
  | Ast.CssSelector selector =>
      (first && isSimpleWord (chars selector)) || selectorText (chars selector)
  | Ast.Property name => negb first && isSimpleWord (chars name)
  | Ast.ArrayAccess index => NumberLaws.twentyDigits index
  | Ast.FunctionCall name args =>
      isSimpleWord (chars name) && forallb (fun arg => verbatim "'" (chars arg)) args
  | Ast.Pipe _ _ => false
  end.

Fixpoint stagesOk (first : bool) (commands : list Ast.Command) : bool :=
  match commands with
  | [] => true
  | command :: rest => stageOk first command && stagesOk false rest
  end.

(** The tokens of the written form, by type and text. *)
Fixpoint argumentTokens (args : list string) : list (Tok.TokenType * string) :=
  match args with
  | [] => []
  | arg :: rest =>
      (Tok.STRING, arg) :: match rest with
                           | [] => []
                           | _ => (Tok.COMMA, ",") :: argumentTokens rest
                           end
  end.

Definition commandTokens (command : Ast.Command) : list (Tok.TokenType * string) :=
  match command with
  | Ast.CssSelector selector => [(Tok.CSS_SELECTOR, selector)]
  | Ast.Property name => [(Tok.PROPERTY, name)]
  | Ast.ArrayAccess index =>
      [(Tok.OPEN_BRACKET, "["); (Tok.NUMBER, showZ index); (Tok.CLOSE_BRACKET, "]")]
  | Ast.FunctionCall name args =>
      (Tok.FUNCTION_NAME, name) :: (Tok.OPEN_PAREN, "(")
      :: argumentTokens args ++ [(Tok.CLOSE_PAREN, ")")]
  | Ast.Pipe _ _ => []
  end.

Fixpoint pipelineTokens (commands : list Ast.Command) : list (Tok.TokenType * string) :=
  match commands with
  | [] => []
  | command :: rest =>
      commandTokens command ++ match rest with
                               | [] => []
                               | _ => (Tok.PIPE, "|") :: pipelineTokens rest
                               end
  end.

(** Turns that add the tokens [shape]. *)
Definition emits (input : list ascii) (st : state) (shape : list (Tok.TokenType * string))
    (st' : state) : Prop :=
  lexes input st st'
  /\ exists more, tokens st' = tokens st ++ more /\ map kind more = shape.

Lemma emits_nil (input : list ascii) (st : state) : emits input st [] st.
Proof. split; [apply lexes_refl|]. exists []. rewrite app_nil_r. split; reflexivity. Qed.

Lemma emits_one (input : list ascii) (st st' : state) (k : Tok.TokenType * string) :
  step input st = Continue st' ->
  (exists t, tokens st' = tokens st ++ [t] /\ kind t = k) ->
  emits input st [k] st'.
Proof.
  intros Hstep (t & Ht & Hk). split; [apply lexes_one; exact Hstep|].
  exists [t]. split; [exact Ht|]. cbn [map]. rewrite Hk. reflexivity.
Qed.

Lemma emits_app (input : list ascii) (a b c : state)
    (s1 s2 : list (Tok.TokenType * string)) :
  emits input a s1 b -> emits input b s2 c -> emits input a (s1 ++ s2) c.
Proof.
  intros (Hab & m1 & Ht1 & Hk1) (Hbc & m2 & Ht2 & Hk2).
  split; [eapply lexes_trans; eassumption|].
  exists (m1 ++ m2). rewrite Ht2, Ht1, <- app_assoc, map_app, Hk1, Hk2.
  split; reflexivity.
Qed.

Lemma emits_tokens (input : list ascii) (st st' : state)
    (shape : list (Tok.TokenType * string)) :
  emits input st shape st' -> shape <> [] -> tokens st' <> [].
Proof.
  intros (_ & more & Ht & Hk) Hne Hnil. rewrite Ht in Hnil.
  apply app_eq_nil in Hnil as [_ ->]. apply Hne. symmetry. exact Hk.
Qed.

Ltac same_text H :=
  rewrite H; cbn [map commaSeparated quoted renderCommand render app chars
                  list_ascii_of_string];
  repeat (rewrite ?app_nil_r, <- ?app_assoc; cbn [app]); reflexivity.

Lemma lex_arguments (input : list ascii) (args : list string) :
  forall (st : state) (rest : list ascii),
    drop (position st) input = commaSeparated (map quoted args) ++ ")"%char :: rest ->
    forallb (fun arg => verbatim "'" (chars arg)) args = true ->
    exists st',
      emits input st (argumentTokens args) st'
      /\ drop (position st') input = ")"%char :: rest.
Proof.
  induction args as [|arg args IH]; intros st rest Hdrop Hargs.
  - exists st. split; [apply emits_nil|exact Hdrop].
  - cbn [forallb] in Hargs. apply andb_prop in Hargs as [Harg Hrest].
    destruct args as [|arg2 args].
    + assert (Hshape : drop (position st) input
                       = [] ++ "'"%char :: chars arg ++ "'"%char :: ")"%char :: rest)
        by same_text Hdrop.
      destruct (step_string input st [] "'" (chars arg) (")"%char :: rest) Hshape
                  eq_refl eq_refl Harg) as (st' & Hstep & Htok & Hafter).
      exists st'. split; [|exact Hafter].
      apply (emits_one _ _ _ _ Hstep). rewrite TextLaws.text_chars in Htok. exact Htok.
    + assert (Hshape : drop (position st) input
                       = [] ++ "'"%char :: chars arg ++ "'"%char
                         :: [] ++ ","%char :: commaSeparated (map quoted (arg2 :: args))
                            ++ ")"%char :: rest)
        by same_text Hdrop.
      destruct (step_string input st [] "'" (chars arg) _ Hshape eq_refl eq_refl Harg)
        as (st1 & Hstep1 & Htok1 & Hafter1).
      rewrite TextLaws.text_chars in Htok1.
      destruct (step_punctuation input st1 [] "," _ Tok.COMMA Hafter1 eq_refl eq_refl)
        as (st2 & Hstep2 & Htok2 & Hafter2).
      destruct (IH st2 rest Hafter2 Hrest) as (st3 & Hemit & Hafter3).
      exists st3. split; [|exact Hafter3].
      change (argumentTokens (arg :: arg2 :: args))
        with ([(Tok.STRING, arg)] ++ [(Tok.COMMA, ","%string)]
              ++ argumentTokens (arg2 :: args)).
      eapply emits_app; [apply (emits_one _ _ _ _ Hstep1 Htok1)|].
      eapply emits_app; [apply (emits_one _ _ _ _ Hstep2 Htok2)|exact Hemit].
Qed.

Definition noneYet (st : state) : bool :=
  match tokens st with
  | [] => true
  | _ => false
  end.

Lemma closing_bracket_ends_number (rest : list ascii) : endsNumber ("]"%char :: rest) = true.
Proof. reflexivity. Qed.

(** One stage, written between white space and followed by a pipe or by
    nothing, becomes its tokens. *)
Lemma lex_command (input : list ascii) (st : state) (command : Ast.Command)
    (lead trail tail : list ascii) :
  drop (position st) input = lead ++ renderCommand command ++ trail ++ tail ->
  forallb isWhitespace lead = true ->
  forallb isWhitespace trail = true ->
  segmentEnd tail ->
  stageOk (noneYet st) command = true ->
  exists st' trail',
    emits input st (commandTokens command) st'
    /\ drop (position st') input = trail' ++ tail
    /\ (trail' = [] \/ trail' = trail)
    /\ tokens st' <> [].
Proof.
  intros Hdrop Hlead Htrail Htail Hok.
  assert (Hdone : forall st' trail',
            emits input st (commandTokens command) st' ->
            commandTokens command <> [] ->
            drop (position st') input = trail' ++ tail ->
            trail' = [] \/ trail' = trail ->
            exists st' trail',
              emits input st (commandTokens command) st'
              /\ drop (position st') input = trail' ++ tail
              /\ (trail' = [] \/ trail' = trail)
              /\ tokens st' <> []).
  { intros st' trail' Hemit Hne Hafter Hwhich. exists st', trail'.
    split; [exact Hemit|]. split; [exact Hafter|]. split; [exact Hwhich|].
    eapply emits_tokens; eassumption. }
  destruct command as [selector|name args|name|index|name commands];
    cbn [stageOk renderCommand commandTokens] in *.
  - (* a selector: the first bare word, or a selector text *)
    apply orb_prop in Hok as [Hok|Hsel].
    + apply andb_prop in Hok as [Hfirst Hword].
      destruct (step_word input st lead (chars selector) trail tail Hdrop Hlead Htrail
                  Htail Hword) as (st' & trail' & Hstep & Htok & Hafter & Hwhich).
      unfold noneYet in Hfirst. destruct (tokens st) eqn:Hnone; [|discriminate].
      rewrite TextLaws.text_chars in Htok.
      apply (Hdone st' trail'); [|discriminate|exact Hafter|exact Hwhich].
      apply (emits_one _ _ _ _ Hstep). rewrite Hnone. exact Htok.
    + destruct (step_selector input st lead (chars selector) trail tail Hdrop Hlead
                  Htrail Htail Hsel) as (st' & Hstep & Htok & Hafter).
      rewrite TextLaws.text_chars in Htok.
      apply (Hdone st' []); [|discriminate|exact Hafter|left; reflexivity].
      apply (emits_one _ _ _ _ Hstep). exact Htok.
  - (* a call *)
    apply andb_prop in Hok as [Hname Hargs].
    assert (Hshape : drop (position st) input
                     = lead ++ chars name ++ "("%char
                       :: commaSeparated (map quoted args)
                          ++ ")"%char :: trail ++ tail)
      by same_text Hdrop.
    destruct (step_call input st lead (chars name) _ Hshape Hlead Hname)
      as (st1 & Hstep1 & Htok1 & Hafter1).
    rewrite TextLaws.text_chars in Htok1.
    destruct (step_punctuation input st1 [] "(" _ Tok.OPEN_PAREN Hafter1 eq_refl eq_refl)
      as (st2 & Hstep2 & Htok2 & Hafter2).
    destruct (lex_arguments input args st2 (trail ++ tail) Hafter2 Hargs)
      as (st3 & Hemit3 & Hafter3).
    destruct (step_punctuation input st3 [] ")" _ Tok.CLOSE_PAREN Hafter3 eq_refl eq_refl)
      as (st4 & Hstep4 & Htok4 & Hafter4).
    apply (Hdone st4 trail); [|discriminate|exact Hafter4|right; reflexivity].
    change ((Tok.FUNCTION_NAME, name) :: (Tok.OPEN_PAREN, "("%string)
            :: argumentTokens args ++ [(Tok.CLOSE_PAREN, ")"%string)])
      with ([(Tok.FUNCTION_NAME, name)] ++ [(Tok.OPEN_PAREN, "("%string)]
            ++ argumentTokens args ++ [(Tok.CLOSE_PAREN, ")"%string)]).
    eapply emits_app; [apply (emits_one _ _ _ _ Hstep1 Htok1)|].
    eapply emits_app; [apply (emits_one _ _ _ _ Hstep2 Htok2)|].
    eapply emits_app; [exact Hemit3|apply (emits_one _ _ _ _ Hstep4 Htok4)].
  - (* a property: a bare word after the first token *)
    apply andb_prop in Hok as [Hlater Hword].
    destruct (step_word input st lead (chars name) trail tail Hdrop Hlead Htrail
                Htail Hword) as (st' & trail' & Hstep & Htok & Hafter & Hwhich).
    unfold noneYet in Hlater. destruct (tokens st) eqn:Hnone; [discriminate|].
    rewrite TextLaws.text_chars in Htok.
    apply (Hdone st' trail'); [|discriminate|exact Hafter|exact Hwhich].
    apply (emits_one _ _ _ _ Hstep). rewrite Hnone. exact Htok.
  - (* an index *)
    destruct (NumberLaws.showZ_chars index) as (digits & Hchars & Hne & Hall & _).
    assert (Hshape : drop (position st) input
                     = lead ++ "["%char :: chars (showZ index)
                       ++ "]"%char :: trail ++ tail)
      by same_text Hdrop.
    destruct (step_punctuation input st lead "[" _ Tok.OPEN_BRACKET Hshape Hlead eq_refl)
      as (st1 & Hstep1 & Htok1 & Hafter1).
    assert (Hnumber : drop (position st1) input
                      = [] ++ ((if (index <? 0)%Z then ["-"%char] else []) ++ digits)
                        ++ "]"%char :: trail ++ tail)
      by (rewrite Hafter1, Hchars; reflexivity).
    destruct (step_number input st1 [] (index <? 0)%Z digits _ Hnumber eq_refl Hne Hall
                (closing_bracket_ends_number _))
      as (st2 & Hstep2 & Htok2 & Hafter2).
    rewrite <- Hchars, TextLaws.text_chars in Htok2.
    destruct (step_punctuation input st2 [] "]" _ Tok.CLOSE_BRACKET Hafter2 eq_refl eq_refl)
      as (st3 & Hstep3 & Htok3 & Hafter3).
    apply (Hdone st3 trail); [|discriminate|exact Hafter3|right; reflexivity].
    change [(Tok.OPEN_BRACKET, "["%string); (Tok.NUMBER, showZ index);
            (Tok.CLOSE_BRACKET, "]"%string)]
      with ([(Tok.OPEN_BRACKET, "["%string)] ++ [(Tok.NUMBER, showZ index)]
            ++ [(Tok.CLOSE_BRACKET, "]"%string)]).
    eapply emits_app; [apply (emits_one _ _ _ _ Hstep1 Htok1)|].
    eapply emits_app; [apply (emits_one _ _ _ _ Hstep2 Htok2)|].
    apply (emits_one _ _ _ _ Hstep3 Htok3).
  - discriminate.
Qed.

(** A whole pipeline, followed by a pipe or by nothing, becomes the tokens
    of its stages with a pipe token between them. *)
Lemma lex_pipeline (input : list ascii) (commands : list Ast.Command) :
  forall (st : state) (lead trail tail : list ascii),
    commands <> [] ->
    drop (position st) input = lead ++ render commands ++ trail ++ tail ->
    forallb isWhitespace lead = true ->
    forallb isWhitespace trail = true ->
    segmentEnd tail ->
    stagesOk (noneYet st) commands = true ->
    exists st' trail',
      emits input st (pipelineTokens commands) st'
      /\ drop (position st') input = trail' ++ tail
      /\ (trail' = [] \/ trail' = trail).
Proof.
  induction commands as [|command rest IH];
    intros st lead trail tail Hne Hdrop Hlead Htrail Htail Hok; [congruence|].
  cbn [stagesOk] in Hok. apply andb_prop in Hok as [Hstage Hrest].
  destruct rest as [|next rest].
  - assert (Hshape : drop (position st) input
                     = lead ++ renderCommand command ++ trail ++ tail)
      by same_text Hdrop.
    destruct (lex_command input st command lead trail tail Hshape Hlead Htrail Htail
                Hstage)
      as (st' & trail' & Hemit & Hafter & Hwhich & _).
    exists st', trail'. cbn [pipelineTokens]. rewrite app_nil_r.
    split; [exact Hemit|]. split; [exact Hafter|exact Hwhich].
  - assert (Hshape : drop (position st) input
                     = lead ++ renderCommand command ++ [" "%char]
                       ++ "|"%char :: " "%char :: render (next :: rest) ++ trail ++ tail)
      by same_text Hdrop.
    destruct (lex_command input st command lead [" "%char] _ Hshape Hlead eq_refl
                (or_intror (ex_intro _ _ eq_refl)) Hstage)
      as (st1 & trail1 & Hemit1 & Hafter1 & Hwhich1 & Hsome).
    assert (Htrail1 : forallb isWhitespace trail1 = true)
      by (destruct Hwhich1 as [-> | ->]; reflexivity).
    destruct (step_punctuation input st1 trail1 "|" _ Tok.PIPE Hafter1 Htrail1 eq_refl)
      as (st2 & Hstep2 & Htok2 & Hafter2).
    assert (Hlater : noneYet st2 = false).
    { destruct Htok2 as (t & Ht & _). unfold noneYet. rewrite Ht.
      destruct (tokens st1); reflexivity. }
    destruct (IH st2 [" "%char] trail tail ltac:(discriminate) Hafter2 eq_refl Htrail
                Htail ltac:(rewrite Hlater; exact Hrest))
      as (st3 & trail3 & Hemit3 & Hafter3 & Hwhich3).
    exists st3, trail3. split; [|split; [exact Hafter3|exact Hwhich3]].
    change (pipelineTokens (command :: next :: rest))
      with (commandTokens command ++ [(Tok.PIPE, "|"%string)]
            ++ pipelineTokens (next :: rest)).
    eapply emits_app; [exact Hemit1|].
    eapply emits_app; [apply (emits_one _ _ _ _ Hstep2 Htok2)|exact Hemit3].
Qed.

(** *** The written form is trimmed already *)

Lemma word_first (word : list ascii) :
  isSimpleWord word = true ->
  exists c middle, word = c :: middle /\ isWhitespace c = false.
Proof.
  intros Hword. destruct (simpleWord_inv word Hword) as (c & r & -> & Hc & _).
  exists c, r. split; [reflexivity|].
  destruct (wordStart_facts c Hc) as (Hbody & _). apply (wordBody_facts c Hbody).
Qed.

Lemma word_solid (word : list ascii) : isSimpleWord word = true -> solid word.
Proof.
  intros Hword. split; [apply word_first; exact Hword|].
  destruct (simpleWord_inv word Hword) as (c & r & Hcr & _ & Hall).
  assert (Hne : word <> []) by (rewrite Hcr; discriminate).
  destruct (exists_last Hne) as (front & d & Hl).
  exists front, d. split; [exact Hl|].
  rewrite Hl, forallb_app in Hall. apply andb_prop in Hall as [_ Hd].
  cbn [forallb] in Hd. rewrite andb_true_r in Hd. apply (wordBody_facts d Hd).
Qed.

Lemma renderCommand_solid (first : bool) (command : Ast.Command) :
  stageOk first command = true -> solid (renderCommand command).
Proof.
  destruct command as [selector|name args|name|index|name commands];
    cbn [stageOk renderCommand]; intros Hok.
  - apply orb_prop in Hok as [Hok|Hsel].
    + apply andb_prop in Hok as [_ Hword]. apply word_solid. exact Hword.
    + apply (selectorText_inv _ Hsel).
  - apply andb_prop in Hok as [Hname _].
    destruct (word_first _ Hname) as (c & middle & -> & Hc).
    split.
    + eexists c, _. split; [reflexivity|exact Hc].
    + exists ((c :: middle) ++ "("%char :: commaSeparated (map quoted args)), ")"%char.
      split; [|reflexivity]. rewrite <- app_assoc. reflexivity.
  - apply andb_prop in Hok as [_ Hword]. apply word_solid. exact Hword.
  - apply solid_ends; reflexivity.
  - discriminate.
Qed.

Lemma render_solid (commands : list Ast.Command) :
  forall first, commands <> [] -> stagesOk first commands = true -> solid (render commands).
Proof.
  induction commands as [|command rest IH]; intros first Hne Hok; [congruence|].
  cbn [stagesOk] in Hok. apply andb_prop in Hok as [Hstage Hrest].
  cbn [render]. destruct rest as [|next rest].
  - rewrite app_nil_r. apply (renderCommand_solid first). exact Hstage.
  - apply solid_app.
    + apply (renderCommand_solid first). exact Hstage.
    + apply (IH false); [discriminate|exact Hrest].
Qed.

Lemma pipe_solid : solid ["|"%char].
Proof.
  split; [exists "|"%char, []|exists [], "|"%char]; split; reflexivity.
Qed.

(** The tokens of a pipeline in writing, with or without a pipe after the
    last stage. *)
Lemma tokenize_rendered (commands : list Ast.Command) (trailing : bool) :
  stagesOk true commands = true ->
  (trailing = true -> commands <> []) ->
  exists toks,
    tokenize (text (render commands ++ if trailing then chars " |" else []))
      = Some (inr toks)
    /\ map kind toks
       = pipelineTokens commands
         ++ (if trailing then [(Tok.PIPE, "|")] else []) ++ [(Tok.EOF, "")].
Proof.
  intros Hok Hsome. destruct commands as [|command rest].
  - destruct trailing; [exfalso; apply Hsome; reflexivity|].
    eexists. split; reflexivity.
  - set (commands := command :: rest) in *.
    assert (Hsolid : solid (render commands))
      by (apply (render_solid _ true); [discriminate|exact Hok]).
    destruct trailing.
    + set (written := render commands ++ chars " |").
      assert (Htrim : trim (chars (text written)) = written).
      { rewrite chars_text. apply solid_trim.
        exact (solid_app (render commands) [" "%char] ["|"%char] Hsolid pipe_solid). }
      destruct (lex_pipeline written commands initial [] [" "%char] ["|"%char]
                  ltac:(discriminate) eq_refl eq_refl eq_refl
                  (or_intror (ex_intro _ _ eq_refl)) Hok)
        as (st1 & trail1 & Hemit1 & Hafter1 & Hwhich1).
      assert (Htrail1 : forallb isWhitespace trail1 = true)
        by (destruct Hwhich1 as [-> | ->]; reflexivity).
      destruct (step_punctuation written st1 trail1 "|" [] Tok.PIPE Hafter1 Htrail1 eq_refl)
        as (st2 & Hstep2 & Htok2 & Hafter2).
      destruct (emits_app _ _ _ _ _ _ Hemit1 (emits_one _ _ _ _ Hstep2 Htok2))
        as (Hlex & more & Htok & Hkinds).
      destruct (tokenize_lexed (text written) st2) as (eof & Hrun & Heof).
      * rewrite Htrim. exact Hlex.
      * rewrite Htrim. exact Hafter2.
      * exists (tokens st2 ++ [eof]). split; [exact Hrun|].
        rewrite Htok. cbn [tokens initial app]. rewrite map_app, Hkinds. cbn [map].
        rewrite Heof, <- app_assoc. reflexivity.
    + rewrite app_nil_r.
      assert (Htrim : trim (chars (text (render commands))) = render commands)
        by (rewrite chars_text; apply solid_trim; exact Hsolid).
      destruct (lex_pipeline (render commands) commands initial [] [] []
                  ltac:(discriminate) ltac:(rewrite !app_nil_r; reflexivity)
                  eq_refl eq_refl (or_introl eq_refl) Hok)
        as (st & trail' & (Hlex & more & Htok & Hkinds) & Hafter & Hwhich).
      destruct (tokenize_lexed (text (render commands)) st) as (eof & Hrun & Heof).
      * rewrite Htrim. exact Hlex.
      * rewrite Htrim, Hafter. destruct Hwhich as [-> | ->]; reflexivity.
      * exists (tokens st ++ [eof]). split; [exact Hrun|].
        rewrite Htok. cbn [tokens initial app]. rewrite map_app, Hkinds. cbn [map].
        rewrite Heof. reflexivity.
Qed.

(** *** How an input may begin *)

(** The characters that can begin a stage: those that begin a word, and
    the opening bracket. *)
Definition startsStage (c : ascii) : bool :=
  isAlpha c || Ascii.eqb c "_" || Ascii.eqb c "-" || Ascii.eqb c "." || Ascii.eqb c "#"
  || Ascii.eqb c "[".

(** The token types a stage begins with. *)
Definition startsCommand (type : Tok.TokenType) : bool :=
  match type with
  | Tok.CSS_SELECTOR | Tok.FUNCTION_NAME | Tok.PROPERTY | Tok.OPEN_BRACKET => true
  | _ => false
  end.

Lemma startsStage_facts (c : ascii) :
  startsStage c = false ->
  Ascii.eqb c "[" = false /\ Ascii.eqb c "-" = false
  /\ (isAlpha c || Ascii.eqb c "_" || Ascii.eqb c "-" || Ascii.eqb c "."
      || Ascii.eqb c "#") = false.
Proof. all_chars c. Qed.

(** The first turn on an input that begins with any other character: it
    throws, or it makes a token no stage begins with. *)
Lemma first_turn (c : ascii) (rest : list ascii) :
  isWhitespace c = false ->
  startsStage c = false ->
  (exists message, step (c :: rest) initial = Throw message)
  \/ (exists st t,
        step (c :: rest) initial = Continue st
        /\ tokens st = [t]
        /\ startsCommand (Tok.type t) = false /\ Tok.type t <> Tok.EOF).
Proof.
  intros Hws Hstart.
  destruct (startsStage_facts c Hstart) as (Hbracket & Hminus & Hword).
  rewrite (step_dispatch (c :: rest) initial [] c rest eq_refl eq_refl Hws).
  cbv zeta. rewrite Hword, Hbracket, Hminus. cbn [andb orb].
  repeat match goal with
         | |- context [if Ascii.eqb c ?x then _ else _] =>
             destruct (Ascii.eqb c x);
             [right; eexists _, _; split; [reflexivity|];
              split; [reflexivity|]; split; [reflexivity|discriminate]|]
         end.
  destruct (Ascii.eqb c doubleQuote || Ascii.eqb c "'").
  - unfold tokenizeString.
    destruct (scanString _ _ _ _) as [pos value].
    destruct (_ <=? _); [left; eexists; reflexivity|].
    right. eexists _, _. split; [reflexivity|].
    split; [reflexivity|]. split; [reflexivity|discriminate].
  - rewrite orb_false_r. destruct (isDigit c).
    + right. unfold tokenizeNumber. eexists _, _. split; [reflexivity|].
      split; [reflexivity|]. split; [reflexivity|discriminate].
    + left. eexists. reflexivity.
Qed.

End LexerLaws.

(** ** Parser *)

Module ParserLaws.
Import Ast Parser.
Import Chars CharFacts.

(** A selector of nothing but white space is a valid, empty pipeline. *)
Lemma parse_blank (input : string) :
  forallb isWhitespace (chars input) = true ->
  parse input = Some {| commands := []; isValid := true; errors := [] |}.
Proof.
  intros Hall. unfold parse, Tokenizer.tokenize.
  rewrite TextLaws.trim_blank by exact Hall. reflexivity.
Qed.


(** *** Reading tokens by type and text *)

Lemma kinds_at (toks : list Tok.Token) (pos : nat) (k : Tok.TokenType * string)
    (rest : list (Tok.TokenType * string)) :
  drop pos (map LexerLaws.kind toks) = k :: rest ->
  exists t,
    toks !! pos = Some t /\ Tok.type t = fst k /\ Tok.value t = snd k
    /\ drop (S pos) (map LexerLaws.kind toks) = rest
    /\ pos < List.length toks.
Proof.
  intros Hdrop.
  assert (Hk : map LexerLaws.kind toks !! pos = Some k).
  { rewrite <- (Nat.add_0_r pos), <- lookup_drop, Hdrop. reflexivity. }
  rewrite list_lookup_fmap in Hk.
  destruct (toks !! pos) as [t|] eqn:Ht; [|discriminate].
  cbn in Hk. injection Hk as <-.
  exists t. split; [reflexivity|]. split; [reflexivity|]. split; [reflexivity|].
  split.
  - rewrite <- (Nat.add_1_r pos), <- drop_drop, Hdrop. reflexivity.
  - apply lookup_lt_Some in Ht. exact Ht.
Qed.

Lemma type_eqb_at (t : Tok.Token) (type type' : Tok.TokenType) :
  Tok.type t = type -> Tok.type_eqb (Tok.type t) type' = Tok.type_eqb type type'.
Proof. intros ->. reflexivity. Qed.

(** The arguments of a call, up to the closing parenthesis. *)
Lemma parse_arguments (toks : list Tok.Token) (args : list string) :
  forall (fuel : nat) (done : list string) (pos : nat)
         (rest : list (Tok.TokenType * string)),
    drop pos (map LexerLaws.kind toks)
      = LexerLaws.argumentTokens args ++ (Tok.CLOSE_PAREN, ")") :: rest ->
    List.length args < fuel ->
    parseArguments fuel done toks pos
      = Ok (done ++ args) (pos + List.length (LexerLaws.argumentTokens args)).
Proof.
  induction args as [|arg args IH]; intros fuel done pos rest Hdrop Hfuel.
  - destruct fuel as [|fuel]; [lia|].
    destruct (kinds_at toks pos _ _ Hdrop) as (t & Ht & Htype & _).
    cbn [parseArguments]. unfold bind at 1. rewrite ParserFacts.matches_spec, Ht.
    rewrite (type_eqb_at t _ _ Htype). cbn [fst Tok.type_eqb].
    unfold bind at 1. rewrite ParserFacts.isAtEnd_spec. cbn [negb andb].
    unfold ret. rewrite app_nil_r, Nat.add_0_r. reflexivity.
  - destruct fuel as [|fuel]; [cbn in Hfuel; lia|].
    cbn [LexerLaws.argumentTokens app] in Hdrop.
    destruct (kinds_at toks pos _ _ Hdrop) as (t & Ht & Htype & Hvalue & Hnext & _).
    cbn [fst snd] in Htype, Hvalue.
    assert (Hstring : Tok.type_eqb (Tok.type t) Tok.EOF = false)
      by (rewrite Htype; reflexivity).
    cbn [parseArguments]. unfold bind at 1. rewrite ParserFacts.matches_spec, Ht.
    rewrite (type_eqb_at t _ _ Htype). cbn [Tok.type_eqb].
    unfold bind at 1. rewrite ParserFacts.isAtEnd_spec. unfold ParserFacts.atEnd.
    rewrite Ht, Hstring. cbn [negb andb].
    unfold bind at 1. unfold parseArgument. unfold bind at 1. unfold peek. rewrite Ht.
    rewrite Htype. unfold bind at 1.
    rewrite (ParserFacts.advance_spec toks pos t Ht Hstring). unfold ret at 1.
    rewrite Hvalue.
    destruct args as [|arg2 args].
    + cbn [app] in Hnext.
      destruct (kinds_at toks (S pos) _ _ Hnext) as (t1 & Ht1 & Htype1 & _).
      cbn [fst] in Htype1.
      unfold bind at 1. rewrite ParserFacts.matches_spec, Ht1.
      rewrite (type_eqb_at t1 _ _ Htype1). cbn [Tok.type_eqb].
      unfold bind at 1. rewrite ParserFacts.matches_spec, Ht1.
      rewrite (type_eqb_at t1 _ _ Htype1). cbn [Tok.type_eqb negb].
      rewrite (IH fuel (done ++ [arg]) (S pos) rest Hnext) by (cbn in *; lia).
      cbn [LexerLaws.argumentTokens List.length]. rewrite app_nil_r.
      f_equal. lia.
    + cbn [app] in Hnext.
      destruct (kinds_at toks (S pos) _ _ Hnext) as (t1 & Ht1 & Htype1 & _ & Hnext1 & _).
      cbn [fst] in Htype1.
      assert (Hcomma : Tok.type_eqb (Tok.type t1) Tok.COMMA = true)
        by (rewrite Htype1; reflexivity).
      unfold bind at 1. rewrite ParserFacts.matches_spec, Ht1, Hcomma.
      unfold bind at 1.
      rewrite (ParserFacts.skip_token toks (S pos) t1 Tok.COMMA Ht1 Hcomma)
        by discriminate.
      rewrite (IH fuel (done ++ [arg]) (S (S pos)) rest Hnext1) by (cbn in *; lia).
      rewrite <- app_assoc. cbn [app].
      change (LexerLaws.argumentTokens (arg :: arg2 :: args))
        with ((Tok.STRING, arg) :: (Tok.COMMA, ","%string)
              :: LexerLaws.argumentTokens (arg2 :: args)).
      cbn [List.length]. f_equal. lia.
Qed.


Lemma argumentTokens_length (args : list string) :
  List.length args <= List.length (LexerLaws.argumentTokens args).
Proof.
  induction args as [|arg args IH]; [reflexivity|].
  cbn [LexerLaws.argumentTokens List.length]. destruct args; cbn [List.length] in *; lia.
Qed.

(** A stage as it is read back: its index has become a double. *)
Definition asRead (command : Command) : Command :=
  match command with
  | ArrayAccess index => ArrayAccess (Js.toDouble index)
  | _ => command
  end.

(** The stages that are read back as they are: their index is a safe
    integer. *)
Definition safeStage (command : Command) : bool :=
  match command with
  | ArrayAccess index => NumberLaws.isSafeInteger index
  | _ => true
  end.

Lemma asRead_safe (commands : list Command) :
  forallb safeStage commands = true -> map asRead commands = commands.
Proof.
  induction commands as [|command rest IH]; [reflexivity|].
  cbn [forallb map]. intros Hsafe. apply andb_prop in Hsafe as [Hc Hrest].
  rewrite (IH Hrest). f_equal.
  destruct command; try reflexivity. cbn [asRead safeStage] in *.
  rewrite (NumberLaws.toDouble_safe _ Hc). reflexivity.
Qed.

(** One stage, from its tokens. *)
Lemma parse_command (toks : list Tok.Token) (command : Command) (first : bool)
    (fuel pos : nat) (rest : list (Tok.TokenType * string)) :
  drop pos (map LexerLaws.kind toks) = LexerLaws.commandTokens command ++ rest ->
  LexerLaws.stageOk first command = true ->
  List.length toks - pos <= fuel ->
  parseCommand fuel toks pos
    = Ok (asRead command) (pos + List.length (LexerLaws.commandTokens command)).
Proof.
  intros Hdrop Hok Hfuel.
  destruct command as [selector|name args|name|index|name commands];
    cbn [LexerLaws.commandTokens app] in Hdrop; [| | | |discriminate].
  - destruct (kinds_at toks pos _ _ Hdrop) as (t & Ht & Htype & Hvalue & _).
    cbn [fst snd] in Htype, Hvalue.
    unfold parseCommand. unfold bind at 1. unfold peek. rewrite Ht, Htype.
    unfold parseCssSelector, bind.
    rewrite (ParserFacts.advance_spec toks pos t Ht) by (rewrite Htype; reflexivity).
    unfold ret. rewrite Hvalue. cbn [LexerLaws.commandTokens List.length].
    f_equal. lia.
  - destruct (kinds_at toks pos _ _ Hdrop) as (t & Ht & Htype & Hvalue & Hnext & Hlt).
    cbn [fst snd] in Htype, Hvalue.
    destruct (kinds_at toks (S pos) _ _ Hnext) as (t1 & Ht1 & Htype1 & _ & Hargs & _).
    cbn [fst] in Htype1.
    assert (Hopen : Tok.type_eqb (Tok.type t1) Tok.OPEN_PAREN = true)
      by (rewrite Htype1; reflexivity).
    rewrite <- app_assoc in Hargs. cbn [app] in Hargs.
    assert (Hcount : List.length args < fuel).
    { pose proof (argumentTokens_length args) as Hlen.
      assert (Hall : List.length (drop (S (S pos)) (map LexerLaws.kind toks))
                     = List.length (LexerLaws.argumentTokens args) + S (List.length rest))
        by (rewrite Hargs, length_app; reflexivity).
      rewrite length_drop, length_map in Hall. lia. }
    unfold parseCommand. unfold bind at 1. unfold peek. rewrite Ht, Htype.
    unfold parseFunction. unfold bind at 1.
    rewrite (ParserFacts.advance_spec toks pos t Ht) by (rewrite Htype; reflexivity).
    unfold bind at 1. rewrite ParserFacts.matches_spec, Ht1, Hopen. cbn [negb].
    unfold bind at 1.
    rewrite (ParserFacts.skip_token toks (S pos) t1 Tok.OPEN_PAREN Ht1 Hopen)
      by discriminate.
    unfold bind at 1.
    rewrite (parse_arguments toks args fuel [] (S (S pos)) rest Hargs Hcount).
    cbn [app].
    assert (Hclose : drop (S (S pos) + List.length (LexerLaws.argumentTokens args))
                       (map LexerLaws.kind toks) = (Tok.CLOSE_PAREN, ")"%string) :: rest).
    { rewrite <- drop_drop, Hargs. apply drop_app_length. }
    destruct (kinds_at toks _ _ _ Hclose) as (t2 & Ht2 & Htype2 & _).
    cbn [fst] in Htype2.
    assert (Hclosing : Tok.type_eqb (Tok.type t2) Tok.CLOSE_PAREN = true)
      by (rewrite Htype2; reflexivity).
    unfold bind at 1. rewrite ParserFacts.matches_spec, Ht2, Hclosing. cbn [negb].
    unfold bind at 1.
    rewrite (ParserFacts.skip_token toks _ t2 Tok.CLOSE_PAREN Ht2 Hclosing)
      by discriminate.
    unfold ret. rewrite Hvalue. cbn [LexerLaws.commandTokens List.length].
    rewrite length_app. cbn [List.length]. f_equal. lia.
  - destruct (kinds_at toks pos _ _ Hdrop) as (t & Ht & Htype & Hvalue & _).
    cbn [fst snd] in Htype, Hvalue.
    unfold parseCommand. unfold bind at 1. unfold peek. rewrite Ht, Htype.
    unfold parseProperty, bind.
    rewrite (ParserFacts.advance_spec toks pos t Ht) by (rewrite Htype; reflexivity).
    unfold ret. rewrite Hvalue. cbn [LexerLaws.commandTokens List.length].
    f_equal. lia.
  - destruct (kinds_at toks pos _ _ Hdrop) as (t & Ht & Htype & _ & Hnext & _).
    cbn [fst] in Htype.
    destruct (kinds_at toks (S pos) _ _ Hnext) as (t1 & Ht1 & Htype1 & Hvalue1 & Hnext1 & _).
    cbn [fst snd] in Htype1, Hvalue1.
    destruct (kinds_at toks (S (S pos)) _ _ Hnext1) as (t2 & Ht2 & Htype2 & _).
    cbn [fst] in Htype2.
    assert (Hopen : Tok.type_eqb (Tok.type t) Tok.OPEN_BRACKET = true)
      by (rewrite Htype; reflexivity).
    assert (Hnumber : Tok.type_eqb (Tok.type t1) Tok.NUMBER = true)
      by (rewrite Htype1; reflexivity).
    assert (Hclosing : Tok.type_eqb (Tok.type t2) Tok.CLOSE_BRACKET = true)
      by (rewrite Htype2; reflexivity).
    unfold parseCommand. unfold bind at 1. unfold peek. rewrite Ht, Htype.
    unfold parseArrayAccess. unfold bind at 1.
    rewrite (ParserFacts.skip_token toks pos t Tok.OPEN_BRACKET Ht Hopen) by discriminate.
    unfold bind at 1. rewrite ParserFacts.matches_spec, Ht1, Hnumber. cbn [negb].
    unfold bind at 1.
    rewrite (ParserFacts.advance_spec toks (S pos) t1 Ht1)
      by (rewrite Htype1; reflexivity).
    rewrite Hvalue1, NumberLaws.parseInt_showZ_double.
    unfold bind at 1. rewrite ParserFacts.matches_spec, Ht2, Hclosing. cbn [negb].
    unfold bind at 1.
    rewrite (ParserFacts.skip_token toks (S (S pos)) t2 Tok.CLOSE_BRACKET Ht2 Hclosing)
      by discriminate.
    unfold ret. cbn [LexerLaws.commandTokens List.length]. f_equal. lia.
Qed.

Lemma commandTokens_first (command : Command) (first : bool) :
  LexerLaws.stageOk first command = true ->
  exists k rest,
    LexerLaws.commandTokens command = k :: rest
    /\ Tok.type_eqb (fst k) Tok.EOF = false.
Proof.
  destruct command; cbn [LexerLaws.stageOk LexerLaws.commandTokens]; intros Hok;
    try discriminate; eexists _, _; split; reflexivity.
Qed.

(** A pipeline, from its tokens; a pipe may follow the last stage. *)
Lemma parse_pipeline (toks : list Tok.Token) (commands : list Command) :
  forall (first trailing : bool) (fuel : nat) (done : list Command) (pos : nat),
    drop pos (map LexerLaws.kind toks)
      = LexerLaws.pipelineTokens commands
        ++ (if trailing then [(Tok.PIPE, "|")] else []) ++ [(Tok.EOF, "")] ->
    (trailing = true -> commands <> []) ->
    LexerLaws.stagesOk first commands = true ->
    List.length toks - pos < fuel ->
    exists pos',
      parseCommands fuel done toks pos = Ok (done ++ map asRead commands) pos'.
Proof.
  induction commands as [|command rest IH];
    intros first trailing fuel done pos Hdrop Hsome Hok Hfuel.
  - destruct trailing; [exfalso; apply Hsome; reflexivity|].
    destruct fuel as [|fuel]; [lia|].
    cbn [LexerLaws.pipelineTokens app] in Hdrop.
    destruct (kinds_at toks pos _ _ Hdrop) as (t & Ht & Htype & _).
    cbn [fst] in Htype.
    cbn [parseCommands]. unfold bind at 1. rewrite ParserFacts.isAtEnd_spec.
    unfold ParserFacts.atEnd. rewrite Ht, Htype. cbn [Tok.type_eqb].
    exists pos. unfold ret. rewrite app_nil_r. reflexivity.
  - destruct fuel as [|fuel]; [lia|].
    cbn [LexerLaws.stagesOk] in Hok. apply andb_prop in Hok as [Hstage Hrest].
    cbn [LexerLaws.pipelineTokens] in Hdrop. rewrite <- app_assoc in Hdrop.
    destruct (commandTokens_first command first Hstage) as (k & more & Hk & Hnot).
    pose proof Hdrop as Hhead. rewrite Hk in Hhead. cbn [app] in Hhead.
    destruct (kinds_at toks pos _ _ Hhead) as (t & Ht & Htype & _ & _ & Hlt).
    cbn [parseCommands]. unfold bind at 1. rewrite ParserFacts.isAtEnd_spec.
    unfold ParserFacts.atEnd. rewrite Ht, Htype, Hnot.
    unfold bind at 1.
    rewrite (parse_command toks command first fuel pos _ Hdrop Hstage) by lia.
    set (pos1 := pos + List.length (LexerLaws.commandTokens command)).
    assert (Hafter : drop pos1 (map LexerLaws.kind toks)
                     = match rest with
                       | [] => []
                       | _ => (Tok.PIPE, "|"%string) :: LexerLaws.pipelineTokens rest
                       end
                       ++ (if trailing then [(Tok.PIPE, "|"%string)] else [])
                       ++ [(Tok.EOF, ""%string)]).
    { unfold pos1. rewrite <- drop_drop, Hdrop. apply drop_app_length. }
    assert (Hmoved : pos < pos1) by (unfold pos1; rewrite Hk; cbn [List.length]; lia).
    destruct rest as [|next rest]; [destruct trailing|].
    + (* the last stage, and a pipe after it *)
      cbn [app] in Hafter.
      destruct (kinds_at toks pos1 _ _ Hafter) as (t1 & Ht1 & Htype1 & _ & Hnext & _).
      cbn [fst] in Htype1.
      assert (Hpipe : Tok.type_eqb (Tok.type t1) Tok.PIPE = true)
        by (rewrite Htype1; reflexivity).
      unfold bind at 1. rewrite ParserFacts.matches_spec, Ht1, Hpipe.
      unfold bind at 1.
      rewrite (ParserFacts.skip_token toks pos1 t1 Tok.PIPE Ht1 Hpipe) by discriminate.
      destruct (IH false false fuel (done ++ [asRead command]) (S pos1) Hnext
                  ltac:(discriminate) eq_refl ltac:(lia))
        as (pos' & Hparse).
      exists pos'. rewrite Hparse, <- app_assoc. reflexivity.
    + (* the last stage, and the end *)
      cbn [app] in Hafter.
      destruct (kinds_at toks pos1 _ _ Hafter) as (t1 & Ht1 & Htype1 & _).
      cbn [fst] in Htype1.
      unfold bind at 1. rewrite ParserFacts.matches_spec, Ht1, Htype1.
      cbn [Tok.type_eqb]. unfold bind at 1. unfold ret at 1.
      destruct (IH false false fuel (done ++ [asRead command]) pos1 Hafter
                  ltac:(discriminate) eq_refl ltac:(lia))
        as (pos' & Hparse).
      exists pos'. rewrite Hparse, <- app_assoc. reflexivity.
    + (* a stage that others follow *)
      cbn [app] in Hafter.
      destruct (kinds_at toks pos1 _ _ Hafter) as (t1 & Ht1 & Htype1 & _ & Hnext & _).
      cbn [fst] in Htype1.
      assert (Hpipe : Tok.type_eqb (Tok.type t1) Tok.PIPE = true)
        by (rewrite Htype1; reflexivity).
      unfold bind at 1. rewrite ParserFacts.matches_spec, Ht1, Hpipe.
      unfold bind at 1.
      rewrite (ParserFacts.skip_token toks pos1 t1 Tok.PIPE Ht1 Hpipe) by discriminate.
      destruct (IH false trailing fuel (done ++ [asRead command]) (S pos1) Hnext
                  ltac:(discriminate) Hrest ltac:(lia))
        as (pos' & Hparse).
      exists pos'. rewrite Hparse, <- app_assoc. reflexivity.
Qed.

(** X16.  A pipeline written out stage by stage parses back to itself.  A
    bare word is a selector in the first place and a property in any other;
    a selector text (one that begins with a letter, [_], [.] or [#],
    holds a dot, a hash, white space, a combinator, a bracket or a colon,
    holds no pipe, and whose first word no parenthesis follows) is a
    selector in any place, passed on as it is written, brackets, quotes
    and parentheses included; [name('arg',...)] is a call whose arguments
    are the quoted texts, whatever they hold besides a quote or a
    backslash: pipes, commas, parentheses and spaces included; [[index]]
    is an index of at most 20 digits, read back as it is when it is a safe
    integer (up to [2^53 - 1] in magnitude) and as the nearest double
    otherwise. *)
Theorem written_pipeline_parses_back (commands : list Command) :
  LexerLaws.stagesOk true commands = true ->
  parse (text (LexerLaws.render commands))
  = Some {| commands := map asRead commands; isValid := true; errors := [] |}
  /\ (forallb safeStage commands = true ->
      parse (text (LexerLaws.render commands))
      = Some {| commands := commands; isValid := true; errors := [] |}).
Proof.
  intros Hok.
  assert (Hparse : parse (text (LexerLaws.render commands))
                   = Some {| commands := map asRead commands; isValid := true;
                             errors := [] |}).
  { destruct (LexerLaws.tokenize_rendered commands false Hok ltac:(discriminate))
      as (toks & Htokens & Hkinds).
    rewrite app_nil_r in Htokens.
    unfold parse. rewrite Htokens.
    destruct (parse_pipeline toks commands true false (S (List.length toks)) [] 0 Hkinds
                ltac:(discriminate) Hok ltac:(lia)) as (pos' & ->).
    reflexivity. }
  split; [exact Hparse|].
  intros Hsafe. rewrite Hparse, (asRead_safe commands Hsafe). reflexivity.
Qed.

(** X17.  A pipe after the last stage is read and ignored: the pipeline parses
    as it does without it. *)
Theorem trailing_pipe_is_ignored (commands : list Command) :
  LexerLaws.stagesOk true commands = true ->
  commands <> [] ->
  parse (text (LexerLaws.render commands ++ chars " |"))
  = parse (text (LexerLaws.render commands))
  /\ (forallb safeStage commands = true ->
      parse (text (LexerLaws.render commands ++ chars " |"))
      = Some {| commands := commands; isValid := true; errors := [] |}).
Proof.
  intros Hok Hsome.
  assert (Hparse : parse (text (LexerLaws.render commands ++ chars " |"))
                   = Some {| commands := map asRead commands; isValid := true;
                             errors := [] |}).
  { destruct (LexerLaws.tokenize_rendered commands true Hok (fun _ => Hsome))
      as (toks & Htokens & Hkinds).
    unfold parse. rewrite Htokens.
    destruct (parse_pipeline toks commands true true (S (List.length toks)) [] 0 Hkinds
                (fun _ => Hsome) Hok ltac:(lia)) as (pos' & ->).
    reflexivity. }
  split.
  - rewrite Hparse. symmetry.
    destruct (LexerLaws.tokenize_rendered commands false Hok ltac:(discriminate))
      as (toks & Htokens & Hkinds).
    rewrite app_nil_r in Htokens.
    unfold parse. rewrite Htokens.
    destruct (parse_pipeline toks commands true false (S (List.length toks)) [] 0 Hkinds
                ltac:(discriminate) Hok ltac:(lia)) as (pos' & ->).
    reflexivity.
  - intros Hsafe. rewrite Hparse, (asRead_safe commands Hsafe). reflexivity.
Qed.

Lemma trailing_pipe_witness :
  parse "h1 | textContent |"
  = Some {| commands := [CssSelector "h1"; Property "textContent"];
            isValid := true; errors := [] |}.
Proof.
  exact (proj2 (trailing_pipe_is_ignored [CssSelector "h1"; Property "textContent"] eq_refl
                  ltac:(discriminate)) eq_refl).
Defined.

Lemma written_pipeline_witness :
  parse "ul.menu > li:not(.off) | a[href] | [-1] | getAttribute('data-a|b, (c)') | id"
  = Some {| commands := [ CssSelector "ul.menu > li:not(.off)"; CssSelector "a[href]";
                          ArrayAccess (-1);
                          FunctionCall "getAttribute" ["data-a|b, (c)"];
                          Property "id" ];
            isValid := true; errors := [] |}.
Proof.
  exact (proj2 (written_pipeline_parses_back
                  [ CssSelector "ul.menu > li:not(.off)"; CssSelector "a[href]";
                    ArrayAccess (-1); FunctionCall "getAttribute" ["data-a|b, (c)"];
                    Property "id" ]
                  eq_refl) eq_refl).
Defined.

(** Past the safe integers an index is read as the nearest double. *)
Example unsafe_index_is_rounded :
  parse "[9007199254740993]"
  = Some {| commands := [ArrayAccess 9007199254740992]; isValid := true; errors := [] |}.
Proof. vm_compute. reflexivity. Qed.

(** X18.  A pipeline has to begin with a stage.  An input whose first character,
    once trimmed, is none of a letter, [_], [-], [.], [#] and [[] is
    invalid: a leading pipe, a quoted text or a number, and also the
    selectors that begin with [*], [:] or [>]. *)
Theorem pipeline_must_begin_with_a_stage (input : string) (c : ascii)
    (rest : list ascii) :
  trim (chars input) = c :: rest ->
  LexerLaws.startsStage c = false ->
  exists message, parse input = Some (ParserFacts.invalid message).
Proof.
  intros Htrim Hstart.
  pose proof (TextLaws.trim_head _ _ _ Htrim) as Hws.
  destruct (TokenizerFacts.tokenize_terminates input) as [r Hr].
  unfold parse. rewrite Hr. unfold Tokenizer.tokenize in Hr. rewrite Htrim in Hr.
  change (Tokenizer.run (S (List.length (c :: rest))) (c :: rest) Tokenizer.initial)
    with (match Tokenizer.step (c :: rest) Tokenizer.initial with
          | Tokenizer.Continue st' => Tokenizer.run (List.length (c :: rest)) (c :: rest) st'
          | Tokenizer.Finished toks => Some (inr toks)
          | Tokenizer.Throw message => Some (inl message)
          end) in Hr.
  destruct (LexerLaws.first_turn c rest Hws Hstart)
    as [[message Hthrow]|(st & t & Hstep & Htokens & Hkind & Hnot)].
  - rewrite Hthrow in Hr. injection Hr as <-. eexists. reflexivity.
  - rewrite Hstep in Hr. destruct r as [message|toks]; [eexists; reflexivity|].
    destruct (TokenizerFacts.run_tokens _ _ _ _ Hr) as (more & eof & -> & _ & _).
    rewrite Htokens. cbn [app List.length parseCommands].
    unfold bind at 1. rewrite ParserFacts.isAtEnd_spec. unfold ParserFacts.atEnd.
    cbn [lookup list_lookup].
    assert (Hne : Tok.type_eqb (Tok.type t) Tok.EOF = false)
      by (destruct (Tok.type t); try reflexivity; congruence).
    rewrite Hne. unfold bind at 1. unfold parseCommand. unfold bind at 1. unfold peek.
    cbn [lookup list_lookup].
    destruct (Tok.type t); try discriminate; eexists; reflexivity.
Qed.

Lemma pipeline_begin_witness :
  exists message, parse "* | textContent" = Some (ParserFacts.invalid message).
Proof.
  exact (pipeline_must_begin_with_a_stage "* | textContent" "*"
           (list_ascii_of_string " | textContent") eq_refl eq_refl).
Defined.

End ParserLaws.

(** ** Token streams *)

Module StreamLaws.
Import Chars CharFacts Tokenizer TokenizerFacts.

(** What every token the loop adds has: a type other than [EOF] and
    [WHITESPACE], and the length of its text. *)
Definition ordinaryToken (t : Tok.Token) : Prop :=
  Tok.type t <> Tok.EOF /\ Tok.type t <> Tok.WHITESPACE
  /\ Tok.length t = String.length (Tok.value t).

Lemma step_adds (input : list ascii) (st st' : state) :
  step input st = Continue st' ->
  exists t, tokens st' = tokens st ++ [t] /\ ordinaryToken t.
Proof.
  unfold step, single, finish, tokenizeString, tokenizeNumber, tokenizeIdentifier.
  repeat match goal with
         | |- context [if ?b then _ else _] => destruct b
         | |- context [match ?x with Some _ => _ | None => _ end] => destruct x
         | |- context [let '(_, _) := ?x in _] => destruct x
         end;
    try discriminate; intros [= <-];
    (eexists; split; [reflexivity|]; repeat split; discriminate).
Qed.

Lemma run_stream (fuel : nat) (input : list ascii) (st : state) (toks : list Tok.Token) :
  run fuel input st = Some (inr toks) ->
  exists more eof,
    toks = tokens st ++ more ++ [eof]
    /\ Forall ordinaryToken more
    /\ Tok.type eof = Tok.EOF /\ Tok.value eof = "" /\ Tok.length eof = 0.
Proof.
  revert st. induction fuel as [|fuel IH]; intros st; cbn [run]; [discriminate|].
  destruct (step input st) as [st'|ts|] eqn:Hstep; [| |discriminate].
  - intros Hrun. destruct (IH _ Hrun) as (more & eof & -> & Hmore & Heof).
    destruct (step_adds _ _ _ Hstep) as (t & -> & Ht).
    exists (t :: more), eof. rewrite <- app_assoc. cbn [app].
    split; [reflexivity|]. split; [constructor; assumption|exact Heof].
  - intros [= <-]. clear IH. revert Hstep. unfold step, finish.
    repeat match goal with
           | |- context [if ?b then _ else _] => destruct b
           | |- context [match ?x with Some _ => _ | None => _ end] => destruct x
           end;
      try discriminate;
      try (unfold single, tokenizeString, tokenizeNumber, tokenizeIdentifier;
           repeat match goal with
                  | |- context [if ?b then _ else _] => destruct b
                  | |- context [let '(_, _) := ?x in _] => destruct x
                  end; discriminate);
      intros [= <-]; eexists [], _; cbn [app tokens addToken setPosition skipWhitespace];
      (split; [reflexivity|]); (split; [constructor|]); repeat split.
Qed.

(** X19.  The tokenizer answers every input, with a message or with tokens; the
    tokens end with the one [EOF] token there is, no token is of the
    declared type [WHITESPACE], and every token's length is that of its
    text. *)
Theorem token_stream_ends_with_the_only_eof (input : string) :
  exists r,
    tokenize input = Some r
    /\ forall toks, r = inr toks ->
       exists more eof,
         toks = more ++ [eof]
         /\ Forall ordinaryToken more
         /\ Tok.type eof = Tok.EOF /\ Tok.value eof = "" /\ Tok.length eof = 0.
Proof.
  destruct (tokenize_terminates input) as [r Hr]. exists r. split; [exact Hr|].
  intros toks ->. unfold tokenize in Hr.
  destruct (run_stream _ _ _ _ Hr) as (more & eof & Htoks & Hrest).
  exists more, eof. split; [exact Htoks|exact Hrest].
Qed.


(** X20.  The position a token of one character carries is one less than the
    index of its character in the trimmed input, since the position is
    worked out from the text's length before the scanner moves on: the
    parser's messages place such a token one character early. *)
Theorem punctuation_position_is_one_short (input : list ascii) (st : state)
    (lead : list ascii) (char : ascii) (rest : list ascii) (type : Tok.TokenType) :
  drop (position st) input = lead ++ char :: rest ->
  forallb isWhitespace lead = true ->
  LexerLaws.punctuation char = Some type ->
  exists st' t,
    step input st = Continue st'
    /\ tokens st' = tokens st ++ [t]
    /\ Tok.type t = type
    /\ Tok.position t = (Z.of_nat (position st + List.length lead) - 1)%Z
    /\ position st' = S (position st + List.length lead).
Proof.
  intros Hdrop Hlead Hp.
  rewrite (LexerLaws.step_dispatch input st lead char rest Hdrop Hlead
             (LexerLaws.punctuation_facts _ _ Hp)).
  cbv zeta. unfold LexerLaws.punctuation in Hp.
  repeat match type of Hp with
         | (if ?b then _ else _) = _ => destruct b
         end;
    try discriminate; injection Hp as <-;
    (eexists _, _; split; [reflexivity|]; repeat split).
Qed.

Lemma punctuation_position_witness :
  tokenize "[0]"
  = Some (inr [ Tok.mkToken Tok.OPEN_BRACKET "[" (-1) 1;
                Tok.mkToken Tok.NUMBER "0" 1 1;
                Tok.mkToken Tok.CLOSE_BRACKET "]" 1 1;
                Tok.mkToken Tok.EOF "" 3 0 ])
  /\ exists st' t,
       step (chars "[0]") initial = Continue st'
       /\ tokens st' = tokens initial ++ [t]
       /\ Tok.type t = Tok.OPEN_BRACKET
       /\ Tok.position t = (Z.of_nat (position initial + List.length (@nil ascii)) - 1)%Z
       /\ position st' = S (position initial + List.length (@nil ascii)).
Proof.
  split; [reflexivity|].
  exact (punctuation_position_is_one_short (chars "[0]") initial [] "[" (chars "0]")
           Tok.OPEN_BRACKET eq_refl eq_refl eq_refl).
Defined.

End StreamLaws.

(** ** The facade *)

Module FacadeLaws.
Import Js Errors Types.

Section WithRuntime.
Context `{Runtime}.

Lemma concat_one (sep message : string) : String.concat sep [message] = message.
Proof. reflexivity. Qed.

(** The element a request runs on: the document when none is given. *)
Definition target (element : Js.value) : Js.value :=
  if isUndefined element then document else element.

Lemma target_truthy (element : Js.value) : truthy element = true -> target element = element.
Proof. destruct element; try discriminate; reflexivity. Qed.

Lemma target_defined (element : Js.value) : element <> Undefined -> target element = element.
Proof. destruct element; try congruence; reflexivity. Qed.

Lemma target_target (element : Js.value) : target (target element) = target element.
Proof. unfold target. destruct element; cbn [isUndefined]; destruct (isUndefined document);
  reflexivity. Qed.

Lemma execute_target (reg : gmap string CommandHandler) (s : SuperSelector.t) selector
    element lookupTime storeTime :
  SuperSelector.execute reg s selector element lookupTime storeTime
  = SuperSelector.execute reg s selector (target element) lookupTime storeTime.
Proof.
  unfold SuperSelector.execute. cbv zeta. fold (target element). fold (target (target element)).
  rewrite target_target. reflexivity.
Qed.

(** X21.  A request that is not well formed never reaches the engine.  An
    element that is not given, or given as undefined, is the document.  An
    empty selector, or an element that is falsy without being undefined, is
    answered with a validation error, a selector that does not parse with a
    parse error that quotes the parser's message; the instance is left as
    it was, and nothing is thrown, whatever the error-handling mode.  Every
    request is answered. *)
Theorem malformed_requests_are_answered_unrun (reg : gmap string CommandHandler)
    (s : SuperSelector.t) (selector : string) (element : Js.value)
    (lookupTime storeTime : Z) :
  (exists s' r,
      SuperSelector.execute reg s selector element lookupTime storeTime = Some (s', r))
  /\ SuperSelector.execute reg s selector Undefined lookupTime storeTime
     = SuperSelector.execute reg s selector document lookupTime storeTime
  /\ (selector = "" \/ (element <> Undefined /\ truthy element = false) ->
      SuperSelector.execute reg s selector element lookupTime storeTime
      = Some (s, SuperSelector.failure
                   (ErrorFactory.validation "Selector and element are required")))
  /\ (forall message,
      selector <> "" -> truthy element = true ->
      Parser.parse selector = Some (ParserFacts.invalid message) ->
      SuperSelector.execute reg s selector element lookupTime storeTime
      = Some (s, SuperSelector.failure
                   (ErrorFactory.parse ("Parse errors: " +:+ message)))).
Proof.
  split; [|split; [|split]].
  - unfold SuperSelector.execute. cbv zeta. fold (target element).
    destruct (String.eqb selector "" || negb (truthy (target element))); [eauto|].
    destruct (ParserFacts.parse_total selector) as (r & -> & _).
    destruct (negb (Ast.isValid r)); [eauto|].
    destruct (Engine.execute reg _ _ _ _ _ _); eauto.
  - apply (execute_target reg s selector Undefined).
  - intros [-> | [Hdefined Hfalsy]]; [reflexivity|].
    unfold SuperSelector.execute. cbv zeta. fold (target element).
    rewrite (target_defined element Hdefined), Hfalsy. cbn [negb].
    rewrite orb_true_r. reflexivity.
  - intros message Hne Htruthy Hparse.
    unfold SuperSelector.execute. cbv zeta. fold (target element).
    rewrite (target_truthy element Htruthy).
    apply String.eqb_neq in Hne. rewrite Hne, Htruthy, Hparse. reflexivity.
Qed.

(** X22.  A selector of white space only is not empty: it parses to no command
    at all, and the answer is the element itself. *)
Theorem blank_selector_answers_the_element (reg : gmap string CommandHandler)
    (s : SuperSelector.t) (selector : string) (element : Js.value)
    (lookupTime storeTime : Z) :
  selector <> "" ->
  forallb Chars.isWhitespace (Chars.chars selector) = true ->
  truthy element = true ->
  (Engine.executionDepth (SuperSelector.executionEngine s)
   <= maxDepth (SuperSelector.configManager s))%Z ->
  EngineFacts.cacheMiss (SuperSelector.executionEngine s) [] element
    (SuperSelector.configManager s) lookupTime ->
  exists s',
    SuperSelector.execute reg s selector element lookupTime storeTime
    = Some (s', {| success := true; value := element; error := None;
                   metadata := {| commandsExecuted := 0; cacheHit := false |} |}).
Proof.
  intros Hne Hblank Htruthy Hdepth Hmiss.
  unfold SuperSelector.execute. cbv zeta. fold (target element).
  rewrite (target_truthy element Htruthy).
  apply String.eqb_neq in Hne. rewrite Hne, Htruthy.
  rewrite (ParserLaws.parse_blank selector Hblank). cbn [orb negb Ast.isValid Ast.commands].
  unfold Config.getAll.
  pose proof (EngineFacts.execute_without_throw reg (SuperSelector.executionEngine s) []
                element (SuperSelector.configManager s) lookupTime storeTime
                (Engine.initialContext element (SuperSelector.configManager s)) element
                Hmiss) as Hrun.
  destruct (Engine.execute _ _ _ _ _ _ _) as [engine r]. cbn [snd] in Hrun.
  rewrite Hrun; [eexists; reflexivity|].
  unfold Engine.executeCommands. cbn [config Engine.initialContext].
  destruct (Z.ltb_spec (maxDepth (SuperSelector.configManager s))
              (Engine.executionDepth (SuperSelector.executionEngine s))); [lia|].
  reflexivity.
Qed.

Lemma execute_engine (reg : gmap string CommandHandler) (s s' : SuperSelector.t)
    selector element lookupTime storeTime r :
  SuperSelector.execute reg s selector element lookupTime storeTime = Some (s', r) ->
  success r = true ->
  exists commands,
    Parser.parse selector
      = Some {| Ast.commands := commands; Ast.isValid := true; Ast.errors := [] |}
    /\ Engine.execute reg (SuperSelector.executionEngine s) commands (target element)
         (SuperSelector.configManager s) lookupTime storeTime
       = (SuperSelector.executionEngine s', r)
    /\ SuperSelector.configManager s' = SuperSelector.configManager s
    /\ SuperSelector.ownCache s' = SuperSelector.ownCache s.
Proof.
  unfold SuperSelector.execute. cbv zeta. fold (target element).
  destruct (String.eqb selector "" || negb (truthy (target element))).
  { intros [= <- <-]. discriminate. }
  destruct (ParserFacts.parse_total selector) as (parsed & Hparse & Hshape).
  rewrite Hparse. destruct Hshape as [[Hvalid Herrors]|[message ->]].
  - rewrite Hvalid. cbn [negb]. unfold Config.getAll.
    destruct (Engine.execute reg _ _ _ _ _ _) as [engine r'] eqn:Hrun.
    intros [= <- <-] _. exists (Ast.commands parsed).
    destruct parsed as [commands isValid errors]. cbn in *. subst.
    split; [reflexivity|]. split; [exact Hrun|]. split; reflexivity.
  - cbn. intros [= <- <-]. discriminate.
Qed.

Lemma executeUncached_no_hit (reg : gmap string CommandHandler) engine commands ctx key
    storeTime :
  cacheHit (metadata (snd (Engine.executeUncached reg engine commands ctx key storeTime)))
  = false.
Proof.
  unfold Engine.executeUncached.
  destruct (Engine.executeCommands reg engine commands ctx) as [engine' [ctx' [v|t]]];
    reflexivity.
Qed.

Lemma empty_cache_misses (reg : gmap string CommandHandler) engine commands element config
    lookupTime storeTime :
  Cache.store (Engine.cache engine) = ∅ ->
  cacheHit (metadata (snd (Engine.execute reg engine commands element config lookupTime
                             storeTime))) = false.
Proof.
  intros Hempty. unfold Engine.execute.
  destruct (cacheEnabled config); [|apply executeUncached_no_hit].
  unfold Cache.get. rewrite Hempty, lookup_empty. cbn [isNull negb].
  apply executeUncached_no_hit.
Qed.

(** X23.  [clearCache] empties the cache the engine reads only as long as
    [configure] has not been given a time-to-live.  From then on the
    instance holds a cache of its own that the engine never sees, and
    [clearCache] leaves the engine's entries in place: a result cached
    before is still replayed after it. *)
Theorem clearCache_after_configure_spares_the_engine
    (reg reg' reg'' : gmap string CommandHandler)
    (s s1 : SuperSelector.t) (selector : string) (element : Js.value)
    (lookupTime storeTime later storeTime' t : Z) (r1 : ExecutionResult)
    (updates : Config.Partial) (ttl : number) :
  SuperSelector.execute reg s selector element lookupTime storeTime = Some (s1, r1) ->
  success r1 = true -> isNull (value r1) = false -> cacheHit (metadata r1) = false ->
  cacheEnabled (SuperSelector.configManager s) = true ->
  cacheTTL (SuperSelector.configManager s) = Finite t -> t <> 0%Z ->
  (later - storeTime <= t)%Z ->
  Config.cacheTTL updates = Some ttl -> truthyNumber ttl = true ->
  Config.cacheEnabled updates <> Some false ->
  (exists s2,
      SuperSelector.execute reg' (SuperSelector.clearCache (SuperSelector.configure s1 updates))
        selector element later storeTime'
      = Some (s2, {| success := true; value := value r1; error := None;
                     metadata := {| commandsExecuted := 0; cacheHit := true |} |}))
  /\ (SuperSelector.ownCache s = None ->
      exists s2 r2,
        SuperSelector.execute reg'' (SuperSelector.clearCache s1) selector element later
          storeTime' = Some (s2, r2)
        /\ cacheHit (metadata r2) = false).
Proof.
  intros Hfirst Hok Hnn Hmiss Hon Httl Ht Hage Hupd Htruthy Hstill.
  destruct (execute_engine reg s s1 selector element lookupTime storeTime r1 Hfirst Hok)
    as (commands & Hparse & Hrun & Hcfg & Hown).
  assert (Hnonempty : String.eqb selector "" || negb (truthy (target element)) = false).
  { revert Hfirst. unfold SuperSelector.execute. cbv zeta. fold (target element).
    destruct (String.eqb selector "" || negb (truthy (target element))); [|reflexivity].
    intros [= <- <-]. discriminate. }
  pose proof (EngineLaws.execute_stores reg (SuperSelector.executionEngine s) commands
                (target element) (SuperSelector.configManager s) lookupTime storeTime t
                Hon Httl)
    as Hstored.
  cbv zeta in Hstored. rewrite Hrun in Hstored. cbn [fst snd] in Hstored.
  destruct (Hstored Hmiss Hok Hnn) as [c Hc].
  split.
  - assert (Hengine : SuperSelector.executionEngine
                        (SuperSelector.clearCache (SuperSelector.configure s1 updates))
                      = SuperSelector.executionEngine s1).
    { unfold SuperSelector.clearCache, SuperSelector.configure.
      cbn [SuperSelector.ownCache]. rewrite Hupd, Htruthy. reflexivity. }
    assert (Hcfg' : cacheEnabled (SuperSelector.configManager
                      (SuperSelector.clearCache (SuperSelector.configure s1 updates)))
                    = true).
    { unfold SuperSelector.clearCache, SuperSelector.configure.
      cbn [SuperSelector.ownCache]. rewrite Hupd, Htruthy.
      cbn [SuperSelector.configManager Config.update Config.spread cacheEnabled].
      rewrite Hcfg, Hon. destruct (Config.cacheEnabled updates) as [[|]|];
        [reflexivity|congruence|reflexivity]. }
    unfold SuperSelector.execute at 1. cbv zeta. fold (target element).
    rewrite Hnonempty, Hparse.
    cbn [negb Ast.isValid Ast.commands]. unfold Config.getAll. rewrite Hengine.
    pose proof (EngineLaws.execute_hits reg' (SuperSelector.executionEngine s1) commands
                  (target element) _ c (value r1) t storeTime later storeTime' Hcfg' Hc Ht
                  Hage Hnn)
      as Hhit.
    destruct (Engine.execute reg' _ _ _ _ _ _) as [engine2 r2]. cbn [snd] in Hhit.
    subst r2. eexists. reflexivity.
  - intros Hnone. rewrite <- Hown in Hnone.
    unfold SuperSelector.execute. cbv zeta. fold (target element).
    rewrite Hnonempty, Hparse.
    cbn [negb Ast.isValid Ast.commands]. unfold Config.getAll.
    pose proof (empty_cache_misses reg''
                  (SuperSelector.executionEngine (SuperSelector.clearCache s1)) commands
                  (target element)
                  (SuperSelector.configManager (SuperSelector.clearCache s1))
                  later storeTime') as Hcold.
    destruct (Engine.execute reg'' _ _ _ _ _ _) as [engine2 r2]. cbn [snd] in Hcold.
    eexists _, r2. split; [reflexivity|]. apply Hcold.
    unfold SuperSelector.clearCache. rewrite Hnone. reflexivity.
Qed.

End WithRuntime.

Definition fresh : SuperSelector.t := SuperSelector.create Config.noUpdates Logger.INFO.

Lemma malformed_witness :
  @SuperSelector.execute Sample.runtime Sample.builtins fresh "h1 | | textContent"
    Sample.page 0 0
  = Some (fresh, SuperSelector.failure
                   (ErrorFactory.parse "Parse errors: Unexpected token: PIPE at position 4"))
  /\ @SuperSelector.execute Sample.runtime Sample.builtins fresh "h1" Null 0 0
     = Some (fresh, SuperSelector.failure
                      (ErrorFactory.validation "Selector and element are required")).
Proof.
  split.
  - exact (proj2 (proj2 (proj2 (@malformed_requests_are_answered_unrun Sample.runtime
             Sample.builtins fresh "h1 | | textContent" Sample.page 0 0)))
             "Unexpected token: PIPE at position 4" ltac:(discriminate) eq_refl eq_refl).
  - apply (proj1 (proj2 (proj2 (@malformed_requests_are_answered_unrun Sample.runtime
             Sample.builtins fresh "h1" Null 0 0)))).
    right. split; [discriminate|reflexivity].
Defined.

Lemma blank_selector_witness :
  exists s',
    @SuperSelector.execute Sample.runtime Sample.builtins fresh "  " Sample.page 0 0
    = Some (s', {| success := true; value := Sample.page; error := None;
                   metadata := {| commandsExecuted := 0; cacheHit := false |} |}).
Proof.
  exact (@blank_selector_answers_the_element Sample.runtime Sample.builtins
           fresh "  " Sample.page 0 0 ltac:(discriminate) eq_refl eq_refl
           ltac:(cbn; lia) (fun _ => eq_refl)).
Defined.

(** [{ cacheTTL: 120000 }] *)
Definition longerTTL : Config.Partial :=
  {| Config.debug := None; Config.timeout := None; Config.maxDepth := None;
     Config.cacheEnabled := None; Config.cacheTTL := Some (Finite 120000);
     Config.errorHandling := None; Config.defaultValue := None |}.

(** A fresh instance after one request. *)
Definition warmed : SuperSelector.t :=
  match @SuperSelector.execute Sample.runtime Sample.builtins fresh "h1 | textContent"
          Sample.page 0 0 with
  | Some (s1, _) => s1
  | None => fresh
  end.

Definition greeting : ExecutionResult :=
  {| success := true; value := Str "  Hello "; error := None;
     metadata := {| commandsExecuted := 2; cacheHit := false |} |}.

Lemma clearCache_witness :
  exists s2,
    @SuperSelector.execute Sample.runtime ∅
      (SuperSelector.clearCache (SuperSelector.configure warmed longerTTL))
      "h1 | textContent" Sample.page 1000 1000
    = Some (s2, {| success := true; value := Str "  Hello "; error := None;
                   metadata := {| commandsExecuted := 0; cacheHit := true |} |}).
Proof.
  exact (proj1 (@clearCache_after_configure_spares_the_engine Sample.runtime
           Sample.builtins ∅ ∅ fresh warmed "h1 | textContent" Sample.page
           0 0 1000 1000 60000 greeting longerTTL (Finite 120000)
           eq_refl eq_refl eq_refl eq_refl eq_refl eq_refl ltac:(discriminate) ltac:(lia)
           eq_refl eq_refl ltac:(discriminate))).
Defined.

End FacadeLaws.
